(** * conductor_takehome: PDF number extraction with scale detection

    A shallow embedding of [extractor.py], [scale.py] and [filters.py].

    - Python [str] values are lists of Unicode code points ([N]).
    - Python [float] values are IEEE-754 binary64 numbers, taken from the
      Standard Library's [SpecFloat] (53-bit significand, [emax = 1024]).
    - Python exceptions are explicit: a computation is [Ret v] or [Raise e].
    - The [re] patterns are abstract syntax trees run by a backtracking
      matcher with Python's priorities (leftmost start, greedy quantifiers,
      alternatives left to right, numbered capture groups). *)

From Stdlib Require Import List ZArith NArith PArith Bool Lia String Ascii.
From Stdlib Require Import SpecFloat Sorted Permutation.
Import ListNotations.

Set Implicit Arguments.

(** ** Exceptions *)

Inductive exn := ValueError | OverflowError | AttributeError | IndexError.

Inductive exc (A : Type) : Type :=
| Ret (a : A)
| Raise (e : exn).

Arguments Ret {A} a.
Arguments Raise {A} e.

Definition bind {A B : Type} (m : exc A) (f : A -> exc B) : exc B :=
  match m with
  | Ret a => f a
  | Raise e => Raise e
  end.

Notation "x <- m ;; k" := (bind m (fun x => k))
  (at level 61, m at next level, right associativity).

Fixpoint mapM {A B : Type} (f : A -> exc B) (l : list A) : exc (list B) :=
  match l with
  | [] => Ret []
  | a :: l' => b <- f a ;; bs <- mapM f l' ;; Ret (b :: bs)
  end.

(** ** Unicode code points and the tables Python consults *)

Module Unicode.

Definition char := N.
Definition str := list char.

(** An ASCII literal of the development as a Python string. *)
Definition py (s : string) : str := map N_of_ascii (list_ascii_of_string s).

Definition in_range (lo hi c : N) : bool := ((lo <=? c) && (c <=? hi))%N.

Definition str_eqb (a b : str) : bool :=
  if list_eq_dec N.eq_dec a b then true else false.

(** [str.isspace] for one code point; also what [\s] matches and what
    [str.strip()] removes. *)
Definition is_space (c : char) : bool :=
  (in_range 9 13 c || in_range 28 31 c || (c =? 32) || (c =? 0x85)
   || (c =? 0xA0) || (c =? 0x1680) || in_range 0x2000 0x200A c
   || (c =? 0x2028) || (c =? 0x2029) || (c =? 0x202F) || (c =? 0x205F)
   || (c =? 0x3000))%N.

(** First code point of every block of ten decimal digits (category Nd). *)
Definition decimal_blocks : list N :=
  [0x30; 0x660; 0x6F0; 0x7C0; 0x966; 0x9E6; 0xA66; 0xAE6; 0xB66; 0xBE6;
   0xC66; 0xCE6; 0xD66; 0xDE6; 0xE50; 0xED0; 0xF20; 0x1040; 0x1090;
   0x17E0; 0x1810; 0x1946; 0x19D0; 0x1A80; 0x1A90; 0x1B50; 0x1BB0;
   0x1C40; 0x1C50; 0xA620; 0xA8D0; 0xA900; 0xA9D0; 0xA9F0; 0xAA50;
   0xABF0; 0xFF10; 0x104A0; 0x10D30; 0x11066; 0x110F0; 0x11136; 0x111D0;
   0x112F0; 0x11450; 0x114D0; 0x11650; 0x116C0; 0x11730; 0x118E0;
   0x11950; 0x11C50; 0x11D50; 0x11DA0; 0x11F50; 0x16A60; 0x16AC0;
   0x16B50; 0x1D7CE; 0x1D7D8; 0x1D7E2; 0x1D7EC; 0x1D7F6; 0x1E140;
   0x1E2F0; 0x1E4F0; 0x1E950; 0x1FBF0]%N.

(** The value of a decimal digit, [None] for any other code point. *)
Definition decimal_value (c : char) : option N :=
  match find (fun z => in_range z (z + 9) c) decimal_blocks with
  | Some z => Some (c - z)%N
  | None => None
  end.

(** What [\d] matches. *)
Definition is_decimal (c : char) : bool :=
  match decimal_value c with Some _ => true | None => false end.

Definition is_ascii_upper (c : char) : bool := in_range 65 90 c.
Definition is_ascii_lower (c : char) : bool := in_range 97 122 c.

(** The code points [c] for which [chr(c).isalnum()] holds, and the
    underscore, as ranges (Unicode 15.0, as [decimal_blocks]). *)
Definition word_ranges : list (N * N) :=
  [(0x30, 0x39); (0x41, 0x5A); (0x5F, 0x5F); (0x61, 0x7A); (0xAA, 0xAA);
   (0xB2, 0xB3); (0xB5, 0xB5); (0xB9, 0xBA); (0xBC, 0xBE); (0xC0, 0xD6);
   (0xD8, 0xF6); (0xF8, 0x2C1); (0x2C6, 0x2D1); (0x2E0, 0x2E4);
   (0x2EC, 0x2EC); (0x2EE, 0x2EE); (0x370, 0x374); (0x376, 0x377);
   (0x37A, 0x37D); (0x37F, 0x37F); (0x386, 0x386); (0x388, 0x38A);
   (0x38C, 0x38C); (0x38E, 0x3A1); (0x3A3, 0x3F5); (0x3F7, 0x481);
   (0x48A, 0x52F); (0x531, 0x556); (0x559, 0x559); (0x560, 0x588);
   (0x5D0, 0x5EA); (0x5EF, 0x5F2); (0x620, 0x64A); (0x660, 0x669);
   (0x66E, 0x66F); (0x671, 0x6D3); (0x6D5, 0x6D5); (0x6E5, 0x6E6);
   (0x6EE, 0x6FC); (0x6FF, 0x6FF); (0x710, 0x710); (0x712, 0x72F);
   (0x74D, 0x7A5); (0x7B1, 0x7B1); (0x7C0, 0x7EA); (0x7F4, 0x7F5);
   (0x7FA, 0x7FA); (0x800, 0x815); (0x81A, 0x81A); (0x824, 0x824);
   (0x828, 0x828); (0x840, 0x858); (0x860, 0x86A); (0x870, 0x887);
   (0x889, 0x88E); (0x8A0, 0x8C9); (0x904, 0x939); (0x93D, 0x93D);
   (0x950, 0x950); (0x958, 0x961); (0x966, 0x96F); (0x971, 0x980);
   (0x985, 0x98C); (0x98F, 0x990); (0x993, 0x9A8); (0x9AA, 0x9B0);
   (0x9B2, 0x9B2); (0x9B6, 0x9B9); (0x9BD, 0x9BD); (0x9CE, 0x9CE);
   (0x9DC, 0x9DD); (0x9DF, 0x9E1); (0x9E6, 0x9F1); (0x9F4, 0x9F9);
   (0x9FC, 0x9FC); (0xA05, 0xA0A); (0xA0F, 0xA10); (0xA13, 0xA28);
   (0xA2A, 0xA30); (0xA32, 0xA33); (0xA35, 0xA36); (0xA38, 0xA39);
   (0xA59, 0xA5C); (0xA5E, 0xA5E); (0xA66, 0xA6F); (0xA72, 0xA74);
   (0xA85, 0xA8D); (0xA8F, 0xA91); (0xA93, 0xAA8); (0xAAA, 0xAB0);
   (0xAB2, 0xAB3); (0xAB5, 0xAB9); (0xABD, 0xABD); (0xAD0, 0xAD0);
   (0xAE0, 0xAE1); (0xAE6, 0xAEF); (0xAF9, 0xAF9); (0xB05, 0xB0C);
   (0xB0F, 0xB10); (0xB13, 0xB28); (0xB2A, 0xB30); (0xB32, 0xB33);
   (0xB35, 0xB39); (0xB3D, 0xB3D); (0xB5C, 0xB5D); (0xB5F, 0xB61);
   (0xB66, 0xB6F); (0xB71, 0xB77); (0xB83, 0xB83); (0xB85, 0xB8A);
   (0xB8E, 0xB90); (0xB92, 0xB95); (0xB99, 0xB9A); (0xB9C, 0xB9C);
   (0xB9E, 0xB9F); (0xBA3, 0xBA4); (0xBA8, 0xBAA); (0xBAE, 0xBB9);
   (0xBD0, 0xBD0); (0xBE6, 0xBF2); (0xC05, 0xC0C); (0xC0E, 0xC10);
   (0xC12, 0xC28); (0xC2A, 0xC39); (0xC3D, 0xC3D); (0xC58, 0xC5A);
   (0xC5D, 0xC5D); (0xC60, 0xC61); (0xC66, 0xC6F); (0xC78, 0xC7E);
   (0xC80, 0xC80); (0xC85, 0xC8C); (0xC8E, 0xC90); (0xC92, 0xCA8);
   (0xCAA, 0xCB3); (0xCB5, 0xCB9); (0xCBD, 0xCBD); (0xCDD, 0xCDE);
   (0xCE0, 0xCE1); (0xCE6, 0xCEF); (0xCF1, 0xCF2); (0xD04, 0xD0C);
   (0xD0E, 0xD10); (0xD12, 0xD3A); (0xD3D, 0xD3D); (0xD4E, 0xD4E);
   (0xD54, 0xD56); (0xD58, 0xD61); (0xD66, 0xD78); (0xD7A, 0xD7F);
   (0xD85, 0xD96); (0xD9A, 0xDB1); (0xDB3, 0xDBB); (0xDBD, 0xDBD);
   (0xDC0, 0xDC6); (0xDE6, 0xDEF); (0xE01, 0xE30); (0xE32, 0xE33);
   (0xE40, 0xE46); (0xE50, 0xE59); (0xE81, 0xE82); (0xE84, 0xE84);
   (0xE86, 0xE8A); (0xE8C, 0xEA3); (0xEA5, 0xEA5); (0xEA7, 0xEB0);
   (0xEB2, 0xEB3); (0xEBD, 0xEBD); (0xEC0, 0xEC4); (0xEC6, 0xEC6);
   (0xED0, 0xED9); (0xEDC, 0xEDF); (0xF00, 0xF00); (0xF20, 0xF33);
   (0xF40, 0xF47); (0xF49, 0xF6C); (0xF88, 0xF8C); (0x1000, 0x102A);
   (0x103F, 0x1049); (0x1050, 0x1055); (0x105A, 0x105D); (0x1061, 0x1061);
   (0x1065, 0x1066); (0x106E, 0x1070); (0x1075, 0x1081); (0x108E, 0x108E);
   (0x1090, 0x1099); (0x10A0, 0x10C5); (0x10C7, 0x10C7); (0x10CD, 0x10CD);
   (0x10D0, 0x10FA); (0x10FC, 0x1248); (0x124A, 0x124D); (0x1250, 0x1256);
   (0x1258, 0x1258); (0x125A, 0x125D); (0x1260, 0x1288); (0x128A, 0x128D);
   (0x1290, 0x12B0); (0x12B2, 0x12B5); (0x12B8, 0x12BE); (0x12C0, 0x12C0);
   (0x12C2, 0x12C5); (0x12C8, 0x12D6); (0x12D8, 0x1310); (0x1312, 0x1315);
   (0x1318, 0x135A); (0x1369, 0x137C); (0x1380, 0x138F); (0x13A0, 0x13F5);
   (0x13F8, 0x13FD); (0x1401, 0x166C); (0x166F, 0x167F); (0x1681, 0x169A);
   (0x16A0, 0x16EA); (0x16EE, 0x16F8); (0x1700, 0x1711); (0x171F, 0x1731);
   (0x1740, 0x1751); (0x1760, 0x176C); (0x176E, 0x1770); (0x1780, 0x17B3);
   (0x17D7, 0x17D7); (0x17DC, 0x17DC); (0x17E0, 0x17E9); (0x17F0, 0x17F9);
   (0x1810, 0x1819); (0x1820, 0x1878); (0x1880, 0x1884); (0x1887, 0x18A8);
   (0x18AA, 0x18AA); (0x18B0, 0x18F5); (0x1900, 0x191E); (0x1946, 0x196D);
   (0x1970, 0x1974); (0x1980, 0x19AB); (0x19B0, 0x19C9); (0x19D0, 0x19DA);
   (0x1A00, 0x1A16); (0x1A20, 0x1A54); (0x1A80, 0x1A89); (0x1A90, 0x1A99);
   (0x1AA7, 0x1AA7); (0x1B05, 0x1B33); (0x1B45, 0x1B4C); (0x1B50, 0x1B59);
   (0x1B83, 0x1BA0); (0x1BAE, 0x1BE5); (0x1C00, 0x1C23); (0x1C40, 0x1C49);
   (0x1C4D, 0x1C7D); (0x1C80, 0x1C88); (0x1C90, 0x1CBA); (0x1CBD, 0x1CBF);
   (0x1CE9, 0x1CEC); (0x1CEE, 0x1CF3); (0x1CF5, 0x1CF6); (0x1CFA, 0x1CFA);
   (0x1D00, 0x1DBF); (0x1E00, 0x1F15); (0x1F18, 0x1F1D); (0x1F20, 0x1F45);
   (0x1F48, 0x1F4D); (0x1F50, 0x1F57); (0x1F59, 0x1F59); (0x1F5B, 0x1F5B);
   (0x1F5D, 0x1F5D); (0x1F5F, 0x1F7D); (0x1F80, 0x1FB4); (0x1FB6, 0x1FBC);
   (0x1FBE, 0x1FBE); (0x1FC2, 0x1FC4); (0x1FC6, 0x1FCC); (0x1FD0, 0x1FD3);
   (0x1FD6, 0x1FDB); (0x1FE0, 0x1FEC); (0x1FF2, 0x1FF4); (0x1FF6, 0x1FFC);
   (0x2070, 0x2071); (0x2074, 0x2079); (0x207F, 0x2089); (0x2090, 0x209C);
   (0x2102, 0x2102); (0x2107, 0x2107); (0x210A, 0x2113); (0x2115, 0x2115);
   (0x2119, 0x211D); (0x2124, 0x2124); (0x2126, 0x2126); (0x2128, 0x2128);
   (0x212A, 0x212D); (0x212F, 0x2139); (0x213C, 0x213F); (0x2145, 0x2149);
   (0x214E, 0x214E); (0x2150, 0x2189); (0x2460, 0x249B); (0x24EA, 0x24FF);
   (0x2776, 0x2793); (0x2C00, 0x2CE4); (0x2CEB, 0x2CEE); (0x2CF2, 0x2CF3);
   (0x2CFD, 0x2CFD); (0x2D00, 0x2D25); (0x2D27, 0x2D27); (0x2D2D, 0x2D2D);
   (0x2D30, 0x2D67); (0x2D6F, 0x2D6F); (0x2D80, 0x2D96); (0x2DA0, 0x2DA6);
   (0x2DA8, 0x2DAE); (0x2DB0, 0x2DB6); (0x2DB8, 0x2DBE); (0x2DC0, 0x2DC6);
   (0x2DC8, 0x2DCE); (0x2DD0, 0x2DD6); (0x2DD8, 0x2DDE); (0x2E2F, 0x2E2F);
   (0x3005, 0x3007); (0x3021, 0x3029); (0x3031, 0x3035); (0x3038, 0x303C);
   (0x3041, 0x3096); (0x309D, 0x309F); (0x30A1, 0x30FA); (0x30FC, 0x30FF);
   (0x3105, 0x312F); (0x3131, 0x318E); (0x3192, 0x3195); (0x31A0, 0x31BF);
   (0x31F0, 0x31FF); (0x3220, 0x3229); (0x3248, 0x324F); (0x3251, 0x325F);
   (0x3280, 0x3289); (0x32B1, 0x32BF); (0x3400, 0x4DBF); (0x4E00, 0xA48C);
   (0xA4D0, 0xA4FD); (0xA500, 0xA60C); (0xA610, 0xA62B); (0xA640, 0xA66E);
   (0xA67F, 0xA69D); (0xA6A0, 0xA6EF); (0xA717, 0xA71F); (0xA722, 0xA788);
   (0xA78B, 0xA7CA); (0xA7D0, 0xA7D1); (0xA7D3, 0xA7D3); (0xA7D5, 0xA7D9);
   (0xA7F2, 0xA801); (0xA803, 0xA805); (0xA807, 0xA80A); (0xA80C, 0xA822);
   (0xA830, 0xA835); (0xA840, 0xA873); (0xA882, 0xA8B3); (0xA8D0, 0xA8D9);
   (0xA8F2, 0xA8F7); (0xA8FB, 0xA8FB); (0xA8FD, 0xA8FE); (0xA900, 0xA925);
   (0xA930, 0xA946); (0xA960, 0xA97C); (0xA984, 0xA9B2); (0xA9CF, 0xA9D9);
   (0xA9E0, 0xA9E4); (0xA9E6, 0xA9FE); (0xAA00, 0xAA28); (0xAA40, 0xAA42);
   (0xAA44, 0xAA4B); (0xAA50, 0xAA59); (0xAA60, 0xAA76); (0xAA7A, 0xAA7A);
   (0xAA7E, 0xAAAF); (0xAAB1, 0xAAB1); (0xAAB5, 0xAAB6); (0xAAB9, 0xAABD);
   (0xAAC0, 0xAAC0); (0xAAC2, 0xAAC2); (0xAADB, 0xAADD); (0xAAE0, 0xAAEA);
   (0xAAF2, 0xAAF4); (0xAB01, 0xAB06); (0xAB09, 0xAB0E); (0xAB11, 0xAB16);
   (0xAB20, 0xAB26); (0xAB28, 0xAB2E); (0xAB30, 0xAB5A); (0xAB5C, 0xAB69);
   (0xAB70, 0xABE2); (0xABF0, 0xABF9); (0xAC00, 0xD7A3); (0xD7B0, 0xD7C6);
   (0xD7CB, 0xD7FB); (0xF900, 0xFA6D); (0xFA70, 0xFAD9); (0xFB00, 0xFB06);
   (0xFB13, 0xFB17); (0xFB1D, 0xFB1D); (0xFB1F, 0xFB28); (0xFB2A, 0xFB36);
   (0xFB38, 0xFB3C); (0xFB3E, 0xFB3E); (0xFB40, 0xFB41); (0xFB43, 0xFB44);
   (0xFB46, 0xFBB1); (0xFBD3, 0xFD3D); (0xFD50, 0xFD8F); (0xFD92, 0xFDC7);
   (0xFDF0, 0xFDFB); (0xFE70, 0xFE74); (0xFE76, 0xFEFC); (0xFF10, 0xFF19);
   (0xFF21, 0xFF3A); (0xFF41, 0xFF5A); (0xFF66, 0xFFBE); (0xFFC2, 0xFFC7);
   (0xFFCA, 0xFFCF); (0xFFD2, 0xFFD7); (0xFFDA, 0xFFDC); (0x10000, 0x1000B);
   (0x1000D, 0x10026); (0x10028, 0x1003A); (0x1003C, 0x1003D);
   (0x1003F, 0x1004D); (0x10050, 0x1005D); (0x10080, 0x100FA);
   (0x10107, 0x10133); (0x10140, 0x10178); (0x1018A, 0x1018B);
   (0x10280, 0x1029C); (0x102A0, 0x102D0); (0x102E1, 0x102FB);
   (0x10300, 0x10323); (0x1032D, 0x1034A); (0x10350, 0x10375);
   (0x10380, 0x1039D); (0x103A0, 0x103C3); (0x103C8, 0x103CF);
   (0x103D1, 0x103D5); (0x10400, 0x1049D); (0x104A0, 0x104A9);
   (0x104B0, 0x104D3); (0x104D8, 0x104FB); (0x10500, 0x10527);
   (0x10530, 0x10563); (0x10570, 0x1057A); (0x1057C, 0x1058A);
   (0x1058C, 0x10592); (0x10594, 0x10595); (0x10597, 0x105A1);
   (0x105A3, 0x105B1); (0x105B3, 0x105B9); (0x105BB, 0x105BC);
   (0x10600, 0x10736); (0x10740, 0x10755); (0x10760, 0x10767);
   (0x10780, 0x10785); (0x10787, 0x107B0); (0x107B2, 0x107BA);
   (0x10800, 0x10805); (0x10808, 0x10808); (0x1080A, 0x10835);
   (0x10837, 0x10838); (0x1083C, 0x1083C); (0x1083F, 0x10855);
   (0x10858, 0x10876); (0x10879, 0x1089E); (0x108A7, 0x108AF);
   (0x108E0, 0x108F2); (0x108F4, 0x108F5); (0x108FB, 0x1091B);
   (0x10920, 0x10939); (0x10980, 0x109B7); (0x109BC, 0x109CF);
   (0x109D2, 0x10A00); (0x10A10, 0x10A13); (0x10A15, 0x10A17);
   (0x10A19, 0x10A35); (0x10A40, 0x10A48); (0x10A60, 0x10A7E);
   (0x10A80, 0x10A9F); (0x10AC0, 0x10AC7); (0x10AC9, 0x10AE4);
   (0x10AEB, 0x10AEF); (0x10B00, 0x10B35); (0x10B40, 0x10B55);
   (0x10B58, 0x10B72); (0x10B78, 0x10B91); (0x10BA9, 0x10BAF);
   (0x10C00, 0x10C48); (0x10C80, 0x10CB2); (0x10CC0, 0x10CF2);
   (0x10CFA, 0x10D23); (0x10D30, 0x10D39); (0x10E60, 0x10E7E);
   (0x10E80, 0x10EA9); (0x10EB0, 0x10EB1); (0x10F00, 0x10F27);
   (0x10F30, 0x10F45); (0x10F51, 0x10F54); (0x10F70, 0x10F81);
   (0x10FB0, 0x10FCB); (0x10FE0, 0x10FF6); (0x11003, 0x11037);
   (0x11052, 0x1106F); (0x11071, 0x11072); (0x11075, 0x11075);
   (0x11083, 0x110AF); (0x110D0, 0x110E8); (0x110F0, 0x110F9);
   (0x11103, 0x11126); (0x11136, 0x1113F); (0x11144, 0x11144);
   (0x11147, 0x11147); (0x11150, 0x11172); (0x11176, 0x11176);
   (0x11183, 0x111B2); (0x111C1, 0x111C4); (0x111D0, 0x111DA);
   (0x111DC, 0x111DC); (0x111E1, 0x111F4); (0x11200, 0x11211);
   (0x11213, 0x1122B); (0x1123F, 0x11240); (0x11280, 0x11286);
   (0x11288, 0x11288); (0x1128A, 0x1128D); (0x1128F, 0x1129D);
   (0x1129F, 0x112A8); (0x112B0, 0x112DE); (0x112F0, 0x112F9);
   (0x11305, 0x1130C); (0x1130F, 0x11310); (0x11313, 0x11328);
   (0x1132A, 0x11330); (0x11332, 0x11333); (0x11335, 0x11339);
   (0x1133D, 0x1133D); (0x11350, 0x11350); (0x1135D, 0x11361);
   (0x11400, 0x11434); (0x11447, 0x1144A); (0x11450, 0x11459);
   (0x1145F, 0x11461); (0x11480, 0x114AF); (0x114C4, 0x114C5);
   (0x114C7, 0x114C7); (0x114D0, 0x114D9); (0x11580, 0x115AE);
   (0x115D8, 0x115DB); (0x11600, 0x1162F); (0x11644, 0x11644);
   (0x11650, 0x11659); (0x11680, 0x116AA); (0x116B8, 0x116B8);
   (0x116C0, 0x116C9); (0x11700, 0x1171A); (0x11730, 0x1173B);
   (0x11740, 0x11746); (0x11800, 0x1182B); (0x118A0, 0x118F2);
   (0x118FF, 0x11906); (0x11909, 0x11909); (0x1190C, 0x11913);
   (0x11915, 0x11916); (0x11918, 0x1192F); (0x1193F, 0x1193F);
   (0x11941, 0x11941); (0x11950, 0x11959); (0x119A0, 0x119A7);
   (0x119AA, 0x119D0); (0x119E1, 0x119E1); (0x119E3, 0x119E3);
   (0x11A00, 0x11A00); (0x11A0B, 0x11A32); (0x11A3A, 0x11A3A);
   (0x11A50, 0x11A50); (0x11A5C, 0x11A89); (0x11A9D, 0x11A9D);
   (0x11AB0, 0x11AF8); (0x11C00, 0x11C08); (0x11C0A, 0x11C2E);
   (0x11C40, 0x11C40); (0x11C50, 0x11C6C); (0x11C72, 0x11C8F);
   (0x11D00, 0x11D06); (0x11D08, 0x11D09); (0x11D0B, 0x11D30);
   (0x11D46, 0x11D46); (0x11D50, 0x11D59); (0x11D60, 0x11D65);
   (0x11D67, 0x11D68); (0x11D6A, 0x11D89); (0x11D98, 0x11D98);
   (0x11DA0, 0x11DA9); (0x11EE0, 0x11EF2); (0x11F02, 0x11F02);
   (0x11F04, 0x11F10); (0x11F12, 0x11F33); (0x11F50, 0x11F59);
   (0x11FB0, 0x11FB0); (0x11FC0, 0x11FD4); (0x12000, 0x12399);
   (0x12400, 0x1246E); (0x12480, 0x12543); (0x12F90, 0x12FF0);
   (0x13000, 0x1342F); (0x13441, 0x13446); (0x14400, 0x14646);
   (0x16800, 0x16A38); (0x16A40, 0x16A5E); (0x16A60, 0x16A69);
   (0x16A70, 0x16ABE); (0x16AC0, 0x16AC9); (0x16AD0, 0x16AED);
   (0x16B00, 0x16B2F); (0x16B40, 0x16B43); (0x16B50, 0x16B59);
   (0x16B5B, 0x16B61); (0x16B63, 0x16B77); (0x16B7D, 0x16B8F);
   (0x16E40, 0x16E96); (0x16F00, 0x16F4A); (0x16F50, 0x16F50);
   (0x16F93, 0x16F9F); (0x16FE0, 0x16FE1); (0x16FE3, 0x16FE3);
   (0x17000, 0x187F7); (0x18800, 0x18CD5); (0x18D00, 0x18D08);
   (0x1AFF0, 0x1AFF3); (0x1AFF5, 0x1AFFB); (0x1AFFD, 0x1AFFE);
   (0x1B000, 0x1B122); (0x1B132, 0x1B132); (0x1B150, 0x1B152);
   (0x1B155, 0x1B155); (0x1B164, 0x1B167); (0x1B170, 0x1B2FB);
   (0x1BC00, 0x1BC6A); (0x1BC70, 0x1BC7C); (0x1BC80, 0x1BC88);
   (0x1BC90, 0x1BC99); (0x1D2C0, 0x1D2D3); (0x1D2E0, 0x1D2F3);
   (0x1D360, 0x1D378); (0x1D400, 0x1D454); (0x1D456, 0x1D49C);
   (0x1D49E, 0x1D49F); (0x1D4A2, 0x1D4A2); (0x1D4A5, 0x1D4A6);
   (0x1D4A9, 0x1D4AC); (0x1D4AE, 0x1D4B9); (0x1D4BB, 0x1D4BB);
   (0x1D4BD, 0x1D4C3); (0x1D4C5, 0x1D505); (0x1D507, 0x1D50A);
   (0x1D50D, 0x1D514); (0x1D516, 0x1D51C); (0x1D51E, 0x1D539);
   (0x1D53B, 0x1D53E); (0x1D540, 0x1D544); (0x1D546, 0x1D546);
   (0x1D54A, 0x1D550); (0x1D552, 0x1D6A5); (0x1D6A8, 0x1D6C0);
   (0x1D6C2, 0x1D6DA); (0x1D6DC, 0x1D6FA); (0x1D6FC, 0x1D714);
   (0x1D716, 0x1D734); (0x1D736, 0x1D74E); (0x1D750, 0x1D76E);
   (0x1D770, 0x1D788); (0x1D78A, 0x1D7A8); (0x1D7AA, 0x1D7C2);
   (0x1D7C4, 0x1D7CB); (0x1D7CE, 0x1D7FF); (0x1DF00, 0x1DF1E);
   (0x1DF25, 0x1DF2A); (0x1E030, 0x1E06D); (0x1E100, 0x1E12C);
   (0x1E137, 0x1E13D); (0x1E140, 0x1E149); (0x1E14E, 0x1E14E);
   (0x1E290, 0x1E2AD); (0x1E2C0, 0x1E2EB); (0x1E2F0, 0x1E2F9);
   (0x1E4D0, 0x1E4EB); (0x1E4F0, 0x1E4F9); (0x1E7E0, 0x1E7E6);
   (0x1E7E8, 0x1E7EB); (0x1E7ED, 0x1E7EE); (0x1E7F0, 0x1E7FE);
   (0x1E800, 0x1E8C4); (0x1E8C7, 0x1E8CF); (0x1E900, 0x1E943);
   (0x1E94B, 0x1E94B); (0x1E950, 0x1E959); (0x1EC71, 0x1ECAB);
   (0x1ECAD, 0x1ECAF); (0x1ECB1, 0x1ECB4); (0x1ED01, 0x1ED2D);
   (0x1ED2F, 0x1ED3D); (0x1EE00, 0x1EE03); (0x1EE05, 0x1EE1F);
   (0x1EE21, 0x1EE22); (0x1EE24, 0x1EE24); (0x1EE27, 0x1EE27);
   (0x1EE29, 0x1EE32); (0x1EE34, 0x1EE37); (0x1EE39, 0x1EE39);
   (0x1EE3B, 0x1EE3B); (0x1EE42, 0x1EE42); (0x1EE47, 0x1EE47);
   (0x1EE49, 0x1EE49); (0x1EE4B, 0x1EE4B); (0x1EE4D, 0x1EE4F);
   (0x1EE51, 0x1EE52); (0x1EE54, 0x1EE54); (0x1EE57, 0x1EE57);
   (0x1EE59, 0x1EE59); (0x1EE5B, 0x1EE5B); (0x1EE5D, 0x1EE5D);
   (0x1EE5F, 0x1EE5F); (0x1EE61, 0x1EE62); (0x1EE64, 0x1EE64);
   (0x1EE67, 0x1EE6A); (0x1EE6C, 0x1EE72); (0x1EE74, 0x1EE77);
   (0x1EE79, 0x1EE7C); (0x1EE7E, 0x1EE7E); (0x1EE80, 0x1EE89);
   (0x1EE8B, 0x1EE9B); (0x1EEA1, 0x1EEA3); (0x1EEA5, 0x1EEA9);
   (0x1EEAB, 0x1EEBB); (0x1F100, 0x1F10C); (0x1FBF0, 0x1FBF9);
   (0x20000, 0x2A6DF); (0x2A700, 0x2B739); (0x2B740, 0x2B81D);
   (0x2B820, 0x2CEA1); (0x2CEB0, 0x2EBE0); (0x2F800, 0x2FA1D);
   (0x30000, 0x3134A); (0x31350, 0x323AF)]%N.

Definition in_ranges (rs : list (N * N)) (c : char) : bool :=
  existsb (fun r => in_range (fst r) (snd r) c) rs.

(** What [\w] matches in a [str] pattern: alphanumerics and the
    underscore. *)
Definition is_word (c : char) : bool := in_ranges word_ranges c.

(** The one-to-one lower-case mapping the [re] engine applies under
    [re.I].  Beyond Latin-1 only the code points that fold onto ASCII or
    Latin-1 letters are listed. *)
Definition to_lower (c : char) : char :=
  (if is_ascii_upper c then c + 32
   else if in_range 0xC0 0xDE c && negb (c =? 0xD7) then c + 32
   else if c =? 0x130 then 0x69
   else if c =? 0x178 then 0xFF
   else if c =? 0x1E9E then 0xDF
   else if c =? 0x212A then 0x6B
   else if c =? 0x212B then 0xE5
   else c)%N.

(** Extra case-insensitive equivalents of a lower-case pattern letter
    (the engine's table of fixes). *)
Definition case_fixes (lo : char) : list char :=
  (if lo =? 0x69 then [0x131]
   else if lo =? 0x73 then [0x17F]
   else if lo =? 0xB5 then [0x3BC]
   else [])%N.

(** [str.lower()] and [str.upper()], which may lengthen the string. *)
Definition lower1 (c : char) : str :=
  (if c =? 0x130 then [0x69; 0x307] else [to_lower c])%N.

Definition upper1 (c : char) : str :=
  (if is_ascii_lower c then [c - 32]
   else if in_range 0xE0 0xFE c && negb (c =? 0xF7) then [c - 32]
   else if c =? 0xDF then [83; 83]
   else if c =? 0xB5 then [0x39C]
   else if c =? 0xFF then [0x178]
   else if c =? 0x131 then [73]
   else if c =? 0x17F then [83]
   else [c])%N.

Definition lower (s : str) : str := flat_map lower1 s.
Definition upper (s : str) : str := flat_map upper1 s.

(** [s.strip()]. *)
Fixpoint lstrip (s : str) : str :=
  match s with
  | c :: s' => if is_space c then lstrip s' else s
  | [] => []
  end.

Definition rstrip (s : str) : str := rev (lstrip (rev s)).
Definition strip (s : str) : str := rstrip (lstrip s).

(** [s.replace(c, "")] for a one-character [c]. *)
Definition remove_char (c : char) (s : str) : str :=
  filter (fun x => negb (x =? c)%N) s.

(** [sep.join(parts)]. *)
Fixpoint join (sep : str) (parts : list str) : str :=
  match parts with
  | [] => []
  | [p] => p
  | p :: rest => p ++ sep ++ join sep rest
  end.

(** [s[a:b]] for [0 <= a <= b]. *)
Definition slice (s : str) (a b : nat) : str := firstn (b - a) (skipn a s).

End Unicode.
Export Unicode.

(** ** Python floats: IEEE-754 binary64 *)

Module Float.

Definition float := spec_float.

Definition prec : Z := 53.
Definition emax : Z := 1024.

Definition mul : float -> float -> float := SFmul prec emax.
Definition add : float -> float -> float := SFadd prec emax.
Definition sub : float -> float -> float := SFsub prec emax.
Definition div : float -> float -> float := SFdiv prec emax.

(** [a < b], [a <= b], [a > b], [a >= b]: all false when an operand is NaN. *)
Definition ltb (a b : float) : bool := SFltb a b.
Definition leb (a b : float) : bool := SFleb a b.
Definition gtb (a b : float) : bool := SFltb b a.
Definition geb (a b : float) : bool := SFleb b a.

Definition is_nan (x : float) : bool :=
  match x with S754_nan => true | _ => false end.

Definition is_finite (x : float) : bool :=
  match x with S754_zero _ | S754_finite _ _ _ => true | _ => false end.

(** The float nearest to an integer (ties to even). *)
Definition of_Z (n : Z) : float := binary_normalize prec emax n 0 false.

(** [float(n)] for a Python int: too large an int raises. *)
Definition of_int (n : Z) : exc float :=
  let x := of_Z n in
  if is_finite x then Ret x else Raise OverflowError.

(** The float nearest to [(-1)^neg * n * 10^e10] (ties to even), as the
    conversion of a decimal numeral computes it. *)
Definition of_decimal (neg : bool) (n : N) (e10 : Z) : float :=
  match n with
  | N0 => S754_zero neg
  | Npos p =>
      let num := (p * Z.to_pos (10 ^ Z.max e10 0))%positive in
      let den := Z.to_pos (10 ^ Z.max (- e10) 0) in
      div (S754_finite neg num 0) (S754_finite false den 0)
  end.

Definition zero : float := S754_zero false.
Definition one : float := Eval vm_compute in of_Z 1.
Definition two : float := Eval vm_compute in of_Z 2.
Definition ten : float := Eval vm_compute in of_Z 10.
Definition half : float := Eval vm_compute in of_decimal false 5 (-1).
Definition thousand : float := Eval vm_compute in of_Z 1000.
Definition million : float := Eval vm_compute in of_Z 1000000.
Definition billion : float := Eval vm_compute in of_Z 1000000000.

(** [m / 2^k] rounded to the nearest integer, ties to even. *)
Definition div_pow2_half_even (m : Z) (k : positive) : Z :=
  let q := Z.shiftr m (Zpos k) in
  let r := (m - Z.shiftl q (Zpos k))%Z in
  match (r ?= Z.shiftl 1 (Zpos k - 1))%Z with
  | Lt => q
  | Gt => (q + 1)%Z
  | Eq => if Z.even q then q else (q + 1)%Z
  end.

(** [round(x)] with one argument: an int, ties to even; NaN and the
    infinities raise. *)
Definition py_round (x : float) : exc Z :=
  match x with
  | S754_nan => Raise ValueError
  | S754_infinity _ => Raise OverflowError
  | S754_zero _ => Ret 0%Z
  | S754_finite s m e =>
      let a := match e with
               | Zneg k => div_pow2_half_even (Zpos m) k
               | _ => Z.shiftl (Zpos m) e
               end in
      Ret (if s then (- a)%Z else a)
  end.

(** [x == n] for a float [x] and an int [n]: exact, no conversion. *)
Definition eq_int (x : float) (n : Z) : bool :=
  match x with
  | S754_zero _ => (n =? 0)%Z
  | S754_finite s m e =>
      let v := if s then Zneg m else Zpos m in
      match e with
      | Zneg k => (v =? Z.shiftl n (Zpos k))%Z
      | _ => (Z.shiftl v e =? n)%Z
      end
  | _ => false
  end.

(** [min(a, b)] and [max(a, b)] as the builtins fold them: the running
    value is replaced only by a strictly smaller (larger) item. *)
Definition fmin (cur x : float) : float := if ltb x cur then x else cur.
Definition fmax (cur x : float) : float := if gtb x cur then x else cur.

Definition min_list (x : float) (l : list float) : float := fold_left fmin l x.
Definition max_list (x : float) (l : list float) : float := fold_left fmax l x.

(** *** [float(s)] for a string *)

Definition ascii_lower (c : char) : char :=
  if is_ascii_upper c then (c + 32)%N else c.

(** A run of digits, underscores allowed between two digits.  Returns the
    accumulated numeral, the number of digits read and the rest. *)
Fixpoint scan_digits (acc : N) (cnt : nat) (s : str) {struct s}
  : N * nat * str :=
  match s with
  | c :: s' =>
      match decimal_value c with
      | Some v => scan_digits (acc * 10 + v)%N (S cnt) s'
      | None =>
          match cnt, s' with
          | S _, d :: _ =>
              if ((c =? 95)%N && is_decimal d)%bool
              then scan_digits acc cnt s' else (acc, cnt, s)
          | _, _ => (acc, cnt, s)
          end
      end
  | [] => (acc, cnt, s)
  end.

(** The optional exponent part, which must reach the end of the string. *)
Definition scan_exponent (s : str) : option Z :=
  match s with
  | [] => Some 0%Z
  | c :: s1 =>
      if ((c =? 101) || (c =? 69))%N then
        let '(neg, s2) :=
          match s1 with
          | 43%N :: t => (false, t)
          | 45%N :: t => (true, t)
          | _ => (false, s1)
          end in
        match scan_digits 0 0 s2 with
        | (n, S _, []) => Some (if neg then (- Z.of_N n)%Z else Z.of_N n)
        | _ => None
        end
      else None
  end.

Definition py_float (s : str) : exc float :=
  let s0 := strip s in
  let '(neg, s1) :=
    match s0 with
    | 43%N :: t => (false, t)
    | 45%N :: t => (true, t)
    | _ => (false, s0)
    end in
  let word := map ascii_lower s1 in
  if (str_eqb word (py "inf") || str_eqb word (py "infinity"))%bool
  then Ret (S754_infinity neg)
  else if str_eqb word (py "nan") then Ret S754_nan
  else
    let '(ip, ni, s2) := scan_digits 0 0 s1 in
    let '(fp, nf, s3) :=
      match s2 with
      | 46%N :: t => scan_digits ip 0 t
      | _ => (ip, 0, s2)
      end in
    match (ni + nf)%nat with
    | O => Raise ValueError
    | S _ =>
        match scan_exponent s3 with
        | Some e10 => Ret (of_decimal neg fp (e10 - Z.of_nat nf))
        | None => Raise ValueError
        end
    end.

End Float.
Export Float.

(** ** Regular expressions with Python's [re] semantics *)

Module Regex.

(** An item of a bracketed character set. *)
Inductive set_item :=
| SChar (c : char)
| SRange (lo hi : char)
| SDigit
| SSpace.

Inductive regex :=
| Empty                         (* matches the empty string *)
| Lit (c : char)                (* a literal character *)
| OneOf (items : list set_item) (* [...] *)
| Digit                         (* \d *)
| Space                         (* \s *)
| WordB                         (* \b *)
| Bol                           (* ^ *)
| Eol                           (* $ *)
| Cat (r1 r2 : regex)
| Alt (r1 r2 : regex)           (* r1|r2, r1 tried first *)
| Star (r : regex)              (* r*, greedy *)
| Group (n : nat) (r : regex).  (* capture group number n *)

(** Derived forms. *)
Definition Opt (r : regex) : regex := Alt r Empty.          (* r? *)
Definition Plus (r : regex) : regex := Cat r (Star r).      (* r+ *)

Fixpoint Times (n : nat) (r : regex) : regex :=             (* r{n} *)
  match n with
  | O => Empty
  | S O => r
  | S n' => Cat r (Times n' r)
  end.

Fixpoint UpTo (n : nat) (r : regex) : regex :=              (* r{0,n} *)
  match n with
  | O => Empty
  | S n' => Opt (Cat r (UpTo n' r))
  end.

Definition Between (lo hi : nat) (r : regex) : regex :=     (* r{lo,hi} *)
  Cat (Times lo r) (UpTo (hi - lo) r).

Fixpoint Seq (rs : list regex) : regex :=
  match rs with
  | [] => Empty
  | [r] => r
  | r :: rs' => Cat r (Seq rs')
  end.

Fixpoint Alts (rs : list regex) : regex :=
  match rs with
  | [] => Empty
  | [r] => r
  | r :: rs' => Alt r (Alts rs')
  end.

(** A literal word. *)
Definition Str (s : string) : regex := Seq (map Lit (py s)).

(** Capture spans, most recent binding first. *)
Definition captures := list (nat * (nat * nat)).

Fixpoint get_cap (n : nat) (cs : captures) : option (nat * nat) :=
  match cs with
  | [] => None
  | (i, sp) :: cs' => if Nat.eqb i n then Some sp else get_cap n cs'
  end.

(** A position of the matcher in the subject string. *)
Record state := mkState {
  prev : option char;   (* the character just before the position *)
  pos : nat;            (* the index of the position *)
  rest : str;           (* the subject from the position on *)
  caps : captures
}.

Definition advance (c : char) (s : str) (st : state) : state :=
  mkState (Some c) (S (pos st)) s (caps st).

Definition set_cap (n : nat) (a b : nat) (st : state) : state :=
  mkState (prev st) (pos st) (rest st) ((n, (a, b)) :: caps st).

(** A literal under [re.I] matches the characters that lower-case to it
    and the listed extra equivalents. *)
Definition lit_match (ic : bool) (c ch : char) : bool :=
  ((ch =? c)%N
   || (ic && ((to_lower ch =? to_lower c)%N
              || existsb (N.eqb (to_lower ch)) (case_fixes (to_lower c)))))%bool.

Definition item_match (ic : bool) (it : set_item) (ch : char) : bool :=
  match it with
  | SChar c => lit_match ic c ch
  | SRange lo hi =>
      (in_range lo hi ch || (ic && in_range lo hi (to_lower ch)))%bool
  | SDigit => is_decimal ch
  | SSpace => is_space ch
  end.

Definition set_match (ic : bool) (items : list set_item) (ch : char) : bool :=
  existsb (fun it => item_match ic it ch) items.

Definition word_before (st : state) : bool :=
  match prev st with Some c => is_word c | None => false end.

Definition word_after (st : state) : bool :=
  match rest st with c :: _ => is_word c | [] => false end.

(** Consume one character accepted by [p]. *)
Definition eat (p : char -> bool) (st : state) (k : state -> option state)
  : option state :=
  match rest st with
  | ch :: s' => if p ch then k (advance ch s' st) else None
  | [] => None
  end.

(** The loop of a greedy [r*]: one more iteration of [body] if it can be
    made to succeed, else the continuation.  An iteration must consume at
    least one character; [fuel] bounds the number of iterations. *)
Fixpoint star_loop (body : state -> (state -> option state) -> option state)
  (k : state -> option state) (fuel : nat) (st0 : state) {struct fuel}
  : option state :=
  match fuel with
  | O => k st0
  | S fuel' =>
      match body st0 (fun st' => if Nat.ltb (pos st0) (pos st')
                                 then star_loop body k fuel' st' else None) with
      | Some res => Some res
      | None => k st0
      end
  end.

(** The backtracking matcher, in continuation-passing style. *)
Fixpoint run (ic : bool) (r : regex) (st : state)
  (k : state -> option state) {struct r} : option state :=
  match r with
  | Empty => k st
  | Lit c => eat (lit_match ic c) st k
  | OneOf items => eat (set_match ic items) st k
  | Digit => eat is_decimal st k
  | Space => eat is_space st k
  | WordB => if xorb (word_before st) (word_after st) then k st else None
  | Bol => match pos st with O => k st | S _ => None end
  | Eol =>
      match rest st with
      | [] => k st
      | [10%N] => k st
      | _ => None
      end
  | Cat r1 r2 => run ic r1 st (fun st' => run ic r2 st' k)
  | Alt r1 r2 =>
      match run ic r1 st k with
      | Some res => Some res
      | None => run ic r2 st k
      end
  | Star r1 => star_loop (run ic r1) k (S (List.length (rest st))) st
  | Group n r1 =>
      run ic r1 st (fun st' => k (set_cap n (pos st) (pos st') st'))
  end.

(** A compiled pattern: the expression and its [re.I] flag. *)
Record pattern := mkPattern { ignorecase : bool; expr : regex }.

(** A match object. *)
Record match_obj := mkMatch {
  m_string : str;
  m_start : nat;
  m_end : nat;
  m_caps : captures
}.

(** [m.group(n)] for [n >= 1]: [None] when the group took no part. *)
Definition group (m : match_obj) (n : nat) : option str :=
  match get_cap n (m_caps m) with
  | Some (a, b) => Some (slice (m_string m) a b)
  | None => None
  end.

(** [m.group(0)]. *)
Definition group0 (m : match_obj) : str :=
  slice (m_string m) (m_start m) (m_end m).

Definition match_at (p : pattern) (whole : str) (pr : option char)
  (i : nat) (s : str) : option match_obj :=
  match run (ignorecase p) (expr p) (mkState pr i s []) Some with
  | Some st => Some (mkMatch whole i (pos st) (caps st))
  | None => None
  end.

(** [p.match(s)]: a match starting at index 0. *)
Definition pmatch (p : pattern) (s : str) : option match_obj :=
  match_at p s None 0 s.

Fixpoint search_from (p : pattern) (whole : str) (pr : option char)
  (i : nat) (s : str) {struct s} : option match_obj :=
  match match_at p whole pr i s with
  | Some m => Some m
  | None =>
      match s with
      | c :: s' => search_from p whole (Some c) (S i) s'
      | [] => None
      end
  end.

(** [p.search(s)]: the match with the leftmost start. *)
Definition search (p : pattern) (s : str) : option match_obj :=
  search_from p s None 0 s.

End Regex.
Export Regex.

(** ** filters.py: the ordered table of scale-phrase patterns *)

Module Filters.

Definition Ch (a : ascii) : regex := Lit (N_of_ascii a).

(** [(thousands|millions|billions)] as capture group [n]. *)
Definition scale_word (n : nat) : regex :=
  Group n (Alts [Str "thousands"; Str "millions"; Str "billions"]).

Definition dollars_or_usd : regex := Alts [Str "dollars"; Str "usd"].

(** [_PATTERNS], all compiled with [re.I]. *)
Definition _PATTERNS : list pattern :=
  [ (* \(\s*\$?\s*in\s*(thousands|millions|billions)\s*\) *)
    mkPattern true
      (Seq [Ch "("; Star Space; Opt (Ch "$"); Star Space; Str "in";
            Star Space; scale_word 1; Star Space; Ch ")"]);
    (* \b(amounts?|figures?|values?)\s+in\s+(thousands|millions|billions)\b *)
    mkPattern true
      (Seq [WordB;
            Group 1 (Alts [Cat (Str "amount") (Opt (Ch "s"));
                           Cat (Str "figure") (Opt (Ch "s"));
                           Cat (Str "value") (Opt (Ch "s"))]);
            Plus Space; Str "in"; Plus Space; scale_word 2; WordB]);
    (* \b(?:in|reported in)\s+(thousands|millions|billions)\s+of\s+(?:dollars|usd)\b *)
    mkPattern true
      (Seq [WordB; Alts [Str "in"; Str "reported in"]; Plus Space;
            scale_word 1; Plus Space; Str "of"; Plus Space;
            dollars_or_usd; WordB]);
    (* \(\s*(?:dollars|usd)\s+in\s+(thousands|millions|billions)\s*\) *)
    mkPattern true
      (Seq [Ch "("; Star Space; dollars_or_usd; Plus Space; Str "in";
            Plus Space; scale_word 1; Star Space; Ch ")"]);
    (* \b(?:dollars|usd)\s+in\s+(thousands|millions|billions)\b *)
    mkPattern true
      (Seq [WordB; dollars_or_usd; Plus Space; Str "in"; Plus Space;
            scale_word 1; WordB]);
    (* \(\s*\$?\s*(thousands|millions|billions)\s*\) *)
    mkPattern true
      (Seq [Ch "("; Star Space; Opt (Ch "$"); Star Space; scale_word 1;
            Star Space; Ch ")"]);
    (* \(\s*\$?\s*(?:in\s+)?(K|M|B)\s*\) *)
    mkPattern true
      (Seq [Ch "("; Star Space; Opt (Ch "$"); Star Space;
            Opt (Cat (Str "in") (Plus Space));
            Group 1 (Alts [Ch "K"; Ch "M"; Ch "B"]); Star Space; Ch ")"]) ].

(** [_ABBR]. *)
Definition _ABBR : list (str * str) :=
  [ (py "K", py "thousands"); (py "M", py "millions");
    (py "B", py "billions") ].

(** [d.get(key)] on a dict with string keys. *)
Fixpoint dict_get {V : Type} (key : str) (d : list (str * V)) : option V :=
  match d with
  | [] => None
  | (k, v) :: d' => if str_eqb k key then Some v else dict_get key d'
  end.



End Filters.
Export Filters.

(** ** scale.py *)

Module Scale.

(** A word of the layout extractor. *)
Record word := mkWord {
  text : str;
  x0 : float;
  top : float;
  x1 : float;
  bottom : float
}.

(** A bounding box [(x0, top, x1, bottom)]. *)
Definition bbox : Type := float * float * float * float.

Definition SCALE_PATTERNS : list pattern := _PATTERNS.
Definition SCALE_ABBR : list (str * str) := _ABBR.

(** The bucket key of a top coordinate: [round(top / bucket) * bucket]. *)
Definition y_bucket (t bucket : float) : exc float :=
  k <- py_round (div t bucket) ;;
  fk <- of_int k ;;
  Ret (mul fk bucket).

(** [lines.setdefault(y, []).append(w)] on an insertion-ordered dict with
    float keys. *)
Fixpoint setdefault_append (y : float) (w : word)
  (lines : list (float * list word)) : list (float * list word) :=
  match lines with
  | [] => [(y, [w])]
  | (k, ws) :: lines' =>
      if SFeqb k y then (k, ws ++ [w]) :: lines'
      else (k, ws) :: setdefault_append y w lines'
  end.

Fixpoint lines_loop (words : list word) (bucket : float)
  (lines : list (float * list word)) : exc (list (float * list word)) :=
  match words with
  | [] => Ret lines
  | w :: words' =>
      y <- y_bucket (top w) bucket ;;
      lines_loop words' bucket (setdefault_append y w lines)
  end.

Definition _lines_by_y (words : list word) (bucket : float)
  : exc (list (float * list word)) :=
  lines_loop words bucket [].

(** The loop of [_line_text_and_spans]: [(parts, spans)] from position
    [p], [first] telling whether the word has index 0. *)
Fixpoint text_and_spans_loop (ws : list word) (first : bool) (p : nat)
  : str * list (nat * nat) :=
  match ws with
  | [] => ([], [])
  | w :: ws' =>
      let t := text w in
      let start := if first then p else S p in
      let stop := (start + List.length t)%nat in
      let '(parts, spans) := text_and_spans_loop ws' false stop in
      ((if first then t else 32%N :: t) ++ parts, (start, stop) :: spans)
  end.

Definition _line_text_and_spans (line_words : list word)
  : str * list (nat * nat) :=
  text_and_spans_loop line_words true 0.

Definition _bbox_for_char_span (line_words : list word)
  (spans : list (nat * nat)) (start stop : nat) : option bbox :=
  let selected :=
    map fst (filter (fun ws => let '(_, (s, e)) := ws in
                               Nat.ltb s stop && Nat.ltb start e)%bool
                    (combine line_words spans)) in
  match selected with
  | [] => None
  | w :: ws =>
      Some (min_list (x0 w) (map x0 ws), min_list (top w) (map top ws),
            max_list (x1 w) (map x1 ws), max_list (bottom w) (map bottom ws))
  end.

(** [sorted(items, key=lambda kv: kv[0])]: a stable sort by [<]. *)
Fixpoint insert_by_key {A : Type} (x : float * A) (l : list (float * A))
  : list (float * A) :=
  match l with
  | [] => [x]
  | y :: l' => if ltb (fst y) (fst x) then y :: insert_by_key x l' else x :: l
  end.

Definition sorted_by_key {A : Type} (l : list (float * A))
  : list (float * A) :=
  fold_right insert_by_key [] l.

(** What [detect_scale_phrase] returns: scale, phrase, bbox. *)
Definition scale_match : Type := option str * option str * option bbox.

Definition no_scale : scale_match := (None, None, None).

(** The body run on a match [m] of a pattern in a line. *)
Definition scale_of_match (line_words : list word) (spans : list (nat * nat))
  (m : match_obj) : scale_match :=
  let grp := group m 1 in
  let scale :=
    match grp with
    | Some (c :: g) =>
        match dict_get (upper (c :: g)) SCALE_ABBR with
        | Some full => Some full
        | None => Some (lower (c :: g))
        end
    | _ => None
    end in
  (scale, Some (group0 m),
   _bbox_for_char_span line_words spans (m_start m) (m_end m)).

(** [for pat in SCALE_PATTERNS]: the first pattern found in [txt]. *)
Fixpoint first_pattern (pats : list pattern) (txt : str) : option match_obj :=
  match pats with
  | [] => None
  | pat :: pats' =>
      match search pat txt with
      | Some m => Some m
      | None => first_pattern pats' txt
      end
  end.

(** [for _, line_words in sorted(...)]. *)
Fixpoint scan_lines (lines : list (float * list word)) : scale_match :=
  match lines with
  | [] => no_scale
  | (_, line_words) :: lines' =>
      let '(txt, spans) := _line_text_and_spans line_words in
      match txt with
      | [] => scan_lines lines'
      | _ =>
          match first_pattern SCALE_PATTERNS txt with
          | Some m => scale_of_match line_words spans m
          | None => scan_lines lines'
          end
      end
  end.

Definition detect_scale_phrase (words : list word) : exc scale_match :=
  match words with
  | [] => Ret no_scale
  | _ =>
      lines <- _lines_by_y words ten ;;
      Ret (scan_lines (sorted_by_key lines))
  end.

Definition scale_factor (scale : option str) : float :=
  let key := lower (match scale with Some s => s | None => [] end) in
  match dict_get key [ (py "thousands", thousand); (py "millions", million);
                       (py "billions", billion) ] with
  | Some f => f
  | None => one
  end.

Definition _inside (box region : bbox) (tol : float) : bool :=
  let '(bx0, by0, bx1, by1) := box in
  let '(rx0, ry0, rx1, ry1) := region in
  (geb bx0 (sub rx0 tol) && leb bx1 (add rx1 tol)
   && geb by0 (sub ry0 tol) && leb by1 (add ry1 tol))%bool.

Definition word_bbox (w : word) : bbox := (x0 w, top w, x1 w, bottom w).

Definition detect_scale_phrase_in_region (words : list word) (region : bbox)
  : exc scale_match :=
  let sub_words := filter (fun w => _inside (word_bbox w) region half) words in
  match sub_words with
  | [] => Ret no_scale
  | _ => detect_scale_phrase sub_words
  end.

End Scale.
Export Scale.

(** ** extractor.py *)

Module Extractor.

Definition NBSP : char := 0xA0%N.
Definition THIN_SPACE : char := 0x2009%N.

(** [_GROUP_SEP]: comma, NBSP, thin space. *)
Definition _GROUP_SEP : list set_item :=
  [SChar 44%N; SChar NBSP; SChar THIN_SPACE].

(** The footnote glyphs: asterisk, dagger, double dagger, superscripts. *)
Definition FOOT : list set_item :=
  [SChar 42%N; SChar 0x2020%N; SChar 0x2021%N; SChar 0xB9%N; SChar 0xB2%N;
   SChar 0xB3%N; SRange 0x2070%N 0x2079%N].

(** The body of the named group [num]. *)
Definition NUM_BODY : regex :=
  Alt (Cat (Alt (Cat (Between 1 3 Digit)
                     (Plus (Cat (OneOf _GROUP_SEP) (Times 3 Digit))))
                (Plus Digit))
           (Opt (Cat (Ch ".") (Plus Digit))))
      (Cat (Ch ".") (Plus Digit)).

(** [NUM_RE], compiled without flags.  The named groups are numbered
    prefix = 1, num = 2, suffix = 3, foot = 4. *)
Definition NUM_RE : pattern :=
  mkPattern false
    (Seq [Bol; Star Space;
          Group 1 (Opt (OneOf [SChar 36%N; SChar 40%N]));
          Star Space;
          Group 2 NUM_BODY;
          Star Space;
          Group 3 (Opt (OneOf [SChar 37%N; SChar 41%N]));
          Group 4 (Star (OneOf FOOT));
          Star Space; Eol]).

(** The alternatives of [HEADCOUNT_PAT]. *)
Definition HEADCOUNT_TERMS : regex :=
  Alts [Seq [Str "end"; Star Space; Str "strength"];
        Seq [Str "work"; Star (OneOf [SChar 45%N; SSpace]);
             Str "year"; Opt (Ch "s")];
        Seq [Str "workyear"; Opt (Ch "s")];
        Str "fte";
        Str "headcount";
        Seq [Str "person"; Opt (Group 2 (Ch "n")); Str "el"];
        Seq [Str "items"; Star Space; Str "managed"];
        Str "quantity";
        Str "issues";
        Str "receipts";
        Str "requisitions";
        Str "contracts";
        Seq [Str "unit"; Opt (Ch "s")]].

(** [HEADCOUNT_PAT], compiled with [re.I]. *)
Definition HEADCOUNT_PAT : pattern :=
  mkPattern true (Seq [WordB; Group 1 HEADCOUNT_TERMS; WordB]).

(** [(?:usd|dollars?)]. *)
Definition MONEY_WORDS : regex :=
  Alts [Str "usd"; Seq [Str "dollar"; Opt (Ch "s")]].

(** [\(\s*\$?\s*(?:in\s+)?(?:K|M|B)\s*\)]. *)
Definition MONEY_ABBR : regex :=
  Seq [Ch "("; Star Space; Opt (Ch "$"); Star Space;
       Opt (Cat (Str "in") (Plus Space));
       Alts [Ch "K"; Ch "M"; Ch "B"]; Star Space; Ch ")"].

(** [MONEY_HINT_PAT], compiled with [re.I]. *)
Definition MONEY_HINT_PAT : pattern :=
  mkPattern true
    (Alts [Ch "$"; Seq [WordB; MONEY_WORDS; WordB]; MONEY_ABBR]).

(** The [units] field takes one of three values. *)
Inductive units_t := people | money | unknown.

Definition units_eqb (a b : units_t) : bool :=
  match a, b with
  | people, people | money, money | unknown, unknown => true
  | _, _ => false
  end.

Record NumberHit := mkHit {
  page_num : Z;
  raw_text : str;
  raw_value : float;
  scaled_value : float;
  hit_bbox : bbox;
  units : units_t;
  scale_name : option str;
  scale_phrase : option str;
  scale_bbox : option bbox;
  table_bbox : option bbox
}.

(** Float negation. *)
Definition neg (x : float) : float := SFopp x.

(** [g == s] for a group [g] that may be [None]. *)
Definition opt_eqb (g : option str) (s : str) : bool :=
  match g with
  | Some x => str_eqb x s
  | None => false
  end.

Definition parse_number (token : str) : exc (option float) :=
  let token := strip token in
  match pmatch NUM_RE token with
  | None => Ret None
  | Some m =>
      match group m 2 with
      | None => Raise AttributeError
      | Some g =>
          let num := remove_char THIN_SPACE
                       (remove_char NBSP (remove_char 44%N g)) in
          match py_float num with
          | Raise ValueError => Ret None
          | Raise e => Raise e
          | Ret v =>
              let v := if (opt_eqb (group m 1) (py "(")
                           && opt_eqb (group m 3) (py ")"))%bool
                       then neg v else v in
              if opt_eqb (group m 3) (py "%") then Ret None
              else Ret (Some v)
          end
      end
  end.

(** The text of the words lying at least two units left of [x_left]. *)
Definition left_text (wd : word) (line_words : list word) : str :=
  let x_left := x0 wd in
  join [32%N]
    (map text (filter (fun w => leb (x1 w) (sub x_left two)) line_words)).

Definition found (p : pattern) (s : str) : bool :=
  match search p s with Some _ => true | None => false end.

Definition classify_units_for_word (wd : word) (line_words : list word)
  : units_t :=
  match left_text wd line_words with
  | [] => unknown
  | txt =>
      if found HEADCOUNT_PAT txt then people
      else if found MONEY_HINT_PAT txt then money
      else unknown
  end.

Definition inside_bbox (box region : bbox) (tolerance : float) : bool :=
  let '(bx0, by0, bx1, by1) := box in
  let '(rx0, ry0, rx1, ry1) := region in
  (geb bx0 (sub rx0 tolerance) && leb bx1 (add rx1 tolerance)
   && geb by0 (sub ry0 tolerance) && leb by1 (add ry1 tolerance))%bool.

Definition group_words_by_line (words : list word) (bucket_size : float)
  : exc (list (float * list word)) :=
  lines_loop words bucket_size [].

(** [line_map.get(y_key, default)] where [y_key] is an int and the keys of
    [line_map] are floats. *)
Fixpoint line_map_get (y_key : Z) (line_map : list (float * list word))
  (default : list word) : list word :=
  match line_map with
  | [] => default
  | (k, ws) :: line_map' =>
      if eq_int k y_key then ws else line_map_get y_key line_map' default
  end.

(** A table of the layout extractor: [getattr(t, "bbox", None)]. *)
Record table := mkTable { tbl_bbox : option bbox }.

(** A page of the opened document.  [find_tables] may raise. *)
Record page := mkPage {
  extract_words : float -> float -> list word;
  find_tables : exc (list table)
}.

(** A table region with the scale detected inside it. *)
Definition table_scale : Type := bbox * scale_match.

(** The [for ... in table_scales] loop with its [break]: the scale that
    applies to [box], its factor and the enclosing table. *)
Fixpoint resolve_scale (box : bbox) (table_scales : list table_scale)
  (page_scale : scale_match) (page_factor : float)
  : scale_match * float * option bbox :=
  match table_scales with
  | [] => (page_scale, page_factor, None)
  | (tb_bbox, (tb_name, tb_phrase, tb_sbbox)) :: rest =>
      if inside_bbox box tb_bbox half
      then ((tb_name, tb_phrase, tb_sbbox), scale_factor tb_name, Some tb_bbox)
      else resolve_scale box rest page_scale page_factor
  end.

(** The body of [for word in words]: [None] when the word is skipped. *)
Definition hit_of_word (pn : Z) (line_map : list (float * list word))
  (table_scales : list table_scale) (page_scale : scale_match)
  (page_factor : float) (wd : word) : exc (option NumberHit) :=
  let token := text wd in
  r <- parse_number token ;;
  match r with
  | None => Ret None
  | Some raw_val =>
      let box := (x0 wd, top wd, x1 wd, bottom wd) in
      k <- py_round (div (top wd) ten) ;;
      let y_key := (k * 10)%Z in
      let line_words := line_map_get y_key line_map [wd] in
      let '((s_name, s_phrase, s_bbox), factor, t_bbox) :=
        resolve_scale box table_scales page_scale page_factor in
      let u := classify_units_for_word wd line_words in
      let apply_factor := if negb (units_eqb u people) then factor else one in
      let scaled_val := mul raw_val apply_factor in
      Ret (Some (mkHit pn token raw_val scaled_val box u s_name s_phrase
                       s_bbox t_bbox))
  end.

Fixpoint hits_of_words (f : word -> exc (option NumberHit))
  (words : list word) : exc (list NumberHit) :=
  match words with
  | [] => Ret []
  | w :: words' =>
      r <- f w ;;
      hs <- hits_of_words f words' ;;
      Ret (match r with Some h => h :: hs | None => hs end)
  end.

(** [try: tables = page.find_tables() or [] except Exception: tables = []]. *)
Definition tables_of (pg : page) : list table :=
  match find_tables pg with
  | Ret ts => ts
  | Raise _ => []
  end.

Definition table_regions_of (tables : list table) : list bbox :=
  flat_map (fun t => match tbl_bbox t with Some b => [b] | None => [] end)
           tables.

(** One iteration of [for page_num in range(...)]. *)
Definition process_page (x_tolerance y_tolerance : float) (pn : Z)
  (pg : page) : exc (list NumberHit) :=
  let words := extract_words pg x_tolerance y_tolerance in
  line_map <- group_words_by_line words ten ;;
  let table_regions := table_regions_of (tables_of pg) in
  table_scales <-
    mapM (fun tb => sm <- detect_scale_phrase_in_region words tb ;;
                    Ret (tb, sm)) table_regions ;;
  page_scale <- detect_scale_phrase words ;;
  let page_factor := scale_factor (fst (fst page_scale)) in
  hits_of_words (hit_of_word pn line_map table_scales page_scale page_factor)
                words.

(** [range(a, b + 1)]. *)
Definition page_range (a b : Z) : list Z :=
  map (fun i => (a + Z.of_nat i)%Z) (seq 0 (Z.to_nat (b + 1 - a))).

Fixpoint pages_loop (x_tolerance y_tolerance : float) (pages : list page)
  (nums : list Z) : exc (list NumberHit) :=
  match nums with
  | [] => Ret []
  | pn :: nums' =>
      match nth_error pages (Z.to_nat (pn - 1)) with
      | None => Raise IndexError
      | Some pg =>
          hs <- process_page x_tolerance y_tolerance pn pg ;;
          rest <- pages_loop x_tolerance y_tolerance pages nums' ;;
          Ret (hs ++ rest)
      end
  end.

(** The keyword arguments of [extract_numbers_from_pdf]. *)
Record options := mkOptions {
  start_page : Z;
  end_page : option Z;
  x_tolerance : float;
  y_tolerance : float;
  max_scaled : option float;
  min_scaled : option float;
  max_raw : option float;
  min_raw : option float
}.

Definition default_options : options :=
  mkOptions 1 None one one None None None None.

Definition within_threshold (o : options) (hit : NumberHit) : bool :=
  match max_scaled o with
  | Some b => negb (gtb (scaled_value hit) b)
  | None => true
  end
  && match min_scaled o with
     | Some b => negb (ltb (scaled_value hit) b)
     | None => true
     end
  && match max_raw o with
     | Some b => negb (gtb (raw_value hit) b)
     | None => true
     end
  && match min_raw o with
     | Some b => negb (ltb (raw_value hit) b)
     | None => true
     end.

(** [l.sort(key=lambda h: h.scaled_value, reverse=True)]: stable, and
    with [reverse=True] equal keys keep their original order. *)
Fixpoint insert_desc (x : NumberHit) (l : list NumberHit) : list NumberHit :=
  match l with
  | [] => [x]
  | y :: l' =>
      if ltb (scaled_value x) (scaled_value y)
      then y :: insert_desc x l' else x :: l
  end.

Definition sort_desc (l : list NumberHit) : list NumberHit :=
  fold_right insert_desc [] l.

(** All hits of the scanned pages, before filtering. *)
Definition collect_hits (pages : list page) (o : options)
  : exc (list NumberHit) :=
  let total_pages := Z.of_nat (List.length pages) in
  let start_idx := Z.max 1 (start_page o) in
  let end_idx := match end_page o with
                 | None => total_pages
                 | Some e => Z.min e total_pages
                 end in
  pages_loop (x_tolerance o) (y_tolerance o) pages
             (page_range start_idx end_idx).

(** [extract_numbers_from_pdf] on an opened document. *)
Definition extract_numbers_from_pdf (pages : list page) (o : options)
  : exc (list NumberHit) :=
  hits <- collect_hits pages o ;;
  Ret (sort_desc (filter (within_threshold o) hits)).


End Extractor.
Export Extractor.

(** ** __init__.py: the selection made by [main] *)

Module Main.


End Main.
Export Main.

(** * Specifications *)

(** The matches of an expression, declaratively: [Matches ic r st st'] when
    [r] can take the matcher from [st] to [st']. *)
Inductive Matches (ic : bool) : regex -> state -> state -> Prop :=
| MEmpty st : Matches ic Empty st st
| MLit c ch s st :
    rest st = ch :: s -> lit_match ic c ch = true ->
    Matches ic (Lit c) st (advance ch s st)
| MIn items ch s st :
    rest st = ch :: s -> set_match ic items ch = true ->
    Matches ic (OneOf items) st (advance ch s st)
| MDigit ch s st :
    rest st = ch :: s -> is_decimal ch = true ->
    Matches ic Digit st (advance ch s st)
| MSpace ch s st :
    rest st = ch :: s -> is_space ch = true ->
    Matches ic Space st (advance ch s st)
| MWordB st :
    xorb (word_before st) (word_after st) = true -> Matches ic WordB st st
| MBol st : pos st = O -> Matches ic Bol st st
| MEol st : rest st = [] \/ rest st = [10%N] -> Matches ic Eol st st
| MCat r1 r2 st st1 st2 :
    Matches ic r1 st st1 -> Matches ic r2 st1 st2 ->
    Matches ic (Cat r1 r2) st st2
| MAltL r1 r2 st st' : Matches ic r1 st st' -> Matches ic (Alt r1 r2) st st'
| MAltR r1 r2 st st' : Matches ic r2 st st' -> Matches ic (Alt r1 r2) st st'
| MStarO r st : Matches ic (Star r) st st
| MStarS r st st1 st2 :
    Matches ic r st st1 -> (pos st < pos st1)%nat ->
    Matches ic (Star r) st1 st2 -> Matches ic (Star r) st st2
| MGroup n r st st' :
    Matches ic r st st' ->
    Matches ic (Group n r) st (set_cap n (pos st) (pos st') st').

(** The characters an expression can consume. *)
Fixpoint eats (ic : bool) (r : regex) (c : char) : bool :=
  match r with
  | Lit x => lit_match ic x c
  | OneOf items => set_match ic items c
  | Digit => is_decimal c
  | Space => is_space c
  | Cat r1 r2 | Alt r1 r2 => eats ic r1 c || eats ic r2 c
  | Star r1 | Group _ r1 => eats ic r1 c
  | _ => false
  end.

(** The capture groups of an expression. *)
Fixpoint has_group (n : nat) (r : regex) : bool :=
  match r with
  | Cat r1 r2 | Alt r1 r2 => has_group n r1 || has_group n r2
  | Star r1 => has_group n r1
  | Group i r1 => Nat.eqb i n || has_group n r1
  | _ => false
  end.

(** A matcher state is in step with the subject [whole]. *)
Definition in_step (whole : str) (st : state) : Prop :=
  rest st = skipn (pos st) whole.

(** The number in [wd] is emitted as [h] on page [pn], given the page's
    line map, table scales and page-level scale. *)
Definition emits (pn : Z) (line_map : list (float * list word))
  (table_scales : list table_scale) (page_scale : scale_match)
  (wd : word) (h : NumberHit) : Prop :=
  hit_of_word pn line_map table_scales page_scale
              (scale_factor (fst (fst page_scale))) wd = Ret (Some h).

(** The scale detected in each table region, in the order of the regions. *)
Definition scales_of_regions (words : list word) (regions : list bbox)
  (table_scales : list table_scale) : Prop :=
  Forall2 (fun tb ts => fst ts = tb
                        /\ detect_scale_phrase_in_region words tb = Ret (snd ts))
          regions table_scales.

(** [h] is one of the hits of page [pg], numbered [pn]. *)
Definition hit_on_page (xt yt : float) (pn : Z) (pg : page) (h : NumberHit)
  : Prop :=
  let words := extract_words pg xt yt in
  exists line_map table_scales page_scale wd,
    group_words_by_line words ten = Ret line_map
    /\ scales_of_regions words (table_regions_of (tables_of pg)) table_scales
    /\ detect_scale_phrase words = Ret page_scale
    /\ In wd words
    /\ emits pn line_map table_scales page_scale wd h.

Definition scale_of (h : NumberHit) : scale_match :=
  (scale_name h, scale_phrase h, scale_bbox h).

Definition outside (box : bbox) (ts : table_scale) : Prop :=
  inside_bbox box (fst ts) half = false.

Module Samples.

(** A word of height 8 with integer coordinates. *)
Definition mk_word (t : string) (xa xb tp : Z) : word :=
  mkWord (py t) (of_Z xa) (of_Z tp) (of_Z xb) (of_Z (tp + 8)).

Definition mk_box (a b c d : Z) : bbox := (of_Z a, of_Z b, of_Z c, of_Z d).

(** A header, a plain number and a headcount row. *)
Definition table_words : list word :=
  [ mk_word "(Dollars" 0 40 100; mk_word "in" 45 55 100;
    mk_word "Millions)" 60 100 100;
    mk_word "1,250" 50 80 120;
    mk_word "End" 0 20 140; mk_word "Strength" 25 60 140;
    mk_word "340" 100 120 140 ].

(** One table around everything. *)
Definition table_page : page :=
  mkPage (fun _ _ => table_words) (Ret [mkTable (Some (mk_box 0 90 200 200))]).

(** The same words on a page whose table discovery fails. *)
Definition failing_page : page :=
  mkPage (fun _ _ => table_words) (Raise ValueError).

(** Two overlapping tables: the first holds the header and the number,
    the second only the number. *)
Definition overlap_page : page :=
  mkPage (fun _ _ => table_words)
         (Ret [mkTable (Some (mk_box 0 90 200 200));
               mkTable (Some (mk_box 40 115 100 135))]).

(** A table without a header under a page-level header. *)
Definition headerless_table_page : page :=
  mkPage (fun _ _ => table_words)
         (Ret [mkTable (Some (mk_box 40 115 100 135))]).

Definition hits_of (r : exc (list NumberHit)) : list NumberHit :=
  match r with Ret l => l | Raise _ => [] end.

Definition table_hits : list NumberHit :=
  Eval vm_compute in hits_of (extract_numbers_from_pdf [table_page] default_options).

Definition dummy_hit : NumberHit :=
  mkHit 0 [] zero zero (zero, zero, zero, zero) unknown None None None None.

Definition hit_1250 : NumberHit := Eval vm_compute in nth 0 table_hits dummy_hit.
Definition hit_340 : NumberHit := Eval vm_compute in nth 1 table_hits dummy_hit.

End Samples.
Import Samples.

Definition C10_as_stated : Prop :=
  forall xt yt pn pg hits h tb,
    process_page xt yt pn pg = Ret hits -> In h hits ->
    In tb (table_regions_of (tables_of pg)) ->
    inside_bbox (hit_bbox h) tb half = true ->
    detect_scale_phrase_in_region (extract_words pg xt yt) tb = Ret no_scale ->
    scale_of h = no_scale /\ scaled_value h = raw_value h.

Definition no_tables (pg : page) : page := mkPage (extract_words pg) (Ret []).

Definition headerless_hits : list NumberHit :=
  Eval vm_compute in hits_of (process_page one one 1 headerless_table_page).

Definition hit_headerless : NumberHit :=
  Eval vm_compute in nth 0 headerless_hits dummy_hit.

(** The three words of the line "amounts in millions". *)
Definition amounts_words : list word :=
  [ mk_word "amounts" 0 40 100; mk_word "in" 45 55 100;
    mk_word "millions" 60 100 100 ].

(** The second pattern of the table, [amounts|figures|values in ...]. *)
Definition amounts_pattern : pattern := nth 1 SCALE_PATTERNS (mkPattern false Empty).

(** The bounds of the options, read as inclusive bounds. *)
Definition in_bounds (o : options) (h : NumberHit) : bool :=
  (match min_scaled o with Some b => leb b (scaled_value h) | None => true end
   && match max_scaled o with Some b => leb (scaled_value h) b | None => true end
   && match min_raw o with Some b => leb b (raw_value h) | None => true end
   && match max_raw o with Some b => leb (raw_value h) b | None => true end)%bool.

(** A supplied bound is a number. *)
Definition is_number (b : option float) : Prop :=
  match b with Some x => is_nan x = false | None => True end.

Definition bounds_are_numbers (o : options) : Prop :=
  is_number (min_scaled o) /\ is_number (max_scaled o)
  /\ is_number (min_raw o) /\ is_number (max_raw o).

(** A list of hits ordered by [scaled_value], largest first. *)
Definition descending (l : list NumberHit) : Prop :=
  Sorted (fun a b => leb (scaled_value b) (scaled_value a) = true) l.

(** Options keeping the scaled values between 1000 and 2e9. *)
Definition bounded_options : options :=
  mkOptions 1 None one one (Some (of_Z 2000000000)) (Some thousand) None None.

Definition bounded_hits : list NumberHit :=
  Eval vm_compute in hits_of (extract_numbers_from_pdf [table_page] bounded_options).

(** The text of a visual line. *)
Definition line_text (line_words : list word) : str :=
  fst (_line_text_and_spans line_words).

(** Lines in ascending order of their bucket key. *)
Definition ascending (lines : list (float * list word)) : Prop :=
  Sorted (fun a b => leb (fst a) (fst b) = true) lines.

(** No pattern of the table is found in the line. *)
Definition no_match_in (line : float * list word) : Prop :=
  Forall (fun pat => search pat (line_text (snd line)) = None) SCALE_PATTERNS.

(** Two lines, the lower one first in the word list. *)
Definition two_line_words : list word :=
  [ mk_word "($" 0 40 102; mk_word "in" 45 55 100; mk_word "M)" 60 100 100;
    mk_word "(thousands)" 0 10 50 ].

(** The footnote glyphs of [NUM_RE]. *)
Definition is_foot (c : char) : bool := set_match false FOOT c.

(** The matcher state after eating the characters [g]. *)
Fixpoint eat_all (st : state) (g : str) : state :=
  match g with
  | [] => st
  | c :: g' => eat_all (advance c g' st) g'
  end.

(** The end of [NUM_RE]: footnote marks, white space, end of string. *)
Definition NUM_TAIL : regex :=
  Cat (Group 4 (Star (OneOf FOOT))) (Cat (Star Space) Eol).

(** The token parser accepts the text. *)
Definition accepted (t : str) : bool :=
  match parse_number t with
  | Ret (Some _) => true
  | _ => false
  end.








(** The claim of C7 as stated: the bounds are any floats. *)
Definition C7_as_stated : Prop :=
  forall pages o hits,
    extract_numbers_from_pdf pages o = Ret hits ->
    exists all,
      collect_hits pages o = Ret all
      /\ Permutation hits (filter (in_bounds o) all)
      /\ descending hits.

(** Options whose lower bound on the scaled value is NaN, as
    [--min-scaled nan] gives. *)
Definition nan_options : options :=
  mkOptions 1 None one one None (Some S754_nan) None None.

(** The line map and the hits of the page whose table discovery fails. *)
Definition failing_lines : list (float * list word) :=
  Eval vm_compute in
    match group_words_by_line table_words ten with Ret l => l | Raise _ => [] end.

Definition failing_hits : list NumberHit :=
  Eval vm_compute in hits_of (process_page one one 1 failing_page).

(** The state [st] on a subject that goes on with [g]. *)
Definition with_tail (g : str) (st : state) : state :=
  mkState (prev st) (pos st) (rest st ++ g) (caps st).

(** The expression tests what lies around the position without eating it. *)
Fixpoint looks_ahead (r : regex) : bool :=
  match r with
  | WordB | Eol => true
  | Cat r1 r2 | Alt r1 r2 => looks_ahead r1 || looks_ahead r2
  | Star r1 | Group _ r1 => looks_ahead r1
  | _ => false
  end.

(** [st1] lies at or after [st] in the same subject. *)
Definition reaches (st st1 : state) : Prop :=
  exists mid, rest st = mid ++ rest st1
              /\ pos st1 = (pos st + List.length mid)%nat.

(** Two outcomes of the matcher: both fail, or both succeed in states
    related by [Q]. *)
Definition outcomes (Q : state -> state -> Prop) (o o' : option state) : Prop :=
  match o, o' with
  | Some a, Some b => Q a b
  | None, None => True
  | _, _ => False
  end.

(** The two states hold the same spans, the footnote group apart. *)
Definition same_groups (a b : state) : Prop :=
  forall n, n <> 4%nat -> get_cap n (caps a) = get_cap n (caps b).

(** The string has no white space at its end. *)
Definition no_trailing_space (x : str) : Prop :=
  forall y c, x = y ++ [c] -> is_space c = false.

(** [NUM_RE] up to the suffix group. *)
Definition NUM_FRONT : regex :=
  Cat Bol (Cat (Star Space)
    (Cat (Group 1 (Opt (OneOf [SChar 36%N; SChar 40%N])))
       (Cat (Star Space)
          (Cat (Group 2 NUM_BODY)
             (Cat (Star Space)
                  (Group 3 (Opt (OneOf [SChar 37%N; SChar 41%N])))))))).

(** The character before the end of [a], [pr] when [a] is empty. *)
Fixpoint last_of (pr : option char) (a : str) : option char :=
  match a with
  | [] => pr
  | c :: a' => last_of (Some c) a'
  end.

(** The pattern matches a part of [txt], declaratively: the match starts
    after [a]. *)
Definition occurs (p : pattern) (txt : str) : Prop :=
  exists a b st',
    txt = a ++ b
    /\ Matches (ignorecase p) (expr p)
               (mkState (last_of None a) (List.length a) b []) st'.

(** Repetitions of non-empty strings of [P]. *)
Inductive star_of (P : str -> Prop) : str -> Prop :=
| star_nil : star_of P []
| star_app x y : P x -> x <> [] -> star_of P y -> star_of P (x ++ y).

(** The strings of an expression without anchors. *)
Fixpoint lang (ic : bool) (r : regex) (w : str) : Prop :=
  match r with
  | Empty => w = []
  | Lit c => exists ch, w = [ch] /\ lit_match ic c ch = true
  | OneOf items => exists ch, w = [ch] /\ set_match ic items ch = true
  | Digit => exists ch, w = [ch] /\ is_decimal ch = true
  | Space => exists ch, w = [ch] /\ is_space ch = true
  | WordB | Bol | Eol => False
  | Cat r1 r2 => exists w1 w2, w = w1 ++ w2 /\ lang ic r1 w1 /\ lang ic r2 w2
  | Alt r1 r2 => lang ic r1 w \/ lang ic r2 w
  | Star r1 => star_of (lang ic r1) w
  | Group _ r1 => lang ic r1 w
  end.

(** The expression has no anchor. *)
Fixpoint plain (r : regex) : bool :=
  match r with
  | WordB | Bol | Eol => false
  | Cat r1 r2 | Alt r1 r2 => plain r1 && plain r2
  | Star r1 | Group _ r1 => plain r1
  | _ => true
  end.

(** [w] spells the ASCII word [s], letter case apart. *)
Definition spells (s : string) (w : str) : Prop :=
  Forall2 (fun c ch => lit_match true c ch = true) (py s) w.

(** A run of white space. *)
Definition spaces (w : str) : Prop := Forall (fun c => is_space c = true) w.

(** An optional plural "s". *)
Definition plural (e : str) : Prop := spells "s" e \/ e = [].

(** The headcount vocabulary: what [HEADCOUNT_PAT] takes between two word
    boundaries. *)
Inductive headcount_term : str -> Prop :=
| hc_end_strength a s b :
    spells "end" a -> spaces s -> spells "strength" b ->
    headcount_term (a ++ s ++ b)
| hc_work_years a s b e :
    spells "work" a -> Forall (fun c => c = 45%N \/ is_space c = true) s ->
    spells "year" b -> plural e ->
    headcount_term (a ++ s ++ b ++ e)
| hc_fte w : spells "fte" w -> headcount_term w
| hc_headcount w : spells "headcount" w -> headcount_term w
| hc_personnel a n b :
    spells "person" a -> (spells "n" n \/ n = []) -> spells "el" b ->
    headcount_term (a ++ n ++ b)
| hc_items_managed a s b :
    spells "items" a -> spaces s -> spells "managed" b ->
    headcount_term (a ++ s ++ b)
| hc_quantity w : spells "quantity" w -> headcount_term w
| hc_issues w : spells "issues" w -> headcount_term w
| hc_receipts w : spells "receipts" w -> headcount_term w
| hc_requisitions w : spells "requisitions" w -> headcount_term w
| hc_contracts w : spells "contracts" w -> headcount_term w
| hc_units a e : spells "unit" a -> plural e -> headcount_term (a ++ e).

(** A word character ends [a]; a word character starts [b]. *)
Definition word_at_end (a : str) : bool :=
  match last_of None a with Some c => is_word c | None => false end.

Definition word_at_start (b : str) : bool :=
  match b with c :: _ => is_word c | [] => false end.

(** A word boundary lies between [a] and [b]. *)
Definition edge (a b : str) : Prop :=
  xorb (word_at_end a) (word_at_start b) = true.

(** [txt] holds [w] between two word boundaries, for a [w] of [P]. *)
Definition has_word (P : str -> Prop) (txt : str) : Prop :=
  exists a w b,
    txt = a ++ w ++ b /\ P w /\ edge a (w ++ b) /\ edge (a ++ w) b.

(** The left context holds a term of the headcount vocabulary. *)
Definition has_headcount_term (txt : str) : Prop := has_word headcount_term txt.

(** "usd", "dollar" or "dollars". *)
Inductive money_word : str -> Prop :=
| mw_usd w : spells "usd" w -> money_word w
| mw_dollars w e : spells "dollar" w -> plural e -> money_word (w ++ e).

(** A parenthesized K, M or B, with an optional dollar sign and an
    optional "in" before it. *)
Inductive scale_abbreviation : str -> Prop :=
| abbr_intro s1 d s2 i k s3 :
    spaces s1 -> (d = py "$" \/ d = []) -> spaces s2 ->
    ((exists w s, i = w ++ s /\ spells "in" w /\ spaces s /\ s <> [])
     \/ i = []) ->
    (spells "K" k \/ spells "M" k \/ spells "B" k) -> spaces s3 ->
    scale_abbreviation (py "(" ++ s1 ++ d ++ s2 ++ i ++ k ++ s3 ++ py ")").

(** The money vocabulary of [MONEY_HINT_PAT]: a dollar sign anywhere, a
    money word between two word boundaries, or a parenthesized
    abbreviation anywhere. *)
Inductive money_cue (txt : str) : Prop :=
| mc_dollar_sign a b : txt = a ++ py "$" ++ b -> money_cue txt
| mc_word : has_word money_word txt -> money_cue txt
| mc_abbreviation a w b :
    txt = a ++ w ++ b -> scale_abbreviation w -> money_cue txt.

(** The money vocabulary in the words of the claim. *)

(** The currency symbols (general category Sc), as ranges. *)
Definition currency_symbols : list (N * N) :=
  [(0x24, 0x24); (0xA2, 0xA5); (0x58F, 0x58F); (0x60B, 0x60B);
   (0x7FE, 0x7FF); (0x9F2, 0x9F3); (0x9FB, 0x9FB); (0xAF1, 0xAF1);
   (0xBF9, 0xBF9); (0xE3F, 0xE3F); (0x17DB, 0x17DB); (0x20A0, 0x20C0);
   (0xA838, 0xA838); (0xFDFC, 0xFDFC); (0xFE69, 0xFE69); (0xFF04, 0xFF04);
   (0xFFE0, 0xFFE1); (0xFFE5, 0xFFE6); (0x11FDD, 0x11FE0);
   (0x1E2FF, 0x1E2FF); (0x1ECB0, 0x1ECB0)]%N.

Definition is_currency_symbol (c : char) : bool := in_ranges currency_symbols c.

(** The parenthesized phrases of the scale pattern table: its entries 1,
    4, 6 and 7. *)
Definition parenthesized_scale_cues : list pattern :=
  [ nth 0 SCALE_PATTERNS (mkPattern false Empty);
    nth 3 SCALE_PATTERNS (mkPattern false Empty);
    nth 5 SCALE_PATTERNS (mkPattern false Empty);
    nth 6 SCALE_PATTERNS (mkPattern false Empty) ].

(** The words "dollars" and "usd". *)
Definition dollars_usd : pattern :=
  mkPattern true (Seq [WordB; Alts [Str "dollars"; Str "usd"]; WordB]).

(** The money vocabulary as the claim words it: a currency symbol,
    "dollars" or "usd", or a parenthesized scale cue. *)
Definition claimed_money_vocabulary (txt : str) : bool :=
  existsb is_currency_symbol txt
  || found dollars_usd txt
  || existsb (fun p => found p txt) parenthesized_scale_cues.

(** The claim of C6 with that vocabulary. *)
Definition C6_as_stated : Prop :=
  forall wd line_words,
    let ctx := left_text wd line_words in
    classify_units_for_word wd line_words
    = if found HEADCOUNT_PAT ctx then people
      else if claimed_money_vocabulary ctx then money
      else unknown.

(** A number after the cue "(in millions)", and one after a euro sign. *)
Definition in_millions_line : list word :=
  [ mk_word "(in" 0 20 100; mk_word "millions)" 25 60 100;
    mk_word "5" 100 120 100 ].

Definition euro_line : list word :=
  [ mkWord [0x20AC%N] (of_Z 0) (of_Z 100) (of_Z 20) (of_Z 108);
    mk_word "5" 100 120 100 ].

Definition number_5 : word := mk_word "5" 100 120 100.

(** A headcount row with a dollar sign before the number. *)
Definition strength_line : list word :=
  [ mk_word "End" 0 20 140; mk_word "Strength" 25 60 140;
    mk_word "$" 70 80 140; mk_word "340" 100 120 140 ].

Definition number_340 : word := mk_word "340" 100 120 140.



(** * Properties *)

(** ** Floats *)

Section FloatFacts.

Local Open Scope Z_scope.

Lemma shr_1_m (mrs : shr_record) :
  0 <= shr_m mrs -> shr_m (shr_1 mrs) = Z.div2 (shr_m mrs).
Proof.
  destruct mrs as [m r s]; simpl.
  intros H. destruct m as [|p|p]; [reflexivity | destruct p; reflexivity | lia].
Qed.

Lemma iter_pos_shr_m (p : positive) : forall mrs,
  0 <= shr_m mrs ->
  shr_m (iter_pos shr_1 p mrs) = Z.shiftr (shr_m mrs) (Zpos p).
Proof.
  induction p as [p IH|p IH|]; intros mrs Hm; simpl.
  - assert (H1 : 0 <= shr_m (shr_1 mrs)).
    { rewrite shr_1_m by assumption. apply Z.div2_nonneg; assumption. }
    rewrite IH.
    + rewrite IH by assumption.
      rewrite shr_1_m by assumption.
      rewrite Z.div2_spec.
      rewrite !Z.shiftr_shiftr by lia.
      f_equal; lia.
    + rewrite IH by assumption. apply Z.shiftr_nonneg; assumption.
  - rewrite IH.
    + rewrite IH by assumption.
      rewrite Z.shiftr_shiftr by lia. f_equal; lia.
    + rewrite IH by assumption. apply Z.shiftr_nonneg; assumption.
  - rewrite shr_1_m by assumption. apply Z.div2_spec.
Qed.

Lemma shr_m_nonneg mrs e n :
  0 <= shr_m mrs -> 0 <= shr_m (fst (shr mrs e n)).
Proof.
  intros H. destruct n; simpl; try assumption.
  rewrite iter_pos_shr_m by assumption. apply Z.shiftr_nonneg; assumption.
Qed.

Lemma shr_record_of_loc_m m l : shr_m (shr_record_of_loc m l) = m.
Proof. destruct l as [|[]]; reflexivity. Qed.

Lemma shr_fexp_nonneg m e l :
  0 <= m -> 0 <= shr_m (fst (shr_fexp prec emax m e l)).
Proof.
  intros H. unfold shr_fexp. apply shr_m_nonneg.
  rewrite shr_record_of_loc_m; assumption.
Qed.

Lemma round_nearest_even_bounds m l :
  m <= round_nearest_even m l <= m + 1.
Proof.
  destruct l as [|[]]; simpl; try lia.
  destruct (Z.even m); lia.
Qed.

Lemma binary_round_aux_not_nan s mx ex lx :
  0 <= mx -> binary_round_aux prec emax s mx ex lx <> S754_nan.
Proof.
  intros H. unfold binary_round_aux.
  pose proof (shr_fexp_nonneg ex lx H) as H1.
  destruct (shr_fexp prec emax mx ex lx) as [mrs' e'] eqn:E1. simpl in H1.
  set (m2 := round_nearest_even (shr_m mrs') (loc_of_shr_record mrs')).
  assert (H2 : 0 <= m2).
  { pose proof (round_nearest_even_bounds (shr_m mrs') (loc_of_shr_record mrs')).
    unfold m2; lia. }
  pose proof (shr_fexp_nonneg e' loc_Exact H2) as H3.
  destruct (shr_fexp prec emax m2 e' loc_Exact) as [mrs'' e''] eqn:E2.
  simpl in H3.
  destruct (shr_m mrs'') as [|p|p]; try discriminate; try lia.
  destruct (e'' <=? emax - prec); discriminate.
Qed.


Lemma fexp_eq z : fexp prec emax z = Z.max (z - 53) (-1074).
Proof. reflexivity. Qed.

Lemma digits2_pos_size p : digits2_pos p = Pos.size p.
Proof. induction p; simpl; congruence. Qed.

Lemma Zdigits2_log2 m : 0 < m -> Zdigits2 m = Z.log2 m + 1.
Proof.
  destruct m as [|p|p]; try lia. intros _. simpl.
  rewrite digits2_pos_size. destruct p; simpl; lia.
Qed.

Lemma Zdigits2_pos m : 0 < m -> 1 <= Zdigits2 m.
Proof.
  intros H. rewrite Zdigits2_log2 by assumption.
  pose proof (Z.log2_nonneg m). lia.
Qed.

Lemma Zdigits2_shiftr m n :
  0 < m -> 0 <= n -> Zdigits2 (Z.shiftr m n) = Z.max 0 (Zdigits2 m - n).
Proof.
  intros Hm Hn. rewrite (Zdigits2_log2 Hm).
  destruct (Z.le_gt_cases n (Z.log2 m)) as [Hle|Hgt].
  - assert (H0 : 0 < Z.shiftr m n).
    { assert (0 <= Z.shiftr m n) by (apply Z.shiftr_nonneg; lia).
      destruct (Z.eq_dec (Z.shiftr m n) 0) as [E|E]; [|lia].
      apply Z.shiftr_eq_0_iff in E. lia. }
    rewrite (Zdigits2_log2 H0). rewrite Z.log2_shiftr by assumption. lia.
  - rewrite Z.shiftr_eq_0 by lia. simpl. lia.
Qed.

Lemma Zdigits2_shiftl m n :
  0 < m -> 0 <= n -> Zdigits2 (Z.shiftl m n) = Zdigits2 m + n.
Proof.
  intros Hm Hn.
  assert (H0 : 0 < Z.shiftl m n).
  { rewrite Z.shiftl_mul_pow2 by assumption.
    apply Z.mul_pos_pos; [assumption | apply Z.pow_pos_nonneg; lia]. }
  rewrite (Zdigits2_log2 H0), (Zdigits2_log2 Hm).
  rewrite Z.log2_shiftl by assumption. lia.
Qed.

Lemma Zdigits2_succ m :
  0 <= m -> Zdigits2 m <= Zdigits2 (m + 1) <= Zdigits2 m + 1.
Proof.
  intros Hm. destruct (Z.eq_dec m 0) as [->|Hne]; [simpl; lia|].
  rewrite !Zdigits2_log2 by lia.
  pose proof (Z.log2_succ_or m) as [H|H]; unfold Z.succ in H; lia.
Qed.

Lemma Zdigits2_div a b :
  0 < a -> 0 < b -> Zdigits2 a - Zdigits2 b <= Zdigits2 (a / b).
Proof.
  intros Ha Hb. rewrite (Zdigits2_log2 Ha), (Zdigits2_log2 Hb).
  pose proof (Z.log2_spec a Ha) as [Ha1 _].
  pose proof (Z.log2_spec b Hb) as [_ Hb2].
  pose proof (Z.log2_nonneg a). pose proof (Z.log2_nonneg b).
  destruct (Z.le_gt_cases (Z.log2 a) (Z.log2 b)) as [Hle|Hgt].
  - assert (0 <= a / b) by (apply Z.div_pos; lia).
    destruct (Z.eq_dec (a / b) 0) as [->|Hne]; [simpl; lia|].
    pose proof (@Zdigits2_pos (a / b)). lia.
  - set (k := Z.log2 a - Z.log2 b - 1).
    assert (Hk : 0 <= k) by (unfold k; lia).
    assert (Hq : 2 ^ k <= a / b).
    { apply Z.div_le_lower_bound; [assumption|].
      apply Z.le_trans with (2 ^ Z.log2 a); [|assumption].
      replace (Z.log2 a) with (Z.succ (Z.log2 b) + k) by (unfold k; lia).
      rewrite Z.pow_add_r by lia.
      assert (0 < 2 ^ k) by (apply Z.pow_pos_nonneg; lia).
      nia. }
    assert (Hq0 : 0 < a / b).
    { assert (0 < 2 ^ k) by (apply Z.pow_pos_nonneg; lia). lia. }
    rewrite (Zdigits2_log2 Hq0).
    pose proof (Z.log2_le_mono _ _ Hq) as Hl.
    rewrite Z.log2_pow2 in Hl by assumption. unfold k in Hl. lia.
Qed.

Lemma shr_spec mrs e n :
  0 <= shr_m mrs ->
  shr_m (fst (shr mrs e n)) = Z.shiftr (shr_m mrs) (Z.max 0 n)
  /\ snd (shr mrs e n) = e + Z.max 0 n.
Proof.
  intros H. destruct n as [|p|p]; simpl.
  - split; [reflexivity | lia].
  - split; [apply iter_pos_shr_m; assumption | lia].
  - split; [reflexivity | lia].
Qed.

Lemma shr_fexp_spec m e l :
  0 <= m ->
  let n := Z.max 0 (fexp prec emax (Zdigits2 m + e) - e) in
  shr_m (fst (shr_fexp prec emax m e l)) = Z.shiftr m n
  /\ snd (shr_fexp prec emax m e l) = e + n.
Proof.
  intros H n. unfold shr_fexp.
  pose proof (@shr_spec (shr_record_of_loc m l) e
                (fexp prec emax (Zdigits2 m + e) - e)) as Hs.
  rewrite shr_record_of_loc_m in Hs. apply Hs; assumption.
Qed.

(** Rounding a non-negative mantissa whose exponent is not above the
    canonical one yields a valid float. *)
Lemma binary_round_aux_valid s mx ex lx :
  0 <= mx -> ex <= fexp prec emax (Zdigits2 mx + ex) ->
  valid_binary prec emax (binary_round_aux prec emax s mx ex lx) = true.
Proof.
  intros Hmx Hex. unfold binary_round_aux.
  pose proof (@shr_fexp_spec mx ex lx Hmx) as [Hm1 He1]. cbv zeta in Hm1, He1.
  destruct (shr_fexp prec emax mx ex lx) as [mrs' e'] eqn:E1.
  simpl in Hm1, He1.
  set (m1 := shr_m mrs') in *.
  set (m2 := round_nearest_even m1 (loc_of_shr_record mrs')).
  pose proof (round_nearest_even_bounds m1 (loc_of_shr_record mrs')) as Hr.
  fold m2 in Hr.
  assert (Hm1nn : 0 <= m1) by (rewrite Hm1; apply Z.shiftr_nonneg; assumption).
  assert (Hm2 : 0 <= m2) by lia.
  pose proof (@shr_fexp_spec m2 e' loc_Exact Hm2) as [Hm3 He3].
  cbv zeta in Hm3, He3.
  destruct (shr_fexp prec emax m2 e' loc_Exact) as [mrs'' e''] eqn:E2.
  simpl in Hm3, He3.
  destruct (shr_m mrs'') as [|m3|m3] eqn:E3; try reflexivity.
  destruct (e'' <=? emax - prec) eqn:Ele; [|reflexivity].
  simpl. unfold bounded. rewrite Ele, andb_true_r.
  unfold canonical_mantissa. apply Z.eqb_eq.
  change (Z.pos (digits2_pos m3)) with (Zdigits2 (Z.pos m3)).
  rewrite Hm3.
  (* digits of m1 *)
  assert (Hd1 : Zdigits2 m1 = Z.max 0 (Zdigits2 mx - Z.max 0 (fexp prec emax (Zdigits2 mx + ex) - ex))).
  { destruct (Z.eq_dec mx 0) as [->|Hne].
    - rewrite Hm1. rewrite Z.shiftr_0_l. simpl. lia.
    - rewrite Hm1. apply Zdigits2_shiftr; lia. }
  pose proof (@Zdigits2_succ m1 Hm1nn) as Hsucc.
  assert (Hd2 : Zdigits2 m1 <= Zdigits2 m2 <= Zdigits2 m1 + 1).
  { destruct (Z.eq_dec m2 m1) as [->|Hne]; [lia|].
    replace m2 with (m1 + 1) by lia. assumption. }
  assert (Hm2pos : 0 < m2).
  { destruct (Z.eq_dec m2 0) as [E0|E0]; [|lia].
    rewrite E0 in Hm3. rewrite Z.shiftr_0_l in Hm3. discriminate. }
  pose proof (@Zdigits2_pos m2 Hm2pos) as Hd2pos.
  assert (Hn3 : 0 <= Z.max 0 (fexp prec emax (Zdigits2 m2 + e') - e')) by lia.
  rewrite (Zdigits2_shiftr Hm2pos Hn3).
  pose proof (@Zdigits2_pos mx) as Hdx.
  assert (Hdx0 : mx = 0 -> Zdigits2 mx = 0) by (intros ->; reflexivity).
  rewrite !fexp_eq in *.
  lia.
Qed.


Lemma div_finite_valid sx mx ex sy my ey :
  valid_binary prec emax
    (div (S754_finite sx mx ex) (S754_finite sy my ey)) = true.
Proof.
  unfold div, SFdiv, SFdiv_core_binary.
  set (d1 := Zdigits2 (Z.pos mx)). set (d2 := Zdigits2 (Z.pos my)).
  set (e' := Z.min (fexp prec emax (d1 + ex - (d2 + ey))) (ex - ey)).
  set (sh := ex - ey - e').
  assert (Hsh : 0 <= sh) by (unfold sh, e'; lia).
  set (m' := match sh with
             | 0 => Z.pos mx
             | Z.pos _ => Z.shiftl (Z.pos mx) sh
             | Z.neg _ => 0
             end).
  assert (Hm' : m' = Z.shiftl (Z.pos mx) sh).
  { unfold m'. destruct sh; try reflexivity. lia. }
  assert (Hm'pos : 0 < m').
  { rewrite Hm', Z.shiftl_mul_pow2 by assumption.
    apply Z.mul_pos_pos; [lia | apply Z.pow_pos_nonneg; lia]. }
  assert (Hdm' : Zdigits2 m' = d1 + sh).
  { rewrite Hm'. apply Zdigits2_shiftl; [lia | assumption]. }
  pose proof (@Zdigits2_div m' (Z.pos my) Hm'pos eq_refl) as Hdq.
  assert (Hq : 0 <= m' / Z.pos my) by (apply Z.div_pos; lia).
  unfold Z.div in Hdq, Hq.
  destruct (Z.div_eucl m' (Z.pos my)) as [q r]. simpl in Hdq, Hq.
  apply binary_round_aux_valid; [assumption|].
  change (Z.pos (digits2_pos my)) with d2 in Hdq. rewrite Hdm' in Hdq.
  unfold sh in Hdq.
  assert (He' : e' <= fexp prec emax (d1 + ex - (d2 + ey))) by (unfold e'; lia).
  rewrite fexp_eq in *. clearbody e' d1 d2. lia.
Qed.

Lemma div_finite_not_nan sx mx ex sy my ey :
  div (S754_finite sx mx ex) (S754_finite sy my ey) <> S754_nan.
Proof.
  unfold div, SFdiv, SFdiv_core_binary.
  match goal with
  | |- context [Z.div_eucl ?a ?b] =>
      assert (Hq : 0 <= a / b);
      [ apply Z.div_pos; [|lia] | unfold Z.div in Hq;
        destruct (Z.div_eucl a b) as [q r]; simpl in Hq ]
  end.
  - destruct (ex - ey - _) eqn:E; try lia.
    apply Z.shiftl_nonneg. lia.
  - apply binary_round_aux_not_nan; assumption.
Qed.

Lemma of_decimal_valid neg n e10 :
  valid_binary prec emax (of_decimal neg n e10) = true.
Proof.
  unfold of_decimal. destruct n; [reflexivity | apply div_finite_valid].
Qed.

Lemma of_decimal_not_nan neg n e10 : of_decimal neg n e10 <> S754_nan.
Proof.
  unfold of_decimal. destruct n; [discriminate | apply div_finite_not_nan].
Qed.

(** Every float that [float(s)] returns is in range and canonical. *)
Lemma py_float_valid s x :
  py_float s = Ret x -> valid_binary prec emax x = true.
Proof.
  unfold py_float.
  destruct (match strip s with
            | 43%N :: t => (false, t)
            | 45%N :: t => (true, t)
            | _ => (false, strip s)
            end) as [neg s1].
  destruct (_ || _)%bool; [intros [= <-]; reflexivity|].
  destruct (str_eqb _ _); [intros [= <-]; reflexivity|].
  destruct (scan_digits 0 0 s1) as [[ip ni] s2].
  destruct (match s2 with
            | 46%N :: t => scan_digits ip 0 t
            | _ => (ip, 0%nat, s2)
            end) as [[fp nf] s3].
  destruct (ni + nf)%nat; [discriminate|].
  destruct (scan_exponent s3); [|discriminate].
  intros [= <-]. apply of_decimal_valid.
Qed.

(** [float(s)] raises nothing but [ValueError]. *)
Lemma py_float_raises s e : py_float s = Raise e -> e = ValueError.
Proof.
  unfold py_float.
  destruct (match strip s with
            | 43%N :: t => (false, t)
            | 45%N :: t => (true, t)
            | _ => (false, strip s)
            end) as [neg s1].
  destruct (_ || _)%bool; [discriminate|].
  destruct (str_eqb _ _); [discriminate|].
  destruct (scan_digits 0 0 s1) as [[ip ni] s2].
  destruct (match s2 with
            | 46%N :: t => scan_digits ip 0 t
            | _ => (ip, 0%nat, s2)
            end) as [[fp nf] s3].
  destruct (ni + nf)%nat; [intros [= <-]; reflexivity|].
  destruct (scan_exponent s3); [discriminate | intros [= <-]; reflexivity].
Qed.

Lemma iter_shr_1_zeros (k : nat) : forall (m : positive),
  Nat.iter k shr_1 (Build_shr_record (Z.pos (Nat.iter k xO m)) false false)
  = Build_shr_record (Z.pos m) false false.
Proof.
  induction k as [|k IH]; intros m; [reflexivity|].
  rewrite Nat.iter_succ_r. simpl. apply IH.
Qed.

Lemma iter_pos_nat {A} (f : A -> A) (p : positive) : forall x,
  iter_pos f p x = Nat.iter (Pos.to_nat p) f x.
Proof.
  induction p as [p IH|p IH|]; intros x.
  - change (iter_pos f p~1 x) with (iter_pos f p (iter_pos f p (f x))).
    rewrite !IH. rewrite Pos2Nat.inj_xI.
    rewrite <- Nat.iter_succ_r, <- Nat.iter_add. f_equal. lia.
  - change (iter_pos f p~0 x) with (iter_pos f p (iter_pos f p x)).
    rewrite !IH. rewrite Pos2Nat.inj_xO.
    rewrite <- Nat.iter_add. f_equal. lia.
  - reflexivity.
Qed.

(** Multiplying a valid float by 1.0 changes nothing. *)
Lemma mul_one_r x : valid_binary prec emax x = true -> mul x one = x.
Proof.
  destruct x as [s|s|s|s m e]; simpl; intros Hv;
    try (destruct s; reflexivity); try reflexivity.
  unfold bounded, canonical_mantissa in Hv.
  apply andb_true_iff in Hv as [Hc He]. apply Z.eqb_eq in Hc.
  unfold mul, one, SFmul, binary_round_aux.
  replace (m * 4503599627370496)%positive
    with (Nat.iter 52 xO m) by (rewrite Pos.mul_comm; reflexivity).
  assert (HD : Zdigits2 (Z.pos (Nat.iter 52 xO m)) = Z.pos (digits2_pos m) + 52).
  { change (Z.pos (Nat.iter 52 xO m)) with (Z.shiftl (Z.pos m) 52).
    rewrite Zdigits2_shiftl by lia. reflexivity. }
  assert (H1 : shr_fexp prec emax (Z.pos (Nat.iter 52 xO m)) (e + -52) loc_Exact
               = (Build_shr_record (Z.pos m) false false, e)).
  { unfold shr_fexp. rewrite HD.
    replace (Z.pos (digits2_pos m) + 52 + (e + -52))
      with (Z.pos (digits2_pos m) + e) by lia.
    rewrite Hc. replace (e - (e + -52)) with 52 by lia.
    unfold shr. rewrite iter_pos_nat.
    change (Pos.to_nat 52) with 52%nat.
    change (shr_record_of_loc (Z.pos (Nat.iter 52 xO m)) loc_Exact)
      with (Build_shr_record (Z.pos (Nat.iter 52 xO m)) false false).
    rewrite iter_shr_1_zeros. f_equal. lia. }
  rewrite H1.
  cbv [shr_m loc_of_shr_record round_nearest_even].
  assert (H2 : shr_fexp prec emax (Z.pos m) e loc_Exact
               = (Build_shr_record (Z.pos m) false false, e)).
  { unfold shr_fexp. change (Zdigits2 (Z.pos m)) with (Z.pos (digits2_pos m)).
    rewrite Hc, Z.sub_diag. reflexivity. }
  rewrite H2. cbv [shr_m]. rewrite He. destruct s; reflexivity.
Qed.

Lemma mul_finite_not_nan x sy my ey :
  x <> S754_nan -> mul x (S754_finite sy my ey) <> S754_nan.
Proof.
  destruct x as [s|s|s|s m e]; simpl; intros Hx; try discriminate;
    try congruence.
  apply binary_round_aux_not_nan. lia.
Qed.

Lemma SFcompare_antisym a b :
  SFcompare b a = option_map CompOpp (SFcompare a b).
Proof.
  destruct a as [s1| s1 | | s1 m1 e1], b as [s2|s2| |s2 m2 e2]; simpl;
    try reflexivity; try (destruct s1; reflexivity);
    try (destruct s2; reflexivity);
    try (destruct s1, s2; reflexivity).
  rewrite (Z.compare_antisym e1 e2).
  change (Pos.compare_cont Eq m2 m1) with (Pos.compare m2 m1).
  change (Pos.compare_cont Eq m1 m2) with (Pos.compare m1 m2).
  rewrite (Pos.compare_antisym m1 m2).
  destruct s1, s2; try reflexivity;
    destruct (e1 ?= e2); simpl; try reflexivity;
    destruct (m1 ?= m2)%positive; reflexivity.
Qed.

Lemma SFcompare_some a b :
  is_nan a = false -> is_nan b = false -> exists c, SFcompare a b = Some c.
Proof.
  destruct a, b; simpl; try discriminate; intros _ _; eexists; reflexivity.
Qed.

(** On numbers, [not (a < b)] is [b <= a]. *)
Lemma negb_ltb a b :
  is_nan a = false -> is_nan b = false -> negb (ltb a b) = leb b a.
Proof.
  intros Ha Hb. unfold ltb, leb, SFltb, SFleb.
  rewrite (SFcompare_antisym a b).
  destruct (SFcompare_some a b Ha Hb) as [c ->]. destruct c; reflexivity.
Qed.

End FloatFacts.

(** ** The matcher *)

Section RegexFacts.

Variable ic : bool.

Lemma eat_sound p st k res :
  eat p st k = Some res ->
  exists ch s, rest st = ch :: s /\ p ch = true /\ k (advance ch s st) = Some res.
Proof.
  unfold eat. destruct (rest st) as [|ch s]; [discriminate|].
  destruct (p ch) eqn:E; [|discriminate]. intros H. exists ch, s. auto.
Qed.

(** Soundness of the matcher: a successful run decomposes into a match of
    the expression followed by a successful continuation. *)
Lemma run_sound r : forall st k res,
  run ic r st k = Some res ->
  exists st', Matches ic r st st' /\ k st' = Some res.
Proof.
  induction r as [ | c | items | | | | | | r1 IH1 r2 IH2 | r1 IH1 r2 IH2
                 | r1 IH1 | n r1 IH1 ]; intros st k res H; cbn [run] in H.
  - exists st; split; [constructor | assumption].
  - apply eat_sound in H as (ch & s & Hr & Hp & Hk).
    exists (advance ch s st); split; [constructor; assumption | assumption].
  - apply eat_sound in H as (ch & s & Hr & Hp & Hk).
    exists (advance ch s st); split; [constructor; assumption | assumption].
  - apply eat_sound in H as (ch & s & Hr & Hp & Hk).
    exists (advance ch s st); split; [constructor; assumption | assumption].
  - apply eat_sound in H as (ch & s & Hr & Hp & Hk).
    exists (advance ch s st); split; [constructor; assumption | assumption].
  - revert H. destruct (xorb _ _) eqn:E; [|discriminate]. intros H.
    exists st; split; [constructor; assumption | assumption].
  - revert H. destruct (pos st) eqn:E; [|discriminate]. intros H.
    exists st; split; [constructor; assumption | assumption].
  - revert H. destruct (rest st) as [|c [|c' s]] eqn:E; intros H.
    + exists st; split; [constructor; auto | assumption].
    + destruct c as [|p]; [discriminate|].
      destruct p as [p|p|]; try discriminate.
      destruct p as [p|p|]; try discriminate.
      destruct p as [p|p|]; try discriminate.
      destruct p as [p|p|]; try discriminate.
      exists st; split; [constructor; auto | assumption].
    + destruct c as [|p]; [discriminate|].
      destruct p as [p|p|]; try discriminate.
      destruct p as [p|p|]; try discriminate.
      destruct p as [p|p|]; try discriminate.
      destruct p as [p|p|]; discriminate.
  - apply IH1 in H as (st1 & M1 & H). apply IH2 in H as (st2 & M2 & H).
    exists st2; split; [econstructor; eassumption | assumption].
  - destruct (run ic r1 st k) eqn:E.
    + injection H as ->. apply IH1 in E as (st' & M & Hk).
      exists st'; split; [apply MAltL; assumption | assumption].
    + apply IH2 in H as (st' & M & Hk).
      exists st'; split; [apply MAltR; assumption | assumption].
  - revert H. generalize (S (List.length (rest st))) as fuel. intros fuel.
    revert st. induction fuel as [|fuel IHf]; intros st H; simpl in H.
    + exists st; split; [apply MStarO | assumption].
    + match type of H with
      | match ?X with _ => _ end = _ => destruct X eqn:E
      end.
      * injection H as ->. apply IH1 in E as (st1 & M1 & Hk).
        destruct (Nat.ltb (pos st) (pos st1)) eqn:Elt; [|discriminate].
        apply IHf in Hk as (st2 & M2 & Hk).
        exists st2; split; [|assumption].
        eapply MStarS; [eassumption | apply Nat.ltb_lt; assumption | assumption].
      * exists st; split; [apply MStarO | assumption].
  - apply IH1 in H as (st' & M & Hk).
    exists (set_cap n (pos st) (pos st') st'); split;
      [constructor; assumption | assumption].
Qed.

(** A match only moves forward, over characters the expression can eat. *)
Lemma Matches_consumed r st st' :
  Matches ic r st st' ->
  exists mid, rest st = mid ++ rest st'
              /\ pos st' = (pos st + List.length mid)%nat
              /\ Forall (fun c => eats ic r c = true) mid.
Proof.
  induction 1 as [ st | c ch s st Hr Hp | items ch s st Hr Hp
                 | ch s st Hr Hp | ch s st Hr Hp | st Hx | st Hp | st He
                 | r1 r2 st st1 st2 _ IH1 _ IH2 | r1 r2 st st' _ IH
                 | r1 r2 st st' _ IH | r st | r st st1 st2 _ IH1 Hlt _ IH2
                 | n r st st' _ IH ];
    try (exists []; simpl; split; [reflexivity | split; [lia | constructor]]);
    try (exists [ch]; simpl; split; [assumption | split;
           [lia | constructor; [assumption | constructor]]]).
  - destruct IH1 as (m1 & E1 & P1 & F1), IH2 as (m2 & E2 & P2 & F2).
    exists (m1 ++ m2). rewrite <- app_assoc, <- E2, <- E1, length_app.
    split; [reflexivity | split; [lia|]].
    apply Forall_app; split; eapply Forall_impl; try eassumption;
      simpl; intros a Ha; rewrite Ha; auto using orb_true_r.
  - destruct IH as (m & E & P & F). exists m; repeat split; try assumption.
    eapply Forall_impl; try eassumption. simpl; intros a Ha; rewrite Ha; auto.
  - destruct IH as (m & E & P & F). exists m; repeat split; try assumption.
    eapply Forall_impl; try eassumption.
    simpl; intros a Ha; rewrite Ha; auto using orb_true_r.
  - destruct IH1 as (m1 & E1 & P1 & F1), IH2 as (m2 & E2 & P2 & F2).
    exists (m1 ++ m2). rewrite <- app_assoc, <- E2, <- E1, length_app.
    split; [reflexivity | split; [lia|]].
    apply Forall_app; split; assumption.
  - destruct IH as (m & E & P & F). exists m; repeat split; assumption.
Qed.

(** Groups that do not occur in the expression keep their spans. *)
Lemma Matches_caps_other n r st st' :
  Matches ic r st st' -> has_group n r = false ->
  get_cap n (caps st') = get_cap n (caps st).
Proof.
  induction 1; simpl; intros Hg; try reflexivity.
  - apply orb_false_iff in Hg as [H1 H2].
    rewrite IHMatches2, IHMatches1 by assumption. reflexivity.
  - apply orb_false_iff in Hg as [H1 H2]. auto.
  - apply orb_false_iff in Hg as [H1 H2]. auto.
  - rewrite IHMatches2, IHMatches1 by assumption. reflexivity.
  - apply orb_false_iff in Hg as [H1 H2]. rewrite H1. auto.
Qed.

End RegexFacts.

Section RegexSpans.

Variable ic : bool.

Lemma Matches_in_step whole r st st' :
  Matches ic r st st' -> in_step whole st -> in_step whole st'.
Proof.
  intros M Hs. destruct (Matches_consumed M) as (mid & E & P & _).
  unfold in_step in *. rewrite P, Nat.add_comm, <- skipn_skipn, <- Hs, E.
  rewrite skipn_app, skipn_all, Nat.sub_diag. reflexivity.
Qed.

(** The text between the two ends of a match is made of characters the
    expression can eat. *)
Lemma Matches_slice whole r st st' :
  Matches ic r st st' -> in_step whole st ->
  Forall (fun c => eats ic r c = true) (slice whole (pos st) (pos st')).
Proof.
  intros M Hs. destruct (Matches_consumed M) as (mid & E & P & F).
  unfold slice. rewrite <- Hs, E, P.
  replace (pos st + List.length mid - pos st)%nat with (List.length mid) by lia.
  rewrite firstn_app, firstn_all, Nat.sub_diag, app_nil_r. assumption.
Qed.

End RegexSpans.

Section ParseNumberFacts.

(** When [NUM_RE] matches, the group [num] took part, and its text is made
    of characters its body can eat. *)
Lemma NUM_RE_num_group tok m :
  pmatch NUM_RE tok = Some m ->
  exists g, group m 2 = Some g
            /\ Forall (fun c => eats false NUM_BODY c = true) g.
Proof.
  unfold pmatch, match_at.
  destruct (run _ _ _ _) as [st|] eqn:R; [|discriminate].
  intros [= <-]. apply run_sound in R as (st' & M & [= ->]).
  unfold group; simpl m_caps; simpl m_string.
  change (expr NUM_RE) with
    (Cat Bol (Cat (Star Space)
       (Cat (Group 1 (Opt (OneOf [SChar 36%N; SChar 40%N])))
          (Cat (Star Space)
             (Cat (Group 2 NUM_BODY)
                (Seq [Star Space; Group 3 (Opt (OneOf [SChar 37%N; SChar 41%N]));
                      Group 4 (Star (OneOf FOOT)); Star Space; Eol])))))) in M.
  set (st0 := mkState None 0 tok []) in M.
  assert (S0 : in_step tok st0) by reflexivity.
  inversion M as [ | | | | | | | | ? ? ? s1 ? M1 M' | | | | | ]; subst; clear M.
  pose proof (Matches_in_step M1 S0) as S1.
  inversion M' as [ | | | | | | | | ? ? ? s2 ? M2 M'' | | | | | ]; subst; clear M'.
  pose proof (Matches_in_step M2 S1) as S2.
  inversion M'' as [ | | | | | | | | ? ? ? s3 ? M3 M' | | | | | ]; subst; clear M''.
  pose proof (Matches_in_step M3 S2) as S3.
  inversion M' as [ | | | | | | | | ? ? ? s4 ? M4 M'' | | | | | ]; subst; clear M'.
  pose proof (Matches_in_step M4 S3) as S4.
  inversion M'' as [ | | | | | | | | ? ? ? s5 ? M5 M' | | | | | ]; subst; clear M''.
  inversion M5 as [ | | | | | | | | | | | | | ? ? ? s5' Mb ]; subst; clear M5.
  rewrite (Matches_caps_other 2 M' eq_refl). simpl.
  eexists; split; [reflexivity|].
  apply (Matches_slice Mb S4).
Qed.

Lemma In_lstrip c s : In c (lstrip s) -> In c s.
Proof.
  induction s as [|a s IH]; simpl; [auto|].
  destruct (is_space a); [auto | simpl; auto].
Qed.

Lemma In_strip c s : In c (strip s) -> In c s.
Proof.
  unfold strip, rstrip. intros H.
  apply <- in_rev in H. apply In_lstrip in H.
  apply <- in_rev in H. apply In_lstrip in H. assumption.
Qed.

Lemma str_eqb_eq a b : str_eqb a b = true -> a = b.
Proof. unfold str_eqb. destruct (list_eq_dec N.eq_dec a b); congruence. Qed.

Lemma ascii_lower_n c : ascii_lower c = 110%N -> c = 110%N \/ c = 78%N.
Proof.
  unfold ascii_lower, is_ascii_upper, in_range.
  destruct (_ && _)%bool; lia.
Qed.

(** [float(s)] is NaN only for a string spelling it. *)
Lemma py_float_nan s :
  py_float s = Ret S754_nan -> exists c, In c s /\ (c = 110%N \/ c = 78%N).
Proof.
  unfold py_float.
  destruct (match strip s with
            | 43%N :: t => (false, t)
            | 45%N :: t => (true, t)
            | _ => (false, strip s)
            end) as [neg s1] eqn:Es.
  assert (Hs1 : forall c, In c s1 -> In c s).
  { intros c Hc. apply In_strip.
    destruct (strip s) as [|a t]; [injection Es as _ <-; assumption|].
    destruct a as [|p]; [injection Es as _ <-; assumption|].
    repeat (destruct p as [p|p|];
            try (injection Es as _ <-; first [assumption | right; assumption])). }
  destruct (_ || _)%bool; [discriminate|].
  destruct (str_eqb _ _) eqn:En.
  - intros _. apply str_eqb_eq in En.
    destruct s1 as [|c1 s1]; [discriminate|].
    injection En as E1 _. apply ascii_lower_n in E1.
    exists c1; split; [apply Hs1; left; reflexivity | assumption].
  - destruct (scan_digits 0 0 s1) as [[ip ni] s2].
    destruct (match s2 with
              | 46%N :: t => scan_digits ip 0 t
              | _ => (ip, 0%nat, s2)
              end) as [[fp nf] s3].
    destruct (ni + nf)%nat; [discriminate|].
    destruct (scan_exponent s3); [|discriminate].
    intros [= H]. exfalso. exact (of_decimal_not_nan _ _ _ H).
Qed.

Lemma In_remove_char x c s : In c (remove_char x s) -> In c s.
Proof. unfold remove_char. intros H. apply filter_In in H. tauto. Qed.

Lemma neg_valid v :
  valid_binary prec emax v = true -> valid_binary prec emax (neg v) = true.
Proof. destruct v; simpl; auto. Qed.

Lemma neg_not_nan v : v <> S754_nan -> neg v <> S754_nan.
Proof. destruct v; simpl; congruence. Qed.

(** What [parse_number] returns is the conversion of the digits, negated
    when parenthesised. *)
Lemma parse_number_value tok v :
  parse_number tok = Ret (Some v) ->
  exists g v0,
    Forall (fun c => eats false NUM_BODY c = true) g
    /\ py_float (remove_char THIN_SPACE (remove_char NBSP (remove_char 44%N g)))
       = Ret v0
    /\ (v = v0 \/ v = neg v0).
Proof.
  unfold parse_number.
  destruct (pmatch NUM_RE (strip tok)) as [m|] eqn:Em; [|discriminate].
  destruct (NUM_RE_num_group _ Em) as (g & -> & Hg).
  destruct (py_float _) as [v0|e] eqn:Ef.
  - intros H. exists g, v0. split; [assumption | split; [assumption|]].
    destruct (opt_eqb (group m 3) (py "%")); [discriminate|].
    injection H as <-.
    destruct (_ && _)%bool; auto.
  - destruct e; discriminate.
Qed.

Lemma parse_number_valid tok v :
  parse_number tok = Ret (Some v) -> valid_binary prec emax v = true.
Proof.
  intros H. destruct (parse_number_value _ H) as (g & v0 & _ & Hf & [->| ->]);
    [|apply neg_valid]; exact (py_float_valid _ Hf).
Qed.

Lemma parse_number_not_nan tok v :
  parse_number tok = Ret (Some v) -> v <> S754_nan.
Proof.
  intros H. destruct (parse_number_value _ H) as (g & v0 & Hg & Hf & Hv).
  assert (H0 : v0 <> S754_nan).
  { intros ->. apply py_float_nan in Hf as (c & Hc & Hn).
    do 3 apply In_remove_char in Hc.
    rewrite Forall_forall in Hg. apply Hg in Hc.
    destruct Hn as [-> | ->]; vm_compute in Hc; discriminate. }
  destruct Hv as [-> | ->]; [assumption | apply neg_not_nan; assumption].
Qed.

End ParseNumberFacts.

(** ** The pipeline *)

Section PipelineFacts.

Lemma bind_ret {A B} (m : exc A) (f : A -> exc B) b :
  bind m f = Ret b -> exists a, m = Ret a /\ f a = Ret b.
Proof. destruct m as [a|e]; simpl; [eauto | discriminate]. Qed.

Lemma mapM_ret {A B} (f : A -> exc B) l : forall bs,
  mapM f l = Ret bs -> Forall2 (fun a b => f a = Ret b) l bs.
Proof.
  induction l as [|a l IH]; simpl; intros bs H.
  - injection H as <-. constructor.
  - apply bind_ret in H as (b & Hb & H).
    apply bind_ret in H as (bs' & Hbs & H). injection H as <-.
    constructor; auto.
Qed.

Lemma hits_of_words_In f words : forall hs h,
  hits_of_words f words = Ret hs -> In h hs ->
  exists w, In w words /\ f w = Ret (Some h).
Proof.
  induction words as [|w words IH]; simpl; intros hs h H Hin.
  - injection H as <-. destruct Hin.
  - apply bind_ret in H as (r & Hr & H).
    apply bind_ret in H as (hs' & Hhs & H). injection H as <-.
    destruct r as [h'|].
    + destruct Hin as [<-|Hin]; [exists w; auto|].
      destruct (IH _ _ Hhs Hin) as (w' & Hw & Hf). exists w'; auto.
    + destruct (IH _ _ Hhs Hin) as (w' & Hw & Hf). exists w'; auto.
Qed.

Lemma process_page_In xt yt pn pg hs h :
  process_page xt yt pn pg = Ret hs -> In h hs -> hit_on_page xt yt pn pg h.
Proof.
  unfold process_page, hit_on_page. intros H Hin.
  apply bind_ret in H as (lm & Hlm & H).
  apply bind_ret in H as (tss & Htss & H).
  apply bind_ret in H as (ps & Hps & H).
  destruct (@hits_of_words_In _ _ _ _ H Hin) as (wd & Hwd & Hf).
  exists lm, tss, ps, wd. repeat split; try assumption.
  apply mapM_ret in Htss. unfold scales_of_regions.
  eapply Forall2_impl; [|exact Htss].
  intros tb ts Hts. apply bind_ret in Hts as (sm & Hsm & Hts).
  injection Hts as <-. auto.
Qed.

Lemma pages_loop_In xt yt pages nums : forall hs h,
  pages_loop xt yt pages nums = Ret hs -> In h hs ->
  exists pn pg, In pn nums /\ nth_error pages (Z.to_nat (pn - 1)) = Some pg
                /\ hit_on_page xt yt pn pg h.
Proof.
  induction nums as [|pn nums IH]; simpl; intros hs h H Hin.
  - injection H as <-. destruct Hin.
  - destruct (nth_error pages (Z.to_nat (pn - 1))) as [pg|] eqn:E;
      [|discriminate].
    apply bind_ret in H as (hs1 & H1 & H).
    apply bind_ret in H as (hs2 & H2 & H). injection H as <-.
    apply in_app_or in Hin as [Hin|Hin].
    + exists pn, pg. split; [auto | split; [assumption|]].
      eapply process_page_In; eassumption.
    + destruct (IH _ _ H2 Hin) as (pn' & pg' & ? & ? & ?).
      exists pn', pg'; auto.
Qed.

Lemma In_insert_desc x l h : In h (insert_desc x l) <-> h = x \/ In h l.
Proof.
  induction l as [|y l IH]; simpl; [intuition|].
  destruct (ltb _ _); simpl; rewrite ?IH; intuition.
Qed.

Lemma In_sort_desc l h : In h (sort_desc l) <-> In h l.
Proof.
  induction l as [|x l IH]; simpl; [tauto|].
  rewrite In_insert_desc, IH. intuition.
Qed.

(** Every returned hit is a hit of a scanned page that passes the filter. *)
Lemma extract_In pages o hits h :
  extract_numbers_from_pdf pages o = Ret hits -> In h hits ->
  within_threshold o h = true
  /\ exists pn pg, nth_error pages (Z.to_nat (pn - 1)) = Some pg
                   /\ hit_on_page (x_tolerance o) (y_tolerance o) pn pg h.
Proof.
  unfold extract_numbers_from_pdf, collect_hits. intros H Hin.
  apply bind_ret in H as (all & Hall & H). injection H as <-.
  apply In_sort_desc, filter_In in Hin as [Hin Hw]. split; [assumption|].
  destruct (@pages_loop_In _ _ _ _ _ _ Hall Hin) as (pn & pg & _ & ? & ?).
  exists pn, pg; auto.
Qed.

(** The table loop stops at the first region that contains the box. *)
Lemma resolve_scale_first box pre tb sm post ps pf :
  Forall (outside box) pre -> inside_bbox box tb half = true ->
  resolve_scale box (pre ++ (tb, sm) :: post) ps pf
  = (sm, scale_factor (fst (fst sm)), Some tb).
Proof.
  intros Hpre Hin. induction Hpre as [|[tb' [[n p] b]] pre Ho _ IH]; simpl.
  - rewrite Hin. destruct sm as [[n p] b]. reflexivity.
  - unfold outside in Ho. simpl in Ho. rewrite Ho. exact IH.
Qed.

Lemma resolve_scale_none box tss ps pf :
  Forall (outside box) tss -> resolve_scale box tss ps pf = (ps, pf, None).
Proof.
  induction 1 as [|[tb' [[n p] b]] pre Ho _ IH]; simpl; [reflexivity|].
  unfold outside in Ho. simpl in Ho. rewrite Ho. exact IH.
Qed.

(** Either some first region contains the box, or none does. *)
Lemma first_inside_dec box (tss : list table_scale) :
  (exists pre ts post, tss = pre ++ ts :: post /\ Forall (outside box) pre
                       /\ inside_bbox box (fst ts) half = true)
  \/ Forall (outside box) tss.
Proof.
  induction tss as [|ts tss IH]; [right; constructor|].
  destruct (inside_bbox box (fst ts) half) eqn:E.
  - left. exists [], ts, tss. auto.
  - destruct IH as [(pre & t & post & -> & Hp & Hi)|Hall].
    + left. exists (ts :: pre), t, post. repeat split; auto.
    + right. constructor; assumption.
Qed.

(** The factor returned by the table loop is the factor of the scale name
    it returns. *)
Lemma resolve_scale_factor box tss ps :
  let '(sm, factor, _) :=
    resolve_scale box tss ps (scale_factor (fst (fst ps))) in
  factor = scale_factor (fst (fst sm)).
Proof.
  destruct (first_inside_dec box tss) as [(pre & [tb sm] & post & -> & Hp & Hi)|Hall].
  - rewrite resolve_scale_first by assumption. reflexivity.
  - rewrite resolve_scale_none by assumption. reflexivity.
Qed.

(** The fields of an emitted hit. *)
Lemma emits_fields pn lm tss ps wd h :
  emits pn lm tss ps wd h ->
  exists raw,
    parse_number (text wd) = Ret (Some raw)
    /\ page_num h = pn /\ raw_text h = text wd /\ raw_value h = raw
    /\ hit_bbox h = word_bbox wd
    /\ resolve_scale (word_bbox wd) tss ps (scale_factor (fst (fst ps)))
       = (scale_of h, scale_factor (scale_name h), table_bbox h)
    /\ scaled_value h
       = mul raw (if units_eqb (units h) people then one
                  else scale_factor (scale_name h)).
Proof.
  unfold emits, hit_of_word. intros H.
  apply bind_ret in H as ([raw|] & Hraw & H); [|discriminate].
  apply bind_ret in H as (k & Hk & H).
  pose proof (resolve_scale_factor (word_bbox wd) tss ps) as Hf.
  unfold word_bbox in *.
  destruct (resolve_scale _ tss ps _) as [[[[sn sp] sb] factor] tb].
  simpl in Hf. injection H as <-. simpl. exists raw.
  subst factor. repeat split; try assumption.
  destruct (classify_units_for_word _ _); reflexivity.
Qed.

End PipelineFacts.

(** ** The claims *)

Lemma units_eqb_people u : units_eqb u people = true <-> u = people.
Proof. destruct u; simpl; split; congruence. Qed.

Lemma hit_scaling xt yt pn pg h :
  hit_on_page xt yt pn pg h ->
  (units h <> people ->
   scaled_value h = mul (raw_value h) (scale_factor (scale_name h)))
  /\ (units h = people -> scaled_value h = raw_value h).
Proof.
  intros (lm & tss & ps & wd & _ & _ & _ & _ & He).
  destruct (@emits_fields _ _ _ _ _ _ He) as (raw & Hp & _ & _ & Hr & _ & _ & Hs).
  rewrite Hs, Hr. split; intros Hu.
  - destruct (units_eqb (units h) people) eqn:E; [|reflexivity].
    apply units_eqb_people in E. contradiction.
  - rewrite Hu. simpl. apply mul_one_r. eapply parse_number_valid; eassumption.
Qed.

(** C2. Every hit the pipeline returns has
    [scaled_value = raw_value * factor(scale_name)] unless its units are
    ["people"], and then [scaled_value = raw_value]. *)
Theorem C2_scaling_invariant pages o hits h :
  extract_numbers_from_pdf pages o = Ret hits -> In h hits ->
  (units h <> people ->
   scaled_value h = mul (raw_value h) (scale_factor (scale_name h)))
  /\ (units h = people -> scaled_value h = raw_value h).
Proof.
  intros H Hin. destruct (@extract_In pages o hits h H Hin) as (_ & pn & pg & _ & Hp).
  eapply hit_scaling; eassumption.
Qed.

Lemma C2_scaling_invariant_witness :
  extract_numbers_from_pdf [table_page] default_options = Ret table_hits
  /\ In hit_340 table_hits
  /\ units hit_340 = people
  /\ scaled_value hit_340 = raw_value hit_340.
Proof.
  assert (H : extract_numbers_from_pdf [table_page] default_options
              = Ret table_hits) by (vm_compute; reflexivity).
  assert (Hin : In hit_340 table_hits) by (right; left; reflexivity).
  split; [exact H | split; [exact Hin | split; [reflexivity|]]].
  apply (proj2 (@C2_scaling_invariant _ _ _ _ H Hin)). reflexivity.
Defined.

Lemma hit_bbox_word pn lm tss ps wd h :
  emits pn lm tss ps wd h -> hit_bbox h = word_bbox wd.
Proof.
  intros He. destruct (@emits_fields _ _ _ _ _ _ He) as (raw & H). tauto.
Qed.

(** The scale of a hit is that of the first table region containing its
    box, or the page-level scale. *)
Lemma table_scale_resolution xt yt pn pg hits h :
  process_page xt yt pn pg = Ret hits -> In h hits ->
  exists table_scales page_scale,
    scales_of_regions (extract_words pg xt yt)
                      (table_regions_of (tables_of pg)) table_scales
    /\ detect_scale_phrase (extract_words pg xt yt) = Ret page_scale
    /\ (forall pre tb sm post,
          table_scales = pre ++ (tb, sm) :: post ->
          Forall (outside (hit_bbox h)) pre ->
          inside_bbox (hit_bbox h) tb half = true ->
          scale_of h = sm /\ table_bbox h = Some tb)
    /\ (Forall (outside (hit_bbox h)) table_scales ->
        scale_of h = page_scale /\ table_bbox h = None).
Proof.
  intros H Hin.
  destruct (@process_page_In _ _ _ _ _ _ H Hin)
    as (lm & tss & ps & wd & _ & Htss & Hps & _ & He).
  exists tss, ps. split; [assumption | split; [assumption|]].
  destruct (@emits_fields _ _ _ _ _ _ He) as (raw & _ & _ & _ & _ & Hb & Hr & _).
  rewrite Hb. split.
  - intros pre tb sm post -> Hpre Hi.
    rewrite resolve_scale_first in Hr by assumption.
    injection Hr as <- _ <-. auto.
  - intros Hall. rewrite resolve_scale_none in Hr by assumption.
    injection Hr as <- _ <-. auto.
Qed.

(** C3. The table boxes are tried in discovery order; the first one that
    contains the number's box (tolerance 0.5) gives the hit its scale name,
    phrase, bbox and [table_bbox]; when none contains it the page-level
    scale applies and [table_bbox] is absent. *)
Theorem C3_first_containing_table xt yt pn pg hits h :
  process_page xt yt pn pg = Ret hits -> In h hits ->
  exists table_scales page_scale,
    scales_of_regions (extract_words pg xt yt)
                      (table_regions_of (tables_of pg)) table_scales
    /\ detect_scale_phrase (extract_words pg xt yt) = Ret page_scale
    /\ (forall pre tb sm post,
          table_scales = pre ++ (tb, sm) :: post ->
          Forall (outside (hit_bbox h)) pre ->
          inside_bbox (hit_bbox h) tb half = true ->
          scale_of h = sm /\ table_bbox h = Some tb)
    /\ (Forall (outside (hit_bbox h)) table_scales ->
        scale_of h = page_scale /\ table_bbox h = None).
Proof. exact (@table_scale_resolution xt yt pn pg hits h). Qed.

Lemma C3_first_containing_table_witness :
  process_page one one 1 table_page = Ret table_hits
  /\ In hit_1250 table_hits
  /\ exists table_scales page_scale,
       scales_of_regions table_words
         (table_regions_of (tables_of table_page)) table_scales
       /\ detect_scale_phrase table_words = Ret page_scale
       /\ (forall pre tb sm post,
             table_scales = pre ++ (tb, sm) :: post ->
             Forall (outside (hit_bbox hit_1250)) pre ->
             inside_bbox (hit_bbox hit_1250) tb half = true ->
             scale_of hit_1250 = sm /\ table_bbox hit_1250 = Some tb)
       /\ (Forall (outside (hit_bbox hit_1250)) table_scales ->
           scale_of hit_1250 = page_scale /\ table_bbox hit_1250 = None).
Proof.
  assert (H : process_page one one 1 table_page = Ret table_hits)
    by (vm_compute; reflexivity).
  assert (Hin : In hit_1250 table_hits) by (left; reflexivity).
  split; [exact H | split; [exact Hin|]].
  exact (@C3_first_containing_table _ _ _ _ _ _ H Hin).
Defined.

(** C10, as stated, fails: with two overlapping tables a number lying in a
    headerless table still takes the scale of an earlier table around it. *)
Lemma C10_counterexample : ~ C10_as_stated.
Proof.
  intros C.
  assert (H : process_page one one 1 overlap_page = Ret table_hits)
    by (vm_compute; reflexivity).
  assert (Hin : In hit_1250 table_hits) by (left; reflexivity).
  destruct (C one one 1%Z overlap_page table_hits hit_1250
              (mk_box 40 115 100 135) H Hin) as [Hs _].
  - right; left; reflexivity.
  - vm_compute; reflexivity.
  - vm_compute; reflexivity.
  - vm_compute in Hs. discriminate.
Qed.

(** C10, amended. When the first table box (in discovery order) that
    contains the number's box yields no scale phrase, the hit has no scale
    name, phrase or bbox and [scaled_value = raw_value], whatever the
    page-level scale is. *)
Theorem C10_headerless_first_table xt yt pn pg hits h pre tb post :
  process_page xt yt pn pg = Ret hits -> In h hits ->
  table_regions_of (tables_of pg) = pre ++ tb :: post ->
  Forall (fun r => inside_bbox (hit_bbox h) r half = false) pre ->
  inside_bbox (hit_bbox h) tb half = true ->
  detect_scale_phrase_in_region (extract_words pg xt yt) tb = Ret no_scale ->
  scale_of h = no_scale /\ table_bbox h = Some tb
  /\ scaled_value h = raw_value h.
Proof.
  intros H Hin Hreg Hpre Hi Hd.
  destruct (@table_scale_resolution _ _ _ _ _ _ H Hin)
    as (tss & ps & Htss & _ & Hfirst & _).
  unfold scales_of_regions in Htss. rewrite Hreg in Htss.
  apply Forall2_app_inv_l in Htss as (tpre & trest & Hp & Hr & ->).
  inversion Hr as [|? [tb' sm] ? tpost [Htb Hsm] Hpost]; subst. simpl in *.
  rewrite Hd in Hsm. injection Hsm as <-.
  assert (Ho : Forall (outside (hit_bbox h)) tpre).
  { clear -Hp Hpre. induction Hp as [|r ts pre tpre [E _] _ IH]; [constructor|].
    inversion Hpre; subst. constructor; [|auto]. unfold outside. assumption. }
  destruct (Hfirst _ _ _ _ eq_refl Ho Hi) as [Hs Ht].
  split; [assumption | split; [assumption|]].
  destruct (@process_page_In _ _ _ _ _ _ H Hin)
    as (lm & tss' & ps' & wd & _ & _ & _ & _ & He).
  destruct (@emits_fields _ _ _ _ _ _ He) as (raw & Hpn & _ & _ & Hraw & _ & _ & Hsc).
  rewrite Hsc, Hraw.
  replace (scale_name h) with (@None str)
    by (unfold scale_of, no_scale in Hs; congruence).
  replace (if units_eqb (units h) people then one else scale_factor None)
    with one by (destruct (units_eqb _ _); reflexivity).
  apply mul_one_r. eapply parse_number_valid; eassumption.
Qed.

Lemma C10_headerless_first_table_witness :
  process_page one one 1 headerless_table_page = Ret headerless_hits
  /\ In hit_headerless headerless_hits
  /\ scale_of hit_headerless = no_scale
  /\ table_bbox hit_headerless = Some (mk_box 40 115 100 135)
  /\ scaled_value hit_headerless = raw_value hit_headerless.
Proof.
  assert (H : process_page one one 1 headerless_table_page = Ret headerless_hits)
    by (vm_compute; reflexivity).
  assert (Hin : In hit_headerless headerless_hits) by (left; reflexivity).
  split; [exact H | split; [exact Hin|]].
  apply (@C10_headerless_first_table one one 1%Z headerless_table_page
           headerless_hits hit_headerless [] (mk_box 40 115 100 135) []
           H Hin).
  - vm_compute; reflexivity.
  - constructor.
  - vm_compute; reflexivity.
  - vm_compute; reflexivity.
Defined.

(** C1 (code_bug). On the line "amounts in millions" the second pattern
    is the first to match, and the detector returns ["amounts"], the text
    of the pattern's first group, not the scale word ["millions"]; the
    factor of that name is 1. *)
Theorem C1_amounts_in_millions_yields_amounts :
  fst (_line_text_and_spans amounts_words) = py "amounts in millions"
  /\ search (nth 0 SCALE_PATTERNS amounts_pattern) (py "amounts in millions")
     = None
  /\ (exists m, search amounts_pattern (py "amounts in millions") = Some m
                /\ group m 1 = Some (py "amounts")
                /\ group m 2 = Some (py "millions"))
  /\ detect_scale_phrase amounts_words
     = Ret (Some (py "amounts"), Some (py "amounts in millions"),
            Some (of_Z 0, of_Z 100, of_Z 100, of_Z 108))
  /\ scale_factor (Some (py "amounts")) = one.
Proof.
  split; [vm_compute; reflexivity|].
  split; [vm_compute; reflexivity|].
  split; [eexists; split; [vm_compute; reflexivity|];
          split; vm_compute; reflexivity|].
  split; vm_compute; reflexivity.
Qed.

(** C8. [parse_number] returns a value or [None] for every token; it never
    raises. *)
Theorem C8_parse_number_never_raises (token : str) :
  exists r : option float, parse_number token = Ret r.
Proof.
  unfold parse_number.
  destruct (pmatch NUM_RE (strip token)) as [m|] eqn:Em; [|eauto].
  destruct (@NUM_RE_num_group _ _ Em) as (g & -> & _).
  destruct (py_float _) as [v|e] eqn:Ef.
  - destruct (opt_eqb (group m 3) (py "%")); eauto.
  - apply py_float_raises in Ef. subst e. eauto.
Qed.

Lemma is_nan_false x : is_nan x = false <-> x <> S754_nan.
Proof. destruct x; simpl; split; congruence. Qed.

Lemma scale_factor_finite n :
  exists s m e, scale_factor n = S754_finite s m e.
Proof.
  unfold scale_factor, dict_get.
  repeat match goal with
         | |- context [if ?b then _ else _] => destruct b
         end; unfold thousand, million, billion, one; eauto.
Qed.

(** The values of a hit are numbers. *)
Lemma hit_not_nan xt yt pn pg h :
  hit_on_page xt yt pn pg h ->
  is_nan (scaled_value h) = false /\ is_nan (raw_value h) = false.
Proof.
  intros (lm & tss & ps & wd & _ & _ & _ & _ & He).
  destruct (@emits_fields _ _ _ _ _ _ He) as (raw & Hp & _ & _ & Hr & _ & _ & Hs).
  pose proof (@parse_number_not_nan _ _ Hp) as Hn.
  rewrite Hs, Hr. split; [|apply is_nan_false; assumption].
  apply is_nan_false.
  destruct (units_eqb (units h) people).
  - unfold one. apply mul_finite_not_nan; assumption.
  - destruct (scale_factor_finite (scale_name h)) as (s & m & e & ->).
    apply mul_finite_not_nan; assumption.
Qed.

(** On numbers the strict tests of [within_threshold] are the inclusive
    bounds. *)
Lemma within_threshold_in_bounds o h :
  bounds_are_numbers o ->
  is_nan (scaled_value h) = false -> is_nan (raw_value h) = false ->
  within_threshold o h = in_bounds o h.
Proof.
  intros (H1 & H2 & H3 & H4) Hs Hr. unfold within_threshold, in_bounds, gtb.
  unfold is_number in *. change SFltb with ltb.
  destruct (max_scaled o) as [a|], (min_scaled o) as [b|],
           (max_raw o) as [c|], (min_raw o) as [d|];
    rewrite ?(@negb_ltb a (scaled_value h) H2 Hs),
            ?(@negb_ltb (scaled_value h) b Hs H1),
            ?(@negb_ltb c (raw_value h) H4 Hr),
            ?(@negb_ltb (raw_value h) d Hr H3);
    repeat (match goal with
            | |- context [leb ?x ?y] => destruct (leb x y)
            end); reflexivity.
Qed.

Lemma insert_desc_perm x l : Permutation (insert_desc x l) (x :: l).
Proof.
  induction l as [|y l IH]; simpl; [reflexivity|].
  destruct (ltb _ _); [|reflexivity].
  rewrite IH. apply perm_swap.
Qed.

Lemma sort_desc_perm l : Permutation (sort_desc l) l.
Proof.
  induction l as [|x l IH]; simpl; [constructor|].
  rewrite insert_desc_perm. constructor. exact IH.
Qed.

Lemma insert_desc_sorted x l :
  is_nan (scaled_value x) = false ->
  Forall (fun h => is_nan (scaled_value h) = false) l ->
  descending l -> descending (insert_desc x l).
Proof.
  intros Hx Hl Hs. induction Hs as [|y l Hs IH Hd]; simpl.
  - repeat constructor.
  - inversion Hl as [|? ? Hy Hl']; subst.
    destruct (ltb (scaled_value x) (scaled_value y)) eqn:E.
    + constructor; [apply IH; assumption|].
      destruct l as [|z l]; simpl.
      * constructor. unfold ltb, SFltb in E. unfold leb, SFleb.
        destruct (SFcompare _ _) as [[]|]; try discriminate; reflexivity.
      * destruct (ltb (scaled_value x) (scaled_value z)).
        -- inversion Hd; subst. constructor. assumption.
        -- constructor. unfold ltb, SFltb in E. unfold leb, SFleb.
           destruct (SFcompare _ _) as [[]|]; try discriminate; reflexivity.
    + constructor; [constructor; assumption|].
      constructor. rewrite <- (@negb_ltb _ _ Hx Hy), E. reflexivity.
Qed.

Lemma sort_desc_sorted l :
  Forall (fun h => is_nan (scaled_value h) = false) l ->
  descending (sort_desc l).
Proof.
  induction 1 as [|x l Hx Hl IH]; simpl; [constructor|].
  assert (HF : Forall (fun h => is_nan (scaled_value h) = false) (sort_desc l)).
  { apply Forall_forall. intros h Hh. apply (proj1 (In_sort_desc l h)) in Hh.
    rewrite Forall_forall in Hl. exact (Hl h Hh). }
  exact (@insert_desc_sorted x (sort_desc l) Hx HF IH).
Qed.

(** C7. The returned list holds exactly the hits of the scanned pages that
    lie within every supplied bound, bounds included, and is ordered by
    [scaled_value], largest first.  A supplied bound is a number. *)
Theorem C7_filtered_and_sorted pages o hits :
  extract_numbers_from_pdf pages o = Ret hits ->
  bounds_are_numbers o ->
  exists all,
    collect_hits pages o = Ret all
    /\ Permutation hits (filter (in_bounds o) all)
    /\ descending hits.
Proof.
  unfold extract_numbers_from_pdf. intros H Hb.
  apply bind_ret in H as (all & Hall & H). injection H as <-.
  exists all. split; [assumption|].
  assert (Hn : forall h, In h all ->
                 is_nan (scaled_value h) = false
                 /\ is_nan (raw_value h) = false).
  { intros h Hin. unfold collect_hits in Hall.
    destruct (@pages_loop_In _ _ _ _ _ _ Hall Hin) as (pn & pg & _ & _ & Hp).
    eapply hit_not_nan; eassumption. }
  split.
  - rewrite sort_desc_perm.
    rewrite (filter_ext_in (within_threshold o) (in_bounds o)); [reflexivity|].
    intros h Hin. destruct (Hn h Hin). apply within_threshold_in_bounds; assumption.
  - apply sort_desc_sorted. apply Forall_forall. intros h Hin.
    apply filter_In in Hin as [Hin _]. apply Hn; assumption.
Qed.

Lemma C7_filtered_and_sorted_witness :
  extract_numbers_from_pdf [table_page] bounded_options = Ret bounded_hits
  /\ bounds_are_numbers bounded_options
  /\ exists all,
       collect_hits [table_page] bounded_options = Ret all
       /\ Permutation bounded_hits (filter (in_bounds bounded_options) all)
       /\ descending bounded_hits.
Proof.
  assert (H : extract_numbers_from_pdf [table_page] bounded_options
              = Ret bounded_hits) by (vm_compute; reflexivity).
  assert (Hb : bounds_are_numbers bounded_options)
    by (repeat split; reflexivity).
  split; [exact H | split; [exact Hb|]].
  exact (@C7_filtered_and_sorted _ _ _ H Hb).
Defined.

Lemma first_pattern_spec pats txt :
  match first_pattern pats txt with
  | Some m => exists p1 pat p2,
                pats = p1 ++ pat :: p2
                /\ Forall (fun p => search p txt = None) p1
                /\ search pat txt = Some m
  | None => Forall (fun p => search p txt = None) pats
  end.
Proof.
  induction pats as [|p pats IH]; simpl; [constructor|].
  destruct (search p txt) as [m|] eqn:E.
  - exists [], p, pats. auto.
  - destruct (first_pattern pats txt) as [m|].
    + destruct IH as (p1 & pat & p2 & -> & Hp & Hs).
      exists (p :: p1), pat, p2. auto.
    + constructor; assumption.
Qed.

Lemma scan_lines_cons key lw lines :
  scan_lines ((key, lw) :: lines)
  = match fst (_line_text_and_spans lw) with
    | [] => scan_lines lines
    | _ :: _ =>
        match first_pattern SCALE_PATTERNS (fst (_line_text_and_spans lw)) with
        | Some m => scale_of_match lw (snd (_line_text_and_spans lw)) m
        | None => scan_lines lines
        end
    end.
Proof.
  cbn [scan_lines]. destruct (_line_text_and_spans lw) as [txt spans].
  destruct txt; reflexivity.
Qed.

Lemma scan_lines_spec lines :
  (exists l1 key lw l2 p1 pat p2 m,
     lines = l1 ++ (key, lw) :: l2
     /\ Forall no_match_in l1
     /\ SCALE_PATTERNS = p1 ++ pat :: p2
     /\ Forall (fun p => search p (line_text lw) = None) p1
     /\ search pat (line_text lw) = Some m
     /\ scan_lines lines
        = scale_of_match lw (snd (_line_text_and_spans lw)) m)
  \/ (Forall no_match_in lines /\ scan_lines lines = no_scale).
Proof.
  induction lines as [|[key lw] lines IH]; [right; split; [constructor|reflexivity]|].
  assert (Hstep :
    (exists p1 pat p2 m,
        SCALE_PATTERNS = p1 ++ pat :: p2
        /\ Forall (fun p => search p (line_text lw) = None) p1
        /\ search pat (line_text lw) = Some m
        /\ scan_lines ((key, lw) :: lines)
           = scale_of_match lw (snd (_line_text_and_spans lw)) m)
    \/ (no_match_in (key, lw)
        /\ scan_lines ((key, lw) :: lines) = scan_lines lines)).
  { rewrite scan_lines_cons. unfold no_match_in, line_text. cbn [snd].
    destruct (fst (_line_text_and_spans lw)) as [|c txt].
    - right. split; [|reflexivity].
      exact (first_pattern_spec SCALE_PATTERNS []).
    - pose proof (first_pattern_spec SCALE_PATTERNS (c :: txt)) as Hf.
      destruct (first_pattern SCALE_PATTERNS (c :: txt)) as [m|].
      + left. destruct Hf as (p1 & pat & p2 & E & Hp & Hs).
        exists p1, pat, p2, m. repeat split; assumption || reflexivity.
      + right. split; [assumption | reflexivity]. }
  destruct Hstep as [(p1 & pat & p2 & m & E & Hp & Hs & Hr)|[Hno Hr]].
  - left. exists [], key, lw, lines, p1, pat, p2, m.
    repeat split; try assumption; constructor.
  - rewrite Hr. destruct IH as [(l1 & k' & lw' & l2 & p1 & pat & p2 & m & -> & H1 & H2 & H3 & H4 & H5)|[Hall Hn]].
    + left. exists ((key, lw) :: l1), k', lw', l2, p1, pat, p2, m.
      repeat split; try assumption. constructor; assumption.
    + right. split; [constructor; assumption | assumption].
Qed.

Lemma insert_by_key_perm {A} (x : float * A) l :
  Permutation (insert_by_key x l) (x :: l).
Proof.
  induction l as [|y l IH]; simpl; [reflexivity|].
  destruct (ltb _ _); [|reflexivity].
  rewrite IH. apply perm_swap.
Qed.

Lemma sorted_by_key_perm {A} (l : list (float * A)) :
  Permutation (sorted_by_key l) l.
Proof.
  induction l as [|x l IH]; simpl; [constructor|].
  rewrite insert_by_key_perm. constructor. exact IH.
Qed.

Lemma ltb_leb a b : ltb a b = true -> leb a b = true.
Proof.
  unfold ltb, leb, SFltb, SFleb.
  destruct (SFcompare a b) as [[]|]; congruence.
Qed.

Lemma insert_by_key_sorted x (l : list (float * list word)) :
  is_nan (fst x) = false ->
  Forall (fun y => is_nan (fst y) = false) l ->
  ascending l -> ascending (insert_by_key x l).
Proof.
  intros Hx Hl Hs. induction Hs as [|y l Hs IH Hd]; simpl.
  - repeat constructor.
  - inversion Hl as [|? ? Hy Hl']; subst.
    destruct (ltb (fst y) (fst x)) eqn:E.
    + constructor; [apply IH; assumption|].
      destruct l as [|z l]; simpl.
      * constructor. apply ltb_leb; assumption.
      * destruct (ltb (fst z) (fst x)).
        -- inversion Hd; subst. constructor. assumption.
        -- constructor. apply ltb_leb; assumption.
    + constructor; [constructor; assumption|].
      constructor. rewrite <- (@negb_ltb _ _ Hy Hx), E. reflexivity.
Qed.

Lemma sorted_by_key_sorted (l : list (float * list word)) :
  Forall (fun y => is_nan (fst y) = false) l -> ascending (sorted_by_key l).
Proof.
  induction 1 as [|x l Hx Hl IH]; simpl; [constructor|].
  assert (HF : Forall (fun y => is_nan (fst y) = false) (sorted_by_key l)).
  { apply Forall_forall. intros h Hh.
    apply (Permutation_in _ (sorted_by_key_perm l)) in Hh.
    rewrite Forall_forall in Hl. exact (Hl h Hh). }
  exact (@insert_by_key_sorted x (sorted_by_key l) Hx HF IH).
Qed.

Lemma y_bucket_not_nan t y :
  y_bucket t ten = Ret y -> is_nan y = false.
Proof.
  unfold y_bucket. intros H.
  apply bind_ret in H as (k & _ & H).
  apply bind_ret in H as (fk & Hfk & H). injection H as <-.
  apply is_nan_false. unfold ten. apply mul_finite_not_nan.
  unfold of_int in Hfk. destruct (is_finite (of_Z k)) eqn:E; [|discriminate].
  injection Hfk as <-. destruct (of_Z k); simpl in E; congruence.
Qed.

Lemma setdefault_append_keys y w lines :
  is_nan y = false ->
  Forall (fun l : float * list word => is_nan (fst l) = false) lines ->
  Forall (fun l : float * list word => is_nan (fst l) = false)
         (setdefault_append y w lines).
Proof.
  intros Hy. induction 1 as [|[k ws] lines Hk Hl IH]; simpl.
  - repeat constructor. assumption.
  - destruct (SFeqb k y); constructor; assumption.
Qed.

Lemma lines_loop_keys words : forall lines groups,
  Forall (fun l : float * list word => is_nan (fst l) = false) lines ->
  lines_loop words ten lines = Ret groups ->
  Forall (fun l : float * list word => is_nan (fst l) = false) groups.
Proof.
  induction words as [|w words IH]; simpl; intros lines groups Hl H.
  - injection H as <-. assumption.
  - apply bind_ret in H as (y & Hy & H).
    eapply IH; [|exact H].
    apply setdefault_append_keys; [|assumption].
    eapply y_bucket_not_nan; eassumption.
Qed.

(** C4. The detector visits the visual lines in ascending order of their
    bucket key and, in a line, the patterns in table order.  It returns the
    match of the first pattern found in the first line where any pattern is
    found; when no line has a match it returns no scale. *)
Theorem C4_first_line_first_pattern words r :
  detect_scale_phrase words = Ret r ->
  (words = [] /\ r = no_scale)
  \/ exists groups,
       _lines_by_y words ten = Ret groups
       /\ Permutation (sorted_by_key groups) groups
       /\ ascending (sorted_by_key groups)
       /\ ((exists l1 key lw l2 p1 pat p2 m,
              sorted_by_key groups = l1 ++ (key, lw) :: l2
              /\ Forall no_match_in l1
              /\ SCALE_PATTERNS = p1 ++ pat :: p2
              /\ Forall (fun p => search p (line_text lw) = None) p1
              /\ search pat (line_text lw) = Some m
              /\ r = scale_of_match lw (snd (_line_text_and_spans lw)) m)
           \/ (Forall no_match_in (sorted_by_key groups) /\ r = no_scale)).
Proof.
  unfold detect_scale_phrase. destruct words as [|w words].
  - intros [= <-]. left. auto.
  - intros H. right. apply bind_ret in H as (groups & Hg & H).
    injection H as <-. exists groups.
    split; [assumption|]. split; [apply sorted_by_key_perm|].
    split.
    + apply sorted_by_key_sorted.
      unfold _lines_by_y in Hg. eapply lines_loop_keys; [|exact Hg]. constructor.
    + destruct (scan_lines_spec (sorted_by_key groups))
        as [(l1 & key & lw & l2 & p1 & pat & p2 & m & E & H1 & H2 & H3 & H4 & H5)|[Hall Hn]].
      * left. exists l1, key, lw, l2, p1, pat, p2, m.
        repeat split; assumption.
      * right. split; assumption.
Qed.

Lemma C4_first_line_first_pattern_witness :
  detect_scale_phrase two_line_words
  = Ret (Some (py "thousands"), Some (py "(thousands)"),
         Some (of_Z 0, of_Z 50, of_Z 10, of_Z 58))
  /\ ((two_line_words = []
       /\ (Some (py "thousands"), Some (py "(thousands)"),
           Some (of_Z 0, of_Z 50, of_Z 10, of_Z 58)) = no_scale)
      \/ exists groups,
           _lines_by_y two_line_words ten = Ret groups
           /\ Permutation (sorted_by_key groups) groups
           /\ ascending (sorted_by_key groups)
           /\ ((exists l1 key lw l2 p1 pat p2 m,
                  sorted_by_key groups = l1 ++ (key, lw) :: l2
                  /\ Forall no_match_in l1
                  /\ SCALE_PATTERNS = p1 ++ pat :: p2
                  /\ Forall (fun p => search p (line_text lw) = None) p1
                  /\ search pat (line_text lw) = Some m
                  /\ (Some (py "thousands"), Some (py "(thousands)"),
                      Some (of_Z 0, of_Z 50, of_Z 10, of_Z 58))
                     = scale_of_match lw (snd (_line_text_and_spans lw)) m)
               \/ (Forall no_match_in (sorted_by_key groups)
                   /\ (Some (py "thousands"), Some (py "(thousands)"),
                       Some (of_Z 0, of_Z 50, of_Z 10, of_Z 58)) = no_scale))).
Proof.
  assert (H : detect_scale_phrase two_line_words
              = Ret (Some (py "thousands"), Some (py "(thousands)"),
                     Some (of_Z 0, of_Z 50, of_Z 10, of_Z 58)))
    by (vm_compute; reflexivity).
  split; [exact H|].
  exact (@C4_first_line_first_pattern _ _ H).
Defined.

Lemma foot_cases c :
  is_foot c = true ->
  In c [42; 0x2020; 0x2021; 0xB9; 0xB2; 0xB3; 0x2070; 0x2071; 0x2072; 0x2073;
        0x2074; 0x2075; 0x2076; 0x2077; 0x2078; 0x2079]%N.
Proof.
  unfold is_foot, FOOT, set_match, existsb, item_match, lit_match, in_range.
  rewrite !andb_false_l, !orb_false_r, !orb_true_iff, andb_true_iff.
  rewrite !N.eqb_eq, !N.leb_le. simpl. lia.
Qed.

Lemma eat_all_rest st g : rest st = g -> rest (eat_all st g) = [].
Proof.
  revert st. induction g as [|c g IH]; intros st H; simpl; [assumption|].
  apply IH. reflexivity.
Qed.

Lemma eat_all_caps g : forall st, caps (eat_all st g) = caps st.
Proof.
  induction g as [|c g IH]; intros st; simpl; [reflexivity|].
  rewrite IH. reflexivity.
Qed.

Lemma star_foot g : forall st fuel k res,
  rest st = g -> Forall (fun c => is_foot c = true) g ->
  (List.length g <= fuel)%nat ->
  k (eat_all st g) = Some res ->
  star_loop (run false (OneOf FOOT)) k fuel st = Some res.
Proof.
  induction g as [|c g IH]; intros st fuel k res Hr Hf Hl Hk; simpl in Hk.
  - destruct fuel as [|fuel]; simpl; [assumption|].
    unfold eat. rewrite Hr. assumption.
  - destruct fuel as [|fuel]; [simpl in Hl; lia|].
    inversion Hf as [|? ? Hc Hg]; subst.
    cbn [star_loop run]. unfold eat at 1. rewrite Hr.
    change (set_match false FOOT c) with (is_foot c). rewrite Hc.
    change (pos (advance c g st)) with (S (pos st)).
    replace (Nat.ltb (pos st) (S (pos st))) with true
      by (symmetry; apply Nat.ltb_lt; lia).
    assert (HI : star_loop (run false (OneOf FOOT)) k fuel (advance c g st)
                 = Some res).
    { apply IH; [reflexivity | assumption | simpl in Hl; lia | assumption]. }
    cbn [run] in HI. rewrite HI. reflexivity.
Qed.

(** On a run of footnote glyphs the end of [NUM_RE] matches, whatever was
    matched before. *)
Lemma tail_foot st :
  Forall (fun c => is_foot c = true) (rest st) ->
  run false NUM_TAIL st Some
  = Some (set_cap 4 (pos st) (pos (eat_all st (rest st)))
                  (eat_all st (rest st))).
Proof.
  intros Hf. unfold NUM_TAIL. cbn [run].
  apply star_foot with (g := rest st); [reflexivity | assumption | lia |].
  pose proof (eat_all_rest st eq_refl) as E.
  destruct (eat_all st (rest st)) as [p i r cs]. simpl in E. subst r.
  reflexivity.
Qed.

Lemma foot_not_space c : is_foot c = true -> is_space c = false.
Proof.
  intros H. apply foot_cases in H. simpl in H.
  repeat (destruct H as [<-|H]; [reflexivity|]). destruct H.
Qed.

Lemma lstrip_keep c s : is_space c = false -> lstrip (c :: s) = c :: s.
Proof. intros H. simpl. rewrite H. reflexivity. Qed.











Lemma hit_of_word_accepted pn lm tss ps pf wd r :
  hit_of_word pn lm tss ps pf wd = Ret r ->
  match r with
  | Some h => accepted (text wd) = true /\ raw_text h = text wd
  | None => accepted (text wd) = false
  end.
Proof.
  unfold hit_of_word, accepted. intros H.
  apply bind_ret in H as ([raw|] & -> & H).
  - apply bind_ret in H as (k & _ & H).
    destruct (resolve_scale _ tss ps pf) as [[[[sn sp] sb] f] tb].
    injection H as <-. auto.
  - injection H as <-. reflexivity.
Qed.

Lemma hits_of_words_texts f words : forall hs,
  (forall w r, f w = Ret r ->
     match r with
     | Some h => accepted (text w) = true /\ raw_text h = text w
     | None => accepted (text w) = false
     end) ->
  hits_of_words f words = Ret hs ->
  map raw_text hs = filter accepted (map text words).
Proof.
  induction words as [|w words IH]; simpl; intros hs Hf H.
  - injection H as <-. reflexivity.
  - apply bind_ret in H as (r & Hr & H).
    apply bind_ret in H as (hs' & Hhs & H). injection H as <-.
    specialize (Hf w r Hr) as Hw.
    rewrite <- (IH hs' Hf Hhs).
    destruct r as [h|].
    + destruct Hw as [-> <-]. reflexivity.
    + rewrite Hw. reflexivity.
Qed.
















































(** C7, as stated, fails: a NaN bound excludes no hit, since every
    comparison with NaN is false, while no value lies within it. *)
Lemma C7_counterexample : ~ C7_as_stated.
Proof.
  intros C.
  assert (H : extract_numbers_from_pdf [table_page] nan_options = Ret table_hits)
    by (vm_compute; reflexivity).
  destruct (C _ _ _ H) as (all & Hall & HP & _).
  assert (Hall' : collect_hits [table_page] nan_options = Ret table_hits)
    by (vm_compute; reflexivity).
  rewrite Hall' in Hall. injection Hall as <-.
  apply Permutation_length in HP. vm_compute in HP. discriminate HP.
Qed.

Lemma parse_number_returns token :
  exists r : option float, parse_number token = Ret r.
Proof.
  unfold parse_number.
  destruct (pmatch NUM_RE (strip token)) as [m|] eqn:Em; [|eauto].
  destruct (@NUM_RE_num_group _ _ Em) as (g & -> & _).
  destruct (py_float _) as [v|e] eqn:Ef.
  - destruct (opt_eqb (group m 3) (py "%")); eauto.
  - apply py_float_raises in Ef. subst e. eauto.
Qed.

(** When the grouping loop returns, the bucket key of every word is
    defined. *)
Lemma lines_loop_keys_defined words b : forall lines groups,
  lines_loop words b lines = Ret groups ->
  Forall (fun w => exists k, py_round (div (top w) b) = Ret k) words.
Proof.
  induction words as [|w words IH]; simpl; intros lines groups H; [constructor|].
  apply bind_ret in H as (y & Hy & H).
  constructor; [|eapply IH; exact H].
  unfold y_bucket in Hy. apply bind_ret in Hy as (k & Hk & _). eauto.
Qed.

Lemma hit_of_word_returns pn lm tss ps pf wd :
  (exists k, py_round (div (top wd) ten) = Ret k) ->
  exists r, hit_of_word pn lm tss ps pf wd = Ret r.
Proof.
  intros (k & Hk). unfold hit_of_word.
  destruct (parse_number_returns (text wd)) as ([raw|] & ->); simpl; [|eauto].
  rewrite Hk. simpl.
  destruct (resolve_scale _ tss ps pf) as [[[[sn sp] sb] f] tb]. eauto.
Qed.

Lemma hits_of_words_returns f words :
  Forall (fun w => exists r, f w = Ret r) words ->
  exists hs, hits_of_words f words = Ret hs.
Proof.
  induction 1 as [|w words (r & Hr) _ (hs & Hhs)]; simpl; [eauto|].
  rewrite Hr, Hhs. simpl. eauto.
Qed.

(** A page without tables yields hits as soon as its words can be grouped
    into lines. *)
Lemma process_page_returns xt yt pn pg line_map :
  tables_of pg = [] ->
  group_words_by_line (extract_words pg xt yt) ten = Ret line_map ->
  exists hits, process_page xt yt pn pg = Ret hits.
Proof.
  intros Ht Hg. unfold process_page. rewrite Hg, Ht. simpl.
  assert (Hd : exists ps, detect_scale_phrase (extract_words pg xt yt) = Ret ps).
  { unfold detect_scale_phrase, _lines_by_y.
    unfold group_words_by_line in Hg.
    destruct (extract_words pg xt yt); [eauto|]. rewrite Hg. simpl. eauto. }
  destruct Hd as (ps & ->). simpl.
  apply hits_of_words_returns.
  unfold group_words_by_line in Hg. apply lines_loop_keys_defined in Hg.
  eapply Forall_impl; [|exact Hg].
  intros w Hw. apply hit_of_word_returns. exact Hw.
Qed.

(** C9. When table discovery raises on a page, the page is processed as a
    page with no tables.  The result is that of the same page without
    tables; as soon as the words can be grouped into lines there is a
    result, with one hit for each word the token parser accepts, in the
    order of the words; no table is attached to a hit, and every hit carries
    the page-level scale. *)
Theorem C9_table_failure_is_no_tables xt yt pn pg e :
  find_tables pg = Raise e ->
  process_page xt yt pn pg = process_page xt yt pn (no_tables pg)
  /\ (forall line_map,
        group_words_by_line (extract_words pg xt yt) ten = Ret line_map ->
        exists hits,
          process_page xt yt pn pg = Ret hits
          /\ map raw_text hits
             = filter accepted (map text (extract_words pg xt yt)))
  /\ (forall hits h,
        process_page xt yt pn pg = Ret hits -> In h hits ->
        table_bbox h = None
        /\ detect_scale_phrase (extract_words pg xt yt) = Ret (scale_of h)).
Proof.
  intros Hf.
  assert (Ht : tables_of pg = []) by (unfold tables_of; rewrite Hf; reflexivity).
  split; [|split].
  - unfold process_page, tables_of. rewrite Hf. reflexivity.
  - intros lm Hg.
    destruct (@process_page_returns xt yt pn pg lm Ht Hg) as (hits & H).
    exists hits. split; [exact H|].
    unfold process_page in H.
    apply bind_ret in H as (lm' & _ & H).
    apply bind_ret in H as (tss & _ & H).
    apply bind_ret in H as (ps & _ & H).
    eapply hits_of_words_texts; [|exact H].
    intros w r Hr. eapply hit_of_word_accepted; exact Hr.
  - intros hits h H Hin.
    destruct (@table_scale_resolution _ _ _ _ _ _ H Hin)
      as (tss & ps & Htss & Hps & _ & Hnone).
    unfold scales_of_regions in Htss. rewrite Ht in Htss.
    inversion Htss; subst.
    destruct (Hnone (Forall_nil _)) as [-> ->]. auto.
Qed.

Lemma C9_table_failure_is_no_tables_witness :
  find_tables failing_page = Raise ValueError
  /\ group_words_by_line (extract_words failing_page one one) ten
     = Ret failing_lines
  /\ process_page one one 1 failing_page = Ret failing_hits
  /\ map raw_text failing_hits = [py "1,250"; py "340"]
  /\ process_page one one 1 failing_page
     = process_page one one 1 (no_tables failing_page)
  /\ (forall line_map,
        group_words_by_line (extract_words failing_page one one) ten
        = Ret line_map ->
        exists hits,
          process_page one one 1 failing_page = Ret hits
          /\ map raw_text hits
             = filter accepted (map text (extract_words failing_page one one)))
  /\ (forall hits h,
        process_page one one 1 failing_page = Ret hits -> In h hits ->
        table_bbox h = None
        /\ detect_scale_phrase (extract_words failing_page one one)
           = Ret (scale_of h)).
Proof.
  split; [reflexivity|].
  split; [vm_compute; reflexivity|].
  split; [vm_compute; reflexivity|].
  split; [vm_compute; reflexivity|].
  exact (@C9_table_failure_is_no_tables one one 1 failing_page ValueError
           eq_refl).
Defined.

(** ** Footnote glyphs after a token *)

Section Tail.

Variable ic : bool.
Variable g : str.
Variable Q : state -> state -> Prop.

Lemma reaches_refl st : reaches st st.
Proof. exists []. simpl. split; [reflexivity | lia]. Qed.

Lemma reaches_trans a b c : reaches a b -> reaches b c -> reaches a c.
Proof.
  intros (m1 & E1 & P1) (m2 & E2 & P2). exists (m1 ++ m2).
  rewrite E1, E2, <- app_assoc, length_app. split; [reflexivity | lia].
Qed.

Lemma eat_tail p st k k' :
  (forall c, In c g -> p c = false) ->
  (forall st1, reaches st st1 -> outcomes Q (k st1) (k' (with_tail g st1))) ->
  outcomes Q (eat p st k) (eat p (with_tail g st) k').
Proof.
  intros Hp Hk. unfold eat. cbn [with_tail rest].
  destruct (rest st) as [|ch s] eqn:E; cbn [app].
  - destruct g as [|c g']; [exact I|].
    rewrite (Hp c (or_introl eq_refl)). exact I.
  - destruct (p ch); [|exact I].
    apply (Hk (advance ch s st)). exists [ch]. rewrite E. simpl.
    split; [reflexivity | lia].
Qed.

Lemma star_tail body body' k k' :
  (forall st K K',
     (forall st1, reaches st st1 -> outcomes Q (K st1) (K' (with_tail g st1))) ->
     outcomes Q (body st K) (body' (with_tail g st) K')) ->
  forall fuel fuel' st,
    (List.length (rest st) < fuel)%nat ->
    (List.length (rest st ++ g) < fuel')%nat ->
    (forall st1, reaches st st1 -> outcomes Q (k st1) (k' (with_tail g st1))) ->
    outcomes Q (star_loop body k fuel st)
               (star_loop body' k' fuel' (with_tail g st)).
Proof.
  intros Hb. induction fuel as [|fuel IH]; intros fuel' st Hf Hf' Hk; [lia|].
  destruct fuel' as [|fuel']; [lia|]. cbn [star_loop].
  match goal with
  | |- outcomes Q (match body st ?K with _ => _ end)
                  (match body' _ ?K' with _ => _ end) =>
      assert (HB : outcomes Q (body st K) (body' (with_tail g st) K'))
  end.
  { apply Hb. intros st1 Hr. cbn [with_tail pos].
    destruct (Nat.ltb (pos st) (pos st1)) eqn:El; [|exact I].
    apply Nat.ltb_lt in El. destruct Hr as (mid & E & P).
    apply IH.
    - rewrite E, length_app in Hf. lia.
    - rewrite E, <- app_assoc, length_app in Hf'. lia.
    - intros st2 Hr2. apply Hk.
      eapply reaches_trans; [|exact Hr2]. exists mid. auto. }
  destruct (body st _) as [a|], (body' (with_tail g st) _) as [b|];
    try exact HB; try destruct HB.
  apply Hk. apply reaches_refl.
Qed.

(** An expression that eats no character of [g] and does not look ahead
    runs on [st] as it does on [st] with [g] appended. *)
Lemma run_tail r :
  looks_ahead r = false -> (forall c, In c g -> eats ic r c = false) ->
  forall st k k',
    (forall st1, reaches st st1 -> outcomes Q (k st1) (k' (with_tail g st1))) ->
    outcomes Q (run ic r st k) (run ic r (with_tail g st) k').
Proof.
  induction r as [ | c | items | | | | | | r1 IH1 r2 IH2 | r1 IH1 r2 IH2
                 | r1 IH1 | n r1 IH1 ]; intros Hl He st k k' Hk;
    cbn [run]; cbn [looks_ahead] in Hl; cbn [eats] in He;
    try discriminate Hl.
  - apply Hk, reaches_refl.
  - apply eat_tail; assumption.
  - apply eat_tail; assumption.
  - apply eat_tail; assumption.
  - apply eat_tail; assumption.
  - cbn [with_tail pos]. destruct (pos st); [apply Hk, reaches_refl | exact I].
  - apply orb_false_iff in Hl as [Hl1 Hl2].
    apply IH1; [assumption | |].
    + intros c Hc. specialize (He c Hc). apply orb_false_iff in He. tauto.
    + intros st1 Hr1. apply IH2; [assumption | |].
      * intros c Hc. specialize (He c Hc). apply orb_false_iff in He. tauto.
      * intros st2 Hr2. apply Hk. eapply reaches_trans; eassumption.
  - apply orb_false_iff in Hl as [Hl1 Hl2].
    assert (H1 : outcomes Q (run ic r1 st k) (run ic r1 (with_tail g st) k')).
    { apply IH1; [assumption | | assumption].
      intros c Hc. specialize (He c Hc). apply orb_false_iff in He. tauto. }
    assert (H2 : outcomes Q (run ic r2 st k) (run ic r2 (with_tail g st) k')).
    { apply IH2; [assumption | | assumption].
      intros c Hc. specialize (He c Hc). apply orb_false_iff in He. tauto. }
    destruct (run ic r1 st k), (run ic r1 (with_tail g st) k');
      try exact H1; try destruct H1. exact H2.
  - apply star_tail; [| cbn [with_tail rest]; lia | cbn [with_tail rest]; lia
                      | assumption].
    intros st0 K K' HK. apply IH1; assumption.
  - apply IH1; [assumption | assumption |].
    intros st1 Hr1.
    apply (Hk (set_cap n (pos st) (pos st1) st1)).
    destruct Hr1 as (mid & E & P). exists mid. auto.
Qed.

End Tail.

(** Positions only grow, and a span ends at or before the position. *)
Lemma Matches_spans_bounded ic r st st' :
  Matches ic r st st' ->
  (forall n a b, get_cap n (caps st) = Some (a, b) -> (b <= pos st)%nat) ->
  (pos st <= pos st')%nat
  /\ forall n a b, get_cap n (caps st') = Some (a, b) -> (b <= pos st')%nat.
Proof.
  induction 1 as [ st | c ch s st Hr Hp | items ch s st Hr Hp
                 | ch s st Hr Hp | ch s st Hr Hp | st Hx | st Hp | st He
                 | r1 r2 st st1 st2 _ IH1 _ IH2 | r1 r2 st st' _ IH
                 | r1 r2 st st' _ IH | r st | r st st1 st2 _ IH1 Hlt _ IH2
                 | n r st st' _ IH ]; intros Hb;
    try (split; [lia | exact Hb]);
    try (cbn [advance pos caps]; split; [lia|];
         intros n a b Hn; specialize (Hb n a b Hn); lia);
    try (apply IH; exact Hb).
  - destruct (IH1 Hb) as [P1 B1]. destruct (IH2 B1) as [P2 B2].
    split; [lia | exact B2].
  - destruct (IH1 Hb) as [P1 B1]. destruct (IH2 B1) as [P2 B2].
    split; [lia | exact B2].
  - destruct (IH Hb) as [P1 B1]. cbn [set_cap pos caps get_cap].
    split; [exact P1|]. intros m a b.
    destruct (Nat.eqb n m); [intros [= <- <-]; lia | apply B1].
Qed.

Lemma slice_app_bounded (s g : str) a b :
  (b <= List.length s)%nat -> slice (s ++ g) a b = slice s a b.
Proof.
  intros Hb. unfold slice.
  destruct (Nat.le_gt_cases a (List.length s)) as [Ha|Ha].
  - rewrite skipn_app. replace (a - List.length s)%nat with 0%nat by lia.
    cbn [skipn]. rewrite firstn_app, length_skipn.
    replace (b - a - (List.length s - a))%nat with 0%nat by lia.
    cbn [firstn]. apply app_nil_r.
  - replace (b - a)%nat with 0%nat by lia. reflexivity.
Qed.

Lemma no_trailing_space_suffix (x y : str) :
  no_trailing_space (x ++ y) -> no_trailing_space y.
Proof.
  intros H z c E. apply (H (x ++ z) c). rewrite E, app_assoc. reflexivity.
Qed.

Lemma no_trailing_space_spaces (x w : str) :
  no_trailing_space (x ++ w) -> Forall (fun c => is_space c = true) w -> w = [].
Proof.
  intros H Hw. destruct w as [|c w]; [reflexivity|]. exfalso.
  assert (Hne : c :: w <> []) by discriminate.
  destruct (exists_last Hne) as (y & z & E). rewrite E in *.
  rewrite Forall_forall in Hw.
  assert (Hz : is_space z = true).
  { apply Hw. apply in_or_app. right. left. reflexivity. }
  rewrite (H (x ++ y) z) in Hz; [discriminate | apply app_assoc].
Qed.

Lemma no_trailing_space_foot (x g : str) :
  no_trailing_space x -> Forall (fun c => is_foot c = true) g ->
  no_trailing_space (x ++ g).
Proof.
  intros Hx Hg. destruct g as [|c g]; [rewrite app_nil_r; exact Hx|].
  intros y z E.
  assert (Hne : c :: g <> []) by discriminate.
  destruct (exists_last Hne) as (g0 & z0 & E0). rewrite E0 in *.
  rewrite app_assoc in E. apply app_inj_tail in E as [_ <-].
  apply foot_not_space. rewrite Forall_forall in Hg. apply Hg.
  apply in_or_app. right. left. reflexivity.
Qed.

(** What the end of [NUM_RE] can match: footnote glyphs, then white
    space. *)
Lemma tail_shape st res :
  run false NUM_TAIL st Some = Some res ->
  exists f w, rest st = f ++ w
              /\ Forall (fun c => is_foot c = true) f
              /\ Forall (fun c => is_space c = true) w.
Proof.
  intros H. apply run_sound in H as (st' & M & _).
  unfold NUM_TAIL in M.
  inversion M as [ | | | | | | | | ? ? ? s1 ? M1 M' | | | | | ]; subst; clear M.
  inversion M' as [ | | | | | | | | ? ? ? s2 ? M2 M3 | | | | | ]; subst; clear M'.
  destruct (@Matches_consumed _ _ _ _ M1) as (f & E1 & _ & F1).
  destruct (@Matches_consumed _ _ _ _ M2) as (w & E2 & _ & F2).
  inversion M3 as [ | | | | | | | st3 He | | | | | | ]; subst; clear M3.
  exists f, (w ++ rest st'). rewrite E1, E2. split; [reflexivity|].
  split; [exact F1|]. apply Forall_app. split; [exact F2|].
  destruct He as [-> | ->]; repeat constructor.
Qed.

(** On a token without trailing white space the end of [NUM_RE] matches
    exactly the runs of footnote glyphs. *)
Lemma tail_tail g st :
  Forall (fun c => is_foot c = true) g ->
  no_trailing_space (rest st) ->
  outcomes same_groups (run false NUM_TAIL st Some)
                       (run false NUM_TAIL (with_tail g st) Some).
Proof.
  intros Hg Hc.
  destruct (forallb is_foot (rest st)) eqn:Ef.
  - assert (F : Forall (fun c => is_foot c = true) (rest st)).
    { apply Forall_forall. rewrite forallb_forall in Ef. exact Ef. }
    assert (F' : Forall (fun c => is_foot c = true) (rest (with_tail g st))).
    { cbn [with_tail rest]. apply Forall_app. split; assumption. }
    rewrite (@tail_foot st F), (@tail_foot (with_tail g st) F').
    cbn [outcomes]. intros n Hn.
    cbn [set_cap caps get_cap]. rewrite !eat_all_caps.
    destruct n as [|[|[|[|[|n]]]]]; try reflexivity. congruence.
  - assert (N : ~ Forall (fun c => is_foot c = true) (rest st)).
    { intros F. rewrite Forall_forall in F.
      assert (forallb is_foot (rest st) = true)
        by (apply forallb_forall; exact F). congruence. }
    destruct (run false NUM_TAIL st Some) as [a|] eqn:Ea.
    + exfalso. apply N. destruct (@tail_shape _ _ Ea) as (f & w & E & Ff & Fw).
      rewrite E in Hc. rewrite (@no_trailing_space_spaces _ _ Hc Fw) in E.
      rewrite E, app_nil_r. exact Ff.
    + destruct (run false NUM_TAIL (with_tail g st) Some) as [b|] eqn:Eb;
        [|exact I].
      exfalso. apply N. destruct (@tail_shape _ _ Eb) as (f & w & E & Ff & Fw).
      cbn [with_tail rest] in E.
      pose proof (@no_trailing_space_foot _ _ Hc Hg) as Hc'.
      rewrite E in Hc'. rewrite (@no_trailing_space_spaces _ _ Hc' Fw) in E.
      rewrite app_nil_r in E. rewrite <- E in Ff.
      apply Forall_app in Ff. tauto.
Qed.

Lemma foot_not_front c : is_foot c = true -> eats false NUM_FRONT c = false.
Proof.
  intros H. apply foot_cases in H. simpl in H.
  repeat (destruct H as [<-|H]; [vm_compute; reflexivity|]). destruct H.
Qed.

(** The match of [NUM_RE] on a token and on the token followed by
    footnote glyphs: the same outcome and the same groups. *)
Lemma pmatch_foot s g :
  no_trailing_space s -> Forall (fun c => is_foot c = true) g ->
  match pmatch NUM_RE s, pmatch NUM_RE (s ++ g) with
  | Some m, Some m' =>
      group m' 1 = group m 1 /\ group m' 2 = group m 2
      /\ group m' 3 = group m 3
  | None, None => True
  | _, _ => False
  end.
Proof.
  intros Hs Hg. unfold pmatch, match_at.
  set (st0 := mkState None 0 s []).
  change (mkState None 0 (s ++ g) []) with (with_tail g st0).
  change (run (ignorecase NUM_RE) (expr NUM_RE) st0 Some)
    with (run false NUM_FRONT st0 (fun st' => run false NUM_TAIL st' Some)).
  change (run (ignorecase NUM_RE) (expr NUM_RE) (with_tail g st0) Some)
    with (run false NUM_FRONT (with_tail g st0)
            (fun st' => run false NUM_TAIL st' Some)).
  assert (H : outcomes same_groups
                (run false NUM_FRONT st0 (fun st' => run false NUM_TAIL st' Some))
                (run false NUM_FRONT (with_tail g st0)
                   (fun st' => run false NUM_TAIL st' Some))).
  { apply run_tail; [reflexivity | |].
    - intros c Hc. apply foot_not_front.
      rewrite Forall_forall in Hg. exact (Hg c Hc).
    - intros st1 (mid & E & _). apply tail_tail; [exact Hg|].
      cbn [st0 rest] in E. rewrite E in Hs.
      exact (@no_trailing_space_suffix _ _ Hs). }
  destruct (run false NUM_FRONT st0 _) as [a|] eqn:Ea,
           (run false NUM_FRONT (with_tail g st0) _) as [b|];
    try exact H; try destruct H.
  change (run false NUM_FRONT st0 (fun st' => run false NUM_TAIL st' Some))
    with (run false (expr NUM_RE) st0 Some) in Ea.
  apply run_sound in Ea as (st' & M & [= ->]).
  destruct (@Matches_consumed _ _ _ _ M) as (mid & E & P & _).
  assert (B0 : forall n x y, get_cap n (caps st0) = Some (x, y) ->
                 (y <= pos st0)%nat) by (intros n x y; discriminate).
  destruct (@Matches_spans_bounded _ _ _ _ M B0) as [_ B].
  assert (L : (pos a <= List.length s)%nat).
  { cbn [st0 rest pos] in E, P. rewrite E, length_app. lia. }
  unfold group. cbn [m_caps m_string].
  assert (G : forall n, n <> 4%nat ->
            match get_cap n (caps b) with
            | Some (x, y) => Some (slice (s ++ g) x y)
            | None => None
            end
            = match get_cap n (caps a) with
              | Some (x, y) => Some (slice s x y)
              | None => None
              end).
  { intros n Hn. rewrite <- (H n Hn).
    destruct (get_cap n (caps a)) as [[x y]|] eqn:En; [|reflexivity].
    rewrite slice_app_bounded; [reflexivity|].
    specialize (B n x y En). lia. }
  repeat split; apply G; discriminate.
Qed.

Lemma lstrip_length s : (List.length (lstrip s) <= List.length s)%nat.
Proof.
  induction s as [|c s IH]; simpl; [lia|].
  destruct (is_space c); simpl; lia.
Qed.

Lemma rstrip_no_trailing_space t : rstrip t = t <-> no_trailing_space t.
Proof.
  unfold rstrip. split.
  - intros H y c E. subst t. rewrite rev_unit in H. cbn [lstrip] in H.
    destruct (is_space c); [|reflexivity]. exfalso.
    apply (f_equal (@List.length _)) in H.
    rewrite length_rev, length_app in H. simpl in H.
    pose proof (lstrip_length (rev y)) as L. rewrite length_rev in L. lia.
  - intros H. destruct t as [|c t] using rev_ind; [reflexivity|].
    rewrite rev_unit. cbn [lstrip]. rewrite (H t c eq_refl).
    cbn [rev]. rewrite rev_involutive. reflexivity.
Qed.

Lemma lstrip_suffix t : exists pre, t = pre ++ lstrip t.
Proof.
  induction t as [|c t (pre & IH)]; simpl; [exists []; reflexivity|].
  destruct (is_space c).
  - exists (c :: pre). simpl. rewrite <- IH. reflexivity.
  - exists []. reflexivity.
Qed.

Lemma lstrip_app_foot t g :
  no_trailing_space t -> Forall (fun c => is_foot c = true) g ->
  lstrip (t ++ g) = lstrip t ++ g.
Proof.
  intros Ht Hg. induction t as [|c t IH]; simpl.
  - destruct g as [|z g]; [reflexivity|].
    inversion Hg; subst. apply lstrip_keep. apply foot_not_space. assumption.
  - destruct (is_space c); [|reflexivity].
    apply IH. exact (@no_trailing_space_suffix [c] t Ht).
Qed.

(** Stripping a token that goes on with footnote glyphs. *)
Lemma strip_app_foot t g :
  no_trailing_space t -> Forall (fun c => is_foot c = true) g ->
  strip (t ++ g) = strip t ++ g /\ no_trailing_space (strip t).
Proof.
  intros Ht Hg.
  assert (Hl : no_trailing_space (lstrip t)).
  { destruct (lstrip_suffix t) as (pre & E). rewrite E in Ht.
    exact (@no_trailing_space_suffix _ _ Ht). }
  unfold strip. rewrite (@lstrip_app_foot _ _ Ht Hg).
  rewrite (proj2 (rstrip_no_trailing_space (lstrip t)) Hl).
  split; [|exact Hl].
  apply rstrip_no_trailing_space. apply no_trailing_space_foot; assumption.
Qed.

(** Footnote glyphs after a token without trailing white space leave the
    result of [parse_number] unchanged. *)
Lemma parse_number_foot t g :
  rstrip t = t -> Forall (fun c => is_foot c = true) g ->
  parse_number (t ++ g) = parse_number t.
Proof.
  intros Ht Hg. apply rstrip_no_trailing_space in Ht.
  destruct (@strip_app_foot _ _ Ht Hg) as [Es Hs].
  unfold parse_number. rewrite Es.
  pose proof (@pmatch_foot _ _ Hs Hg) as H.
  destruct (pmatch NUM_RE (strip t)) as [m|],
           (pmatch NUM_RE (strip t ++ g)) as [m'|];
    [ | destruct H | destruct H | reflexivity ].
  destruct H as (-> & -> & ->). reflexivity.
Qed.

(** C5. The claim's tokens: ["1,234.56"] is 1234.56, ["(1,234)"] is
    -1234.0, ["12%"] and ["abc"] are rejected, ["$0.5"] is 0.5; and a run
    of footnote glyphs (asterisk, dagger, double dagger, superscripts)
    after a token changes nothing, for every token that does not end in
    white space. *)
Theorem C5_parse_number_examples :
  parse_number (py "1,234.56") = Ret (Some (of_decimal false 123456 (-2)))
  /\ of_decimal false 123456 (-2) = S754_finite false 5429652300748554 (-42)
  /\ parse_number (py "(1,234)") = Ret (Some (of_Z (-1234)))
  /\ parse_number (py "12%") = Ret None
  /\ parse_number (py "$0.5") = Ret (Some (of_decimal false 5 (-1)))
  /\ parse_number (py "abc") = Ret None
  /\ forall t g,
       rstrip t = t -> Forall (fun c => is_foot c = true) g ->
       parse_number (t ++ g) = parse_number t.
Proof.
  do 6 (split; [vm_compute; reflexivity|]).
  exact parse_number_foot.
Qed.

Lemma C5_parse_number_examples_witness :
  rstrip (py "7") = py "7"
  /\ Forall (fun c => is_foot c = true) [42%N; 0xB9%N]
  /\ parse_number (py "7" ++ [42%N; 0xB9%N]) = parse_number (py "7")
  /\ rstrip (py "(0.5)") = py "(0.5)"
  /\ Forall (fun c => is_foot c = true) [0x2020%N]
  /\ parse_number (py "(0.5)" ++ [0x2020%N]) = parse_number (py "(0.5)").
Proof.
  assert (R1 : rstrip (py "7") = py "7") by reflexivity.
  assert (F1 : Forall (fun c => is_foot c = true) [42%N; 0xB9%N])
    by (repeat constructor).
  assert (R2 : rstrip (py "(0.5)") = py "(0.5)") by reflexivity.
  assert (F2 : Forall (fun c => is_foot c = true) [0x2020%N])
    by (repeat constructor).
  pose proof C5_parse_number_examples as (_ & _ & _ & _ & _ & _ & H).
  split; [exact R1 | split; [exact F1 | split; [exact (H _ _ R1 F1)|]]].
  split; [exact R2 | split; [exact F2 | exact (H _ _ R2 F2)]].
Defined.

(** ** Completeness of the matcher *)

Lemma star_loop_base body k fuel st :
  k st <> None -> star_loop body k fuel st <> None.
Proof.
  intros Hk. destruct fuel as [|fuel]; cbn [star_loop]; [exact Hk|].
  destruct (body st _); [discriminate | exact Hk].
Qed.

Lemma eat_complete p ch s st k :
  rest st = ch :: s -> p ch = true -> k (advance ch s st) <> None ->
  eat p st k <> None.
Proof. intros Hr Hp Hk. unfold eat. rewrite Hr, Hp. exact Hk. Qed.

Lemma star_step ic r k st st1 fuel :
  (forall K, K st1 <> None -> run ic r st K <> None) ->
  (pos st < pos st1)%nat ->
  star_loop (run ic r) k fuel st1 <> None ->
  star_loop (run ic r) k (S fuel) st <> None.
Proof.
  intros Hr Hlt Hs. cbn [star_loop].
  match goal with
  | |- match run ic r st ?K with _ => _ end <> None =>
      assert (HK : run ic r st K <> None)
  end.
  { apply Hr. apply Nat.ltb_lt in Hlt. rewrite Hlt. exact Hs. }
  destruct (run ic r st _); [discriminate | contradiction].
Qed.

(** Completeness of the matcher: when the expression has a match after
    which the continuation succeeds, the run succeeds. *)
Lemma run_complete ic r st st' :
  Matches ic r st st' ->
  forall k, k st' <> None ->
    run ic r st k <> None
    /\ forall r0, r = Star r0 -> forall fuel,
         (List.length (rest st) < fuel)%nat ->
         star_loop (run ic r0) k fuel st <> None.
Proof.
  induction 1 as [ st | c ch s st Hr Hp | items ch s st Hr Hp
                 | ch s st Hr Hp | ch s st Hr Hp | st Hx | st Hp | st He
                 | r1 r2 st st1 st2 M1 IH1 M2 IH2 | r1 r2 st st' M IH
                 | r1 r2 st st' M IH | r st | r st st1 st2 M1 IH1 Hlt M2 IH2
                 | n r st st' M IH ]; intros k Hk;
    (split; [|try (intros r0 E; discriminate E)]); cbn [run].
  - exact Hk.
  - eapply eat_complete; eassumption.
  - eapply eat_complete; eassumption.
  - eapply eat_complete; eassumption.
  - eapply eat_complete; eassumption.
  - rewrite Hx. exact Hk.
  - rewrite Hp. exact Hk.
  - destruct He as [-> | ->]; exact Hk.
  - apply IH1. apply IH2. exact Hk.
  - destruct (run ic r1 st k) eqn:E; [discriminate|].
    exfalso. exact (proj1 (IH k Hk) E).
  - destruct (run ic r1 st k); [discriminate|]. apply IH. exact Hk.
  - apply star_loop_base. exact Hk.
  - intros r0 [= <-] fuel _. apply star_loop_base. exact Hk.
  - apply (@star_step ic r k st st1); [intros K HK; apply IH1; exact HK | exact Hlt |].
    apply (proj2 (IH2 k Hk) r eq_refl).
    destruct (@Matches_consumed _ _ _ _ M1) as (mid & E & P & _).
    rewrite E, length_app. lia.
  - intros r0 [= <-] fuel Hf.
    destruct fuel as [|fuel]; [lia|].
    apply (@star_step ic r k st st1); [intros K HK; apply IH1; exact HK | exact Hlt |].
    apply (proj2 (IH2 k Hk) r eq_refl).
    destruct (@Matches_consumed _ _ _ _ M1) as (mid & E & P & _).
    rewrite E, length_app in Hf. lia.
  - apply IH. exact Hk.
Qed.

Lemma match_at_complete p whole pr i s st' :
  Matches (ignorecase p) (expr p) (mkState pr i s []) st' ->
  match_at p whole pr i s <> None.
Proof.
  intros M. unfold match_at.
  assert (Hk : Some st' <> None) by discriminate.
  pose proof (proj1 (@run_complete _ _ _ _ M Some Hk)) as H.
  destruct (run _ _ _ _); [discriminate | contradiction].
Qed.

Lemma match_at_sound p whole pr i s m :
  match_at p whole pr i s = Some m ->
  exists st', Matches (ignorecase p) (expr p) (mkState pr i s []) st'.
Proof.
  unfold match_at. destruct (run _ _ _ _) as [st|] eqn:R; [|discriminate].
  intros _. apply run_sound in R as (st' & M & _). eauto.
Qed.

Lemma search_from_complete p whole : forall a pr i b st',
  Matches (ignorecase p) (expr p)
          (mkState (last_of pr a) (i + List.length a) b []) st' ->
  search_from p whole pr i (a ++ b) <> None.
Proof.
  induction a as [|c a IH]; intros pr i b st' M; cbn [app].
  - cbn [last_of List.length] in M. rewrite Nat.add_0_r in M.
    apply (@match_at_complete p whole) in M.
    destruct b; cbn [search_from]; destruct (match_at _ _ _ _ _);
      try discriminate; contradiction.
  - cbn [search_from]. destruct (match_at _ _ _ _ _); [discriminate|].
    eapply IH. cbn [last_of List.length] in M.
    rewrite Nat.add_succ_r in M. exact M.
Qed.

Lemma search_from_sound p whole : forall s pr i m,
  search_from p whole pr i s = Some m ->
  exists a b st',
    s = a ++ b
    /\ Matches (ignorecase p) (expr p)
               (mkState (last_of pr a) (i + List.length a) b []) st'.
Proof.
  induction s as [|c s IH]; intros pr i m H; cbn [search_from] in H.
  - destruct (match_at p whole pr i []) eqn:E; [|discriminate].
    apply match_at_sound in E as (st' & M).
    exists [], [], st'. cbn [last_of List.length]. rewrite Nat.add_0_r. auto.
  - destruct (match_at p whole pr i (c :: s)) eqn:E.
    + apply match_at_sound in E as (st' & M).
      exists [], (c :: s), st'. cbn [last_of List.length].
      rewrite Nat.add_0_r. auto.
    + apply IH in H as (a & b & st' & -> & M).
      exists (c :: a), b, st'. cbn [last_of List.length].
      rewrite Nat.add_succ_r. auto.
Qed.

(** [p.search(txt)] finds a match exactly when there is one. *)
Lemma found_occurs p txt : found p txt = true <-> occurs p txt.
Proof.
  unfold found, occurs, search. split.
  - destruct (search_from p txt None 0 txt) as [m|] eqn:E; [|discriminate].
    intros _. apply search_from_sound in E as (a & b & st' & E & M).
    exists a, b, st'. auto.
  - intros (a & b & st' & -> & M).
    apply (@search_from_complete p (a ++ b) a None 0 b st') in M.
    destruct (search_from _ _ _ _ _); [reflexivity | contradiction].
Qed.

(** ** The strings of an expression *)

Lemma last_of_app a b : forall pr, last_of pr (a ++ b) = last_of (last_of pr a) b.
Proof. induction a as [|c a IH]; intros pr; simpl; auto. Qed.

(** A match of an expression without anchors eats a string of the
    expression. *)
Lemma Matches_lang ic r st st' :
  Matches ic r st st' -> plain r = true ->
  exists w, lang ic r w /\ rest st = w ++ rest st'
            /\ prev st' = last_of (prev st) w
            /\ pos st' = (pos st + List.length w)%nat.
Proof.
  induction 1 as [ st | c ch s st Hr Hp | items ch s st Hr Hp
                 | ch s st Hr Hp | ch s st Hr Hp | st Hx | st Hp | st He
                 | r1 r2 st st1 st2 M1 IH1 M2 IH2 | r1 r2 st st' M IH
                 | r1 r2 st st' M IH | r st | r st st1 st2 M1 IH1 Hlt M2 IH2
                 | n r st st' M IH ]; cbn [plain]; intros Hpl;
    try discriminate Hpl;
    try (exists [ch]; cbn [lang advance rest prev pos last_of List.length app];
         repeat split; [eauto | assumption | lia]).
  - exists []. cbn. repeat split; lia.
  - apply andb_true_iff in Hpl as [P1 P2].
    destruct (IH1 P1) as (w1 & L1 & E1 & V1 & N1).
    destruct (IH2 P2) as (w2 & L2 & E2 & V2 & N2).
    exists (w1 ++ w2). cbn [lang]. rewrite last_of_app, length_app.
    repeat split.
    + exists w1, w2. auto.
    + rewrite E1, E2, app_assoc. reflexivity.
    + rewrite V2, V1. reflexivity.
    + lia.
  - apply andb_true_iff in Hpl as [P1 P2].
    destruct (IH P1) as (w & L & E & V & N). exists w. cbn [lang]. auto.
  - apply andb_true_iff in Hpl as [P1 P2].
    destruct (IH P2) as (w & L & E & V & N). exists w. cbn [lang]. auto.
  - exists []. cbn. repeat split; [constructor | lia].
  - destruct (IH1 Hpl) as (w1 & L1 & E1 & V1 & N1).
    destruct (IH2 Hpl) as (w2 & L2 & E2 & V2 & N2).
    exists (w1 ++ w2). cbn [lang] in *. rewrite last_of_app, length_app.
    repeat split.
    + constructor; [assumption | | assumption].
      intros ->. simpl in N1. lia.
    + rewrite E1, E2, app_assoc. reflexivity.
    + rewrite V2, V1. reflexivity.
    + lia.
  - destruct (IH Hpl) as (w & L & E & V & N). exists w. cbn [lang]. auto.
Qed.

(** Every string of an expression is matched by it, wherever it stands. *)
Lemma lang_Matches ic r : forall w, lang ic r w ->
  forall st b, rest st = w ++ b ->
  exists st', Matches ic r st st' /\ rest st' = b
              /\ prev st' = last_of (prev st) w
              /\ pos st' = (pos st + List.length w)%nat.
Proof.
  induction r as [ | c | items | | | | | | r1 IH1 r2 IH2 | r1 IH1 r2 IH2
                 | r1 IH1 | n r1 IH1 ]; cbn [lang]; intros w Hw st b Hr;
    try contradiction;
    try (destruct Hw as (ch & -> & Hc); exists (advance ch b st);
         cbn [advance rest prev pos last_of List.length];
         repeat split; [constructor; assumption | lia]).
  - subst w. exists st. cbn [app] in Hr. cbn [last_of List.length].
    split; [apply MEmpty|]. split; [exact Hr|]. split; [reflexivity | lia].
  - destruct Hw as (w1 & w2 & -> & L1 & L2).
    rewrite <- app_assoc in Hr.
    destruct (IH1 w1 L1 st (w2 ++ b) Hr) as (st1 & M1 & E1 & V1 & N1).
    destruct (IH2 w2 L2 st1 b E1) as (st2 & M2 & E2 & V2 & N2).
    exists st2. rewrite last_of_app, length_app.
    repeat split; [econstructor; eassumption | assumption | congruence | lia].
  - destruct Hw as [L|L].
    + destruct (IH1 w L st b Hr) as (st' & M & E). exists st'.
      split; [apply MAltL; assumption | assumption].
    + destruct (IH2 w L st b Hr) as (st' & M & E). exists st'.
      split; [apply MAltR; assumption | assumption].
  - revert st Hr. induction Hw as [|x y Hx Hne Hy IHy]; intros st Hr.
    + exists st. cbn [app] in Hr. cbn [last_of List.length].
      split; [apply MStarO|]. split; [exact Hr|]. split; [reflexivity | lia].
    + rewrite <- app_assoc in Hr.
      destruct (IH1 x Hx st (y ++ b) Hr) as (st1 & M1 & E1 & V1 & N1).
      destruct (IHy st1 E1) as (st2 & M2 & E2 & V2 & N2).
      exists st2. rewrite last_of_app, length_app.
      repeat split; [| assumption | congruence | lia].
      eapply MStarS; [eassumption | | assumption].
      destruct x; [contradiction | simpl in N1; lia].
  - destruct (IH1 w Hw st b Hr) as (st' & M & E & V & N).
    exists (set_cap n (pos st) (pos st') st').
    split; [constructor; assumption | auto].
Qed.

(** ** The vocabularies of the unit classifier *)

Lemma lang_Seq_cons ic r r' rs w :
  lang ic (Seq (r :: r' :: rs)) w
  <-> exists w1 w2, w = w1 ++ w2 /\ lang ic r w1 /\ lang ic (Seq (r' :: rs)) w2.
Proof. reflexivity. Qed.

Lemma lang_Seq_one ic r w : lang ic (Seq [r]) w <-> lang ic r w.
Proof. reflexivity. Qed.

Lemma lang_Alts_iff ic rs w : rs <> [] ->
  (lang ic (Alts rs) w <-> exists r, In r rs /\ lang ic r w).
Proof.
  induction rs as [|r rs IH]; [contradiction|]. intros _.
  destruct rs as [|r' rs].
  - cbn [Alts]. split; [intros H; exists r; simpl; auto|].
    intros (r0 & [<-|[]] & H). exact H.
  - change (lang ic (Alts (r :: r' :: rs)) w)
      with (lang ic r w \/ lang ic (Alts (r' :: rs)) w).
    rewrite IH by discriminate. split.
    + intros [H|(r0 & Hin & H)]; [exists r | exists r0]; simpl; auto.
    + intros (r0 & [<-|Hin] & H); [left; exact H | right; exists r0; auto].
Qed.

Lemma lang_Lits ic l : forall w,
  lang ic (Seq (map Lit l)) w
  <-> Forall2 (fun c ch => lit_match ic c ch = true) l w.
Proof.
  induction l as [|c l IH]; intros w.
  - cbn [map Seq lang]. split; [intros ->; constructor | inversion 1; reflexivity].
  - destruct l as [|c' l].
    + cbn [map Seq lang]. split.
      * intros (ch & -> & H). repeat constructor. exact H.
      * intros H. inversion H as [|? ch ? l' Hc Hl]; subst.
        inversion Hl; subst. eauto.
    + change (map Lit (c :: c' :: l)) with (Lit c :: Lit c' :: map Lit l).
      rewrite lang_Seq_cons. split.
      * intros (w1 & w2 & -> & (ch & -> & Hc) & H2).
        constructor; [exact Hc|]. apply IH. exact H2.
      * intros H. inversion H as [|? ch ? l' Hc Hl]; subst.
        exists [ch], l'. split; [reflexivity|].
        split; [cbn [lang]; eauto|]. apply IH. exact Hl.
Qed.

Lemma lang_Str s w : lang true (Str s) w <-> spells s w.
Proof. apply lang_Lits. Qed.

Lemma lang_Ch (a : ascii) w : lang true (Ch a) w <-> spells (String a "") w.
Proof.
  unfold spells, Ch. cbn [lang]. split.
  - intros (ch & -> & H). repeat constructor. exact H.
  - intros H. inversion H as [|? ch ? l' Hc Hl]; subst.
    inversion Hl; subst. eauto.
Qed.

Lemma lang_Opt ic r w : lang ic (Opt r) w <-> lang ic r w \/ w = [].
Proof. reflexivity. Qed.

Lemma lang_plural e : lang true (Opt (Ch "s")) e <-> plural e.
Proof. unfold plural. rewrite lang_Opt, lang_Ch. reflexivity. Qed.

Lemma star_of_chars (L : str -> Prop) (P : char -> Prop) w :
  (forall x, L x <-> exists ch, x = [ch] /\ P ch) ->
  (star_of L w <-> Forall P w).
Proof.
  intros HL. split.
  - induction 1 as [|x y Hx _ _ IH]; [constructor|].
    apply HL in Hx as (ch & -> & Hp). constructor; assumption.
  - induction 1 as [|c w Hc _ IH]; [constructor|].
    change (c :: w) with ([c] ++ w).
    constructor; [apply HL; eauto | discriminate | exact IH].
Qed.

Lemma lang_spaces ic w : lang ic (Star Space) w <-> spaces w.
Proof.
  cbn [lang]. apply star_of_chars. intros x. reflexivity.
Qed.

Lemma lang_plus_spaces ic w :
  lang ic (Plus Space) w <-> spaces w /\ w <> [].
Proof.
  unfold Plus. change (lang ic (Cat Space (Star Space)) w)
    with (exists w1 w2, w = w1 ++ w2 /\ lang ic Space w1
                        /\ lang ic (Star Space) w2).
  split.
  - intros (w1 & w2 & -> & (ch & -> & Hc) & H2). apply lang_spaces in H2.
    split; [constructor; assumption | discriminate].
  - intros [H Hne]. destruct w as [|c w]; [contradiction|].
    inversion H; subst. exists [c], w. split; [reflexivity|].
    split; [cbn [lang]; eauto | apply lang_spaces; assumption].
Qed.

(** Case folding leaves the characters below the letters alone. *)
Lemma to_lower_below c ch : (c < 65)%N -> to_lower ch = c -> ch = c.
Proof.
  unfold to_lower, is_ascii_upper, in_range. intros Hc.
  repeat match goal with
         | |- context [if ?b then _ else _] =>
             let E := fresh "E" in destruct b eqn:E
         end;
    rewrite ?andb_true_iff, ?N.leb_le, ?N.eqb_eq in *; lia.
Qed.

Lemma lit_match_below c ch :
  (c < 65)%N -> (lit_match true c ch = true <-> ch = c).
Proof.
  intros Hc. unfold lit_match.
  assert (Hl : to_lower c = c).
  { unfold to_lower, is_ascii_upper, in_range.
    repeat match goal with
           | |- context [if ?b then _ else _] =>
               let E := fresh "E" in destruct b eqn:E
           end;
      rewrite ?andb_true_iff, ?N.leb_le, ?N.eqb_eq in *; lia. }
  assert (Hf : case_fixes c = []).
  { unfold case_fixes.
    repeat match goal with
           | |- context [if ?b then _ else _] =>
               let E := fresh "E" in destruct b eqn:E
           end;
      rewrite ?N.eqb_eq in *; try lia; reflexivity. }
  rewrite Hl, Hf. cbn [existsb andb]. rewrite orb_false_r. split.
  - intros H. apply orb_true_iff in H as [H|H]; apply N.eqb_eq in H;
      [exact H | exact (@to_lower_below _ _ Hc H)].
  - intros ->. rewrite N.eqb_refl. reflexivity.
Qed.

Lemma spells_symbol (a : ascii) w :
  (N_of_ascii a < 65)%N -> (spells (String a "") w <-> w = [N_of_ascii a]).
Proof.
  intros Ha. unfold spells.
  change (py (String a "")) with [N_of_ascii a]. split.
  - intros H. inversion H as [|? ch ? l' Hc Hl]; subst. inversion Hl; subst.
    apply (@lit_match_below _ ch Ha) in Hc. subst. reflexivity.
  - intros ->. repeat constructor. apply (@lit_match_below _ _ Ha). reflexivity.
Qed.

Lemma lang_hyphens w :
  lang true (Star (OneOf [SChar 45%N; SSpace])) w
  <-> Forall (fun c => c = 45%N \/ is_space c = true) w.
Proof.
  cbn [lang]. apply star_of_chars. intros x.
  cbn [lang set_match existsb item_match]. split.
  - intros (ch & -> & H). exists ch. split; [reflexivity|].
    rewrite orb_false_r in H. apply orb_true_iff in H as [H|H]; [left | right; exact H].
    apply (@lit_match_below 45%N ch); [reflexivity | exact H].
  - intros (ch & -> & H). exists ch. split; [reflexivity|].
    rewrite orb_false_r. apply orb_true_iff.
    destruct H as [->|H]; [left; reflexivity | right; exact H].
Qed.

Lemma lang_opt_n n :
  lang true (Opt (Group 2 (Ch "n"))) n <-> spells "n" n \/ n = [].
Proof.
  rewrite lang_Opt. change (lang true (Group 2 (Ch "n")) n)
    with (lang true (Ch "n") n). rewrite lang_Ch. reflexivity.
Qed.

Lemma lang_opt_dollar d :
  lang true (Opt (Ch "$")) d <-> d = py "$" \/ d = [].
Proof.
  rewrite lang_Opt, lang_Ch, spells_symbol by reflexivity. reflexivity.
Qed.

Lemma lang_opt_in i :
  lang true (Opt (Cat (Str "in") (Plus Space))) i
  <-> (exists w s, i = w ++ s /\ spells "in" w /\ spaces s /\ s <> [])
      \/ i = [].
Proof.
  rewrite lang_Opt.
  change (lang true (Cat (Str "in") (Plus Space)) i)
    with (exists w s, i = w ++ s /\ lang true (Str "in") w
                      /\ lang true (Plus Space) s).
  split.
  - intros [(w & s & E & Hw & Hs)|H]; [left | right; exact H].
    apply lang_Str in Hw. apply lang_plus_spaces in Hs as [Hs Hne].
    exists w, s. auto.
  - intros [(w & s & E & Hw & Hs & Hne)|H]; [left | right; exact H].
    exists w, s. split; [exact E|].
    split; [apply lang_Str; exact Hw | apply lang_plus_spaces; auto].
Qed.

Lemma lang_kmb k :
  lang true (Alts [Ch "K"; Ch "M"; Ch "B"]) k
  <-> spells "K" k \/ spells "M" k \/ spells "B" k.
Proof.
  change (lang true (Alts [Ch "K"; Ch "M"; Ch "B"]) k)
    with (lang true (Ch "K") k \/ lang true (Ch "M") k \/ lang true (Ch "B") k).
  rewrite !lang_Ch. reflexivity.
Qed.

Lemma lang_open w : lang true (Ch "(") w <-> w = py "(".
Proof. rewrite lang_Ch, spells_symbol by reflexivity. reflexivity. Qed.

Lemma lang_close w : lang true (Ch ")") w <-> w = py ")".
Proof. rewrite lang_Ch, spells_symbol by reflexivity. reflexivity. Qed.

Lemma lang_dollar w : lang true (Ch "$") w <-> w = py "$".
Proof. rewrite lang_Ch, spells_symbol by reflexivity. reflexivity. Qed.

Lemma spells_workyear w :
  spells "workyear" w
  <-> exists a b, w = a ++ b /\ spells "work" a /\ spells "year" b.
Proof.
  unfold spells. change (py "workyear") with (py "work" ++ py "year"). split.
  - intros H. apply Forall2_app_inv_l in H as (a & b & Ha & Hb & ->). eauto.
  - intros (a & b & -> & Ha & Hb). apply Forall2_app; assumption.
Qed.

(** Takes apart a hypothesis on the strings of a sequence. *)
Ltac crack :=
  repeat match goal with
         | H : lang _ (Seq (_ :: _ :: _)) _ |- _ =>
             apply (proj1 (@lang_Seq_cons _ _ _ _ _)) in H;
             destruct H as (? & ? & ? & ? & H)
         | H : lang _ (Seq [_]) _ |- _ =>
             apply (proj1 (@lang_Seq_one _ _ _)) in H
         | H : lang _ (Str _) _ |- _ => apply (proj1 (@lang_Str _ _)) in H
         | H : lang _ (Opt (Ch "s")) _ |- _ =>
             apply (proj1 (@lang_plural _)) in H
         | H : lang _ (Opt (Group 2 (Ch "n"))) _ |- _ =>
             apply (proj1 (@lang_opt_n _)) in H
         | H : lang _ (Opt (Ch "$")) _ |- _ =>
             apply (proj1 (@lang_opt_dollar _)) in H
         | H : lang _ (Opt (Cat (Str "in") (Plus Space))) _ |- _ =>
             apply (proj1 (@lang_opt_in _)) in H
         | H : lang _ (Alts [Ch "K"; Ch "M"; Ch "B"]) _ |- _ =>
             apply (proj1 (@lang_kmb _)) in H
         | H : lang _ (Ch "(") _ |- _ => apply (proj1 (@lang_open _)) in H
         | H : lang _ (Ch ")") _ |- _ => apply (proj1 (@lang_close _)) in H
         | H : lang _ (Star Space) _ |- _ =>
             apply (proj1 (@lang_spaces _ _)) in H
         | H : lang _ (Star (OneOf _)) _ |- _ =>
             apply (proj1 (@lang_hyphens _)) in H
         end; subst.

(** Builds a string of a sequence from its parts. *)
Ltac build :=
  repeat match goal with
         | |- lang _ (Seq (_ :: _ :: _)) _ =>
             apply (proj2 (@lang_Seq_cons _ _ _ _ _)); do 2 eexists;
             split; [reflexivity | split]
         | |- lang _ (Seq [_]) _ => apply (proj2 (@lang_Seq_one _ _ _))
         | |- lang _ (Str _) _ => apply (proj2 (@lang_Str _ _)); assumption
         | |- lang _ (Opt (Ch "s")) _ =>
             apply (proj2 (@lang_plural _)); assumption
         | |- lang _ (Opt (Group 2 (Ch "n"))) _ =>
             apply (proj2 (@lang_opt_n _)); assumption
         | |- lang _ (Opt (Ch "$")) _ =>
             apply (proj2 (@lang_opt_dollar _)); assumption
         | |- lang _ (Opt (Cat (Str "in") (Plus Space))) _ =>
             apply (proj2 (@lang_opt_in _)); assumption
         | |- lang _ (Alts [Ch "K"; Ch "M"; Ch "B"]) _ =>
             apply (proj2 (@lang_kmb _)); assumption
         | |- lang _ (Ch "(") _ => apply (proj2 (@lang_open _)); reflexivity
         | |- lang _ (Ch ")") _ => apply (proj2 (@lang_close _)); reflexivity
         | |- lang _ (Star Space) _ =>
             apply (proj2 (@lang_spaces _ _)); assumption
         | |- lang _ (Star (OneOf _)) _ =>
             apply (proj2 (@lang_hyphens _)); assumption
         end.

Ltac pick k :=
  match k with
  | O => left; reflexivity
  | S ?k' => right; pick k'
  end.

(** The strings of [HEADCOUNT_TERMS] are the headcount vocabulary. *)
Lemma headcount_lang w : lang true HEADCOUNT_TERMS w <-> headcount_term w.
Proof.
  unfold HEADCOUNT_TERMS. rewrite lang_Alts_iff by discriminate. split.
  - intros (r & Hin & H). cbn [In] in Hin.
    destruct Hin as [<-|Hin]; [crack; apply hc_end_strength; assumption|].
    destruct Hin as [<-|Hin]; [crack; apply hc_work_years; assumption|].
    destruct Hin as [<-|Hin].
    { crack. match goal with
             | H : spells "workyear" _ |- _ =>
                 apply spells_workyear in H as (a & b & -> & Ha & Hb)
             end.
      rewrite <- app_assoc.
      apply (@hc_work_years a [] b); [assumption | constructor | assumption
                                      | assumption]. }
    destruct Hin as [<-|Hin]; [crack; apply hc_fte; assumption|].
    destruct Hin as [<-|Hin]; [crack; apply hc_headcount; assumption|].
    destruct Hin as [<-|Hin]; [crack; apply hc_personnel; assumption|].
    destruct Hin as [<-|Hin]; [crack; apply hc_items_managed; assumption|].
    destruct Hin as [<-|Hin]; [crack; apply hc_quantity; assumption|].
    destruct Hin as [<-|Hin]; [crack; apply hc_issues; assumption|].
    destruct Hin as [<-|Hin]; [crack; apply hc_receipts; assumption|].
    destruct Hin as [<-|Hin]; [crack; apply hc_requisitions; assumption|].
    destruct Hin as [<-|Hin]; [crack; apply hc_contracts; assumption|].
    destruct Hin as [<-|Hin]; [crack; apply hc_units; assumption|].
    destruct Hin.
  - intros H. destruct H.
    + eexists; split; [pick 0%nat | build].
    + eexists; split; [pick 1%nat | build].
    + eexists; split; [pick 3%nat | build].
    + eexists; split; [pick 4%nat | build].
    + eexists; split; [pick 5%nat | build].
    + eexists; split; [pick 6%nat | build].
    + eexists; split; [pick 7%nat | build].
    + eexists; split; [pick 8%nat | build].
    + eexists; split; [pick 9%nat | build].
    + eexists; split; [pick 10%nat | build].
    + eexists; split; [pick 11%nat | build].
    + eexists; split; [pick 12%nat | build].
Qed.

Lemma money_word_lang w : lang true MONEY_WORDS w <-> money_word w.
Proof.
  unfold MONEY_WORDS. rewrite lang_Alts_iff by discriminate. split.
  - intros (r & Hin & H). cbn [In] in Hin.
    destruct Hin as [<-|Hin]; [crack; apply mw_usd; assumption|].
    destruct Hin as [<-|Hin]; [crack; apply mw_dollars; assumption|].
    destruct Hin.
  - intros H. destruct H.
    + eexists; split; [pick 0%nat | build].
    + eexists; split; [pick 1%nat | build].
Qed.

Lemma abbreviation_lang w : lang true MONEY_ABBR w <-> scale_abbreviation w.
Proof.
  unfold MONEY_ABBR. split.
  - intros H. crack. apply abbr_intro; assumption.
  - intros H. destruct H. build.
Qed.

(** ** Occurrences of the unit patterns *)

Lemma Matches_Alt_iff ic r1 r2 st :
  (exists st', Matches ic (Alt r1 r2) st st')
  <-> (exists st', Matches ic r1 st st') \/ (exists st', Matches ic r2 st st').
Proof.
  split.
  - intros (st' & M). inversion M; subst; eauto.
  - intros [(st' & M)|(st' & M)]; exists st';
      [apply MAltL | apply MAltR]; assumption.
Qed.

Lemma Matches_plain_iff r a b0 :
  plain r = true ->
  ((exists st', Matches true r
                  (mkState (last_of None a) (List.length a) b0 []) st')
   <-> exists w b, b0 = w ++ b /\ lang true r w).
Proof.
  intros Hp. split.
  - intros (st' & M).
    destruct (@Matches_lang _ _ _ _ M Hp) as (w & L & E & _).
    exists w, (rest st'). auto.
  - intros (w & b & -> & L).
    destruct (@lang_Matches true r w L
                (mkState (last_of None a) (List.length a) (w ++ b) []) b
                eq_refl) as (st' & M & _).
    eauto.
Qed.

Lemma Matches_word_iff r a b0 :
  plain r = true ->
  ((exists st', Matches true (Seq [WordB; r; WordB])
                  (mkState (last_of None a) (List.length a) b0 []) st')
   <-> exists w b, b0 = w ++ b /\ lang true r w
                   /\ edge a (w ++ b) /\ edge (a ++ w) b).
Proof.
  intros Hp. cbn [Seq]. split.
  - intros (st' & M).
    inversion M as [ | | | | | | | | ? ? ? s1 ? M1 M' | | | | | ]; subst; clear M.
    inversion M1 as [ | | | | | st1 Hx | | | | | | | | ]; subst; clear M1.
    inversion M' as [ | | | | | | | | ? ? ? s2 ? M2 M3 | | | | | ]; subst; clear M'.
    inversion M3 as [ | | | | | st3 Hx' | | | | | | | | ]; subst; clear M3.
    destruct (@Matches_lang _ _ _ _ M2 Hp) as (w & L & E & V & _).
    cbn [rest prev] in E, V. subst b0.
    exists w, (rest st'). split; [reflexivity|]. split; [exact L|].
    unfold edge, word_at_end, word_at_start. split; [exact Hx|].
    rewrite last_of_app, <- V. exact Hx'.
  - intros (w & b & -> & L & E1 & E2).
    destruct (@lang_Matches true r w L
                (mkState (last_of None a) (List.length a) (w ++ b) []) b
                eq_refl) as (st' & M & Er & Ev & _).
    exists st'. econstructor; [constructor; exact E1|].
    econstructor; [exact M|]. constructor.
    unfold edge, word_at_end, word_at_start in E2.
    rewrite last_of_app in E2. unfold word_before, word_after.
    cbn [prev] in Ev. rewrite Ev, Er. exact E2.
Qed.

(** [HEADCOUNT_PAT] is found exactly in the texts that hold a term of the
    headcount vocabulary between two word boundaries. *)
Lemma headcount_found txt :
  found HEADCOUNT_PAT txt = true <-> has_headcount_term txt.
Proof.
  rewrite found_occurs. unfold occurs, has_headcount_term, has_word.
  assert (Hp : plain (Group 1 HEADCOUNT_TERMS) = true) by reflexivity.
  split.
  - intros (a & b0 & st' & -> & M).
    destruct (proj1 (@Matches_word_iff _ a b0 Hp)) as (w & b & -> & L & E1 & E2);
      [exists st'; exact M|].
    exists a, w, b. split; [reflexivity|].
    split; [apply headcount_lang; exact L | auto].
  - intros (a & w & b & -> & L & E1 & E2).
    destruct (proj2 (@Matches_word_iff _ a (w ++ b) Hp)) as (st' & M).
    { exists w, b. split; [reflexivity|].
      split; [apply headcount_lang; exact L | auto]. }
    exists a, (w ++ b), st'. auto.
Qed.

(** [MONEY_HINT_PAT] is found exactly in the texts that hold a cue of the
    money vocabulary. *)
Lemma money_found txt : found MONEY_HINT_PAT txt = true <-> money_cue txt.
Proof.
  rewrite found_occurs. unfold occurs.
  assert (Hd : plain (Ch "$") = true) by reflexivity.
  assert (Hw : plain MONEY_WORDS = true) by reflexivity.
  assert (Ha : plain MONEY_ABBR = true) by reflexivity.
  change (expr MONEY_HINT_PAT)
    with (Alt (Ch "$") (Alt (Seq [WordB; MONEY_WORDS; WordB]) MONEY_ABBR)).
  cbn [ignorecase MONEY_HINT_PAT].
  split.
  - intros (a & b0 & st' & -> & M).
    assert (M0 : exists st', Matches true
                   (Alt (Ch "$") (Alt (Seq [WordB; MONEY_WORDS; WordB]) MONEY_ABBR))
                   (mkState (last_of None a) (List.length a) b0 []) st')
      by (exists st'; exact M).
    apply Matches_Alt_iff in M0 as [M1|M2].
    + apply (@Matches_plain_iff _ a b0 Hd) in M1 as (w & b & -> & L).
      apply lang_dollar in L. subst w. eapply mc_dollar_sign. reflexivity.
    + apply Matches_Alt_iff in M2 as [M2|M3].
      * apply (@Matches_word_iff _ a b0 Hw) in M2 as (w & b & -> & L & E1 & E2).
        apply mc_word. exists a, w, b. split; [reflexivity|].
        split; [apply money_word_lang; exact L | auto].
      * apply (@Matches_plain_iff _ a b0 Ha) in M3 as (w & b & -> & L).
        eapply mc_abbreviation; [reflexivity|].
        apply abbreviation_lang. exact L.
  - intros [a b E | (a & w & b & E & L & E1 & E2) | a w b E L]; subst txt.
    + exists a, (py "$" ++ b).
      destruct (proj2 (@Matches_plain_iff _ a (py "$" ++ b) Hd)) as (st' & M).
      { exists (py "$"), b. split; [reflexivity | apply lang_dollar; reflexivity]. }
      exists st'. split; [reflexivity | apply MAltL; exact M].
    + exists a, (w ++ b).
      destruct (proj2 (@Matches_word_iff _ a (w ++ b) Hw)) as (st' & M).
      { exists w, b. split; [reflexivity|].
        split; [apply money_word_lang; exact L | auto]. }
      exists st'. split; [reflexivity | apply MAltR, MAltL; exact M].
    + exists a, (w ++ b).
      destruct (proj2 (@Matches_plain_iff _ a (w ++ b) Ha)) as (st' & M).
      { exists w, b. split; [reflexivity | apply abbreviation_lang; exact L]. }
      exists st'. split; [reflexivity | apply MAltR, MAltR; exact M].
Qed.

(** C6, as stated, fails: after the parenthesized scale cue
    "(in millions)" the unit is "unknown". *)
Lemma C6_counterexample : ~ C6_as_stated.
Proof.
  intros C. specialize (C number_5 in_millions_line).
  vm_compute in C. discriminate C.
Qed.

(** After a euro sign, a currency symbol, the unit is "unknown" as well. *)
Lemma euro_sign_is_unknown :
  claimed_money_vocabulary (left_text number_5 euro_line) = true
  /\ classify_units_for_word number_5 euro_line = unknown.
Proof. split; vm_compute; reflexivity. Qed.

(** C6. The unit of a number is decided by the text of the line words whose
    right edge is at least 2 units left of the number's left edge.  It is
    "people" exactly when that text holds a term of the headcount
    vocabulary between two word boundaries; else it is "money" exactly when
    the text holds a dollar sign, one of the words "usd", "dollar" and
    "dollars" between two word boundaries, or a parenthesized K, M or B;
    else it is "unknown".  Headcount wins over money. *)
Theorem C6_unit_classification (wd : word) (line_words : list word) :
  let ctx := join (py " ")
               (map text (filter (fun w => leb (x1 w) (sub (x0 wd) two))
                                 line_words)) in
  (classify_units_for_word wd line_words = people <-> has_headcount_term ctx)
  /\ (classify_units_for_word wd line_words = money
      <-> ~ has_headcount_term ctx /\ money_cue ctx)
  /\ (classify_units_for_word wd line_words = unknown
      <-> ~ has_headcount_term ctx /\ ~ money_cue ctx).
Proof.
  intros ctx.
  assert (E : classify_units_for_word wd line_words
              = (if found HEADCOUNT_PAT ctx then people
                 else if found MONEY_HINT_PAT ctx then money
                 else unknown)).
  { unfold classify_units_for_word, left_text.
    change (join [32%N] (map text (filter (fun w => leb (x1 w) (sub (x0 wd) two))
                                          line_words))) with ctx.
    clearbody ctx. destruct ctx as [|c s]; [vm_compute; reflexivity|].
    reflexivity. }
  rewrite E. clear E.
  pose proof (headcount_found ctx) as Hh.
  pose proof (money_found ctx) as Hm.
  destruct (found HEADCOUNT_PAT ctx), (found MONEY_HINT_PAT ctx);
    (assert (T : true = true) by reflexivity);
    (assert (F : false = true -> False) by discriminate);
    repeat split; intros; try discriminate; try tauto.
Qed.

Lemma C6_unit_classification_witness :
  let ctx := join (py " ")
               (map text (filter (fun w => leb (x1 w) (sub (x0 number_340) two))
                                 strength_line)) in
  has_headcount_term ctx /\ money_cue ctx
  /\ classify_units_for_word number_340 strength_line = people.
Proof.
  intros ctx.
  assert (H1 : has_headcount_term ctx).
  { exists [], (py "End Strength"), (py " $").
    split; [vm_compute; reflexivity|].
    split; [|split; vm_compute; reflexivity].
    apply (@hc_end_strength (py "End") (py " ") (py "Strength"));
      repeat constructor. }
  assert (H2 : money_cue ctx).
  { apply (@mc_dollar_sign ctx (py "End Strength ") []).
    vm_compute. reflexivity. }
  split; [exact H1 | split; [exact H2|]].
  exact (proj2 (proj1 (@C6_unit_classification number_340 strength_line)) H1).
Defined.





